(** * Screenshoter: selector resolution, stabilisation, centering and capture

    A shallow embedding of the two entry points of the repository,
    [src/index.ts] (one function, [captureScreenshots]) and its class-based
    variant ([SelectorManager], [AnimationHandler], [ScreenshotCapture]),
    together with the properties the specification states about them.

    JavaScript values are modelled as follows:
    - strings are sequences of 8-bit characters ([string], [list ascii]);
      a character outside ASCII is a character of code 128 or more, which the
      regular expressions of [generateFilename] treat like any other
      non-alphanumeric character;
    - numbers are IEEE 754 binary64 values ([float]);
    - arrays are lists, a [Set] is its list of members in insertion order;
    - a rejected promise or a thrown exception is the left injection of a sum;
    - the browser (DOM, CSS engine, window, timers) and the file system are
      explicit state, the parts the program does not fix being parameters. *)

From Stdlib Require Import Floats ZArith NArith Ascii String List Bool Lia.
From Stdlib Require Import DecimalString DecimalNat.
From stdpp Require Import gmap strings list.

Local Open Scope bool_scope.

(** ** Characters and strings *)

Module JS.

Definition chars := list ascii.

Definition code (c : ascii) : N := N_of_ascii c.

Definition in_range (lo hi c : ascii) : bool :=
  ((code lo <=? code c) && (code c <=? code hi))%N.

(** [String.prototype.toLowerCase], character by character. *)
Definition lower (c : ascii) : ascii :=
  if in_range "A" "Z" c then ascii_of_N (code c + 32) else c.

Definition toLowerCase (s : chars) : chars := map lower s.

(** The canonical form a regular expression with the [i] flag (and without
    the [u] flag) compares characters by: the upper-case form. *)
Definition canonicalize (c : ascii) : ascii :=
  if in_range "a" "z" c then ascii_of_N (code c - 32) else c.

Definition is_underscore (c : ascii) : bool := Ascii.eqb c "_".

(** *** [String.prototype.replace] with a global regular expression

    A regular expression is given by its matcher: at a position of the input
    (the flag says whether it is the start of the input, the list is the input
    from that position on) it returns the length of the match, if any.  The
    scan goes left to right; a match is replaced and the scan resumes after
    it, a position without a match keeps its character.  The four expressions
    of the program never match the empty string. *)

Definition regex := bool -> chars -> option nat.

Section Replace.
Variable re : regex.
Variable replacement : chars.

Fixpoint replace_from (at_start : bool) (skip : nat) (s : chars) : chars :=
  match s with
  | [] => []
  | c :: rest =>
      match skip with
      | S k => replace_from false k rest
      | O =>
          match re at_start s with
          | Some (S n) => replacement ++ replace_from false n rest
          | _ => c :: replace_from false 0 rest
          end
      end
  end.

Definition replace (s : chars) : chars := replace_from true 0 s.
End Replace.

(** [/[#.]/g] *)
Definition re_hash_dot : regex := fun _ s =>
  match s with
  | c :: _ => if Ascii.eqb c "#" || Ascii.eqb c "." then Some 1 else None
  | [] => None
  end.

(** The class [[a-z0-9]] under the [i] flag. *)
Definition class_az09_i (c : ascii) : bool :=
  let u := canonicalize c in
  existsb (fun a => Ascii.eqb (canonicalize a) u)
    (map ascii_of_nat (seq 97 26 ++ seq 48 10)).

(** [/[^a-z0-9]/gi] *)
Definition re_not_alnum : regex := fun _ s =>
  match s with
  | c :: _ => if class_az09_i c then None else Some 1
  | [] => None
  end.

Fixpoint underscores (s : chars) : nat :=
  match s with
  | c :: rest => if is_underscore c then S (underscores rest) else 0
  | [] => 0
  end.

(** [/_+/g] (greedy) *)
Definition re_underscores : regex := fun _ s =>
  match underscores s with
  | O => None
  | n => Some n
  end.

(** [/^_|_$/g] *)
Definition re_edge_underscore : regex := fun at_start s =>
  match s with
  | c :: rest =>
      if is_underscore c
      then if at_start then Some 1
           else match rest with [] => Some 1 | _ => None end
      else None
  | [] => None
  end.

End JS.

(** ** Device profiles *)

Inductive DeviceType := desktop | mobile.

Definition device_name (d : DeviceType) : string :=
  match d with desktop => "desktop" | mobile => "mobile" end.

(** ** [generateFilename]

    The function has the same body in [src/index.ts] and in
    [ScreenshotCapture]. *)

Definition cleanSelector (selector : string) : JS.chars :=
  JS.toLowerCase
    (JS.replace JS.re_edge_underscore []
      (JS.replace JS.re_underscores ["_"%char]
        (JS.replace JS.re_not_alnum ["_"%char]
          (JS.replace JS.re_hash_dot []
            (list_ascii_of_string selector))))).

Definition generateFilename (selector : string) (device : DeviceType) : string :=
  (string_of_list_ascii (cleanSelector selector)
     +:+ "__" +:+ device_name device +:+ ".png")%string.

(** *** The specification's reading of the file name

    Strip [#] and [.], replace what is not in [[A-Za-z0-9]] by [_], collapse
    runs of [_], strip leading and trailing [_], lower-case, append the
    device suffix. *)

Module FilenameSpec.

Definition is_alnum (c : ascii) : bool :=
  JS.in_range "A" "Z" c || JS.in_range "a" "z" c || JS.in_range "0" "9" c.

Fixpoint strip_hash_dot (s : JS.chars) : JS.chars :=
  match s with
  | [] => []
  | c :: rest =>
      if Ascii.eqb c "#" || Ascii.eqb c "."
      then strip_hash_dot rest else c :: strip_hash_dot rest
  end.

Definition underscore_others (s : JS.chars) : JS.chars :=
  map (fun c => if is_alnum c then c else "_"%char) s.

Fixpoint collapse (s : JS.chars) : JS.chars :=
  match s with
  | [] => []
  | c :: rest =>
      if JS.is_underscore c
      then match rest with
           | d :: _ => if JS.is_underscore d then collapse rest else c :: collapse rest
           | [] => [c]
           end
      else c :: collapse rest
  end.

Fixpoint strip_leading (s : JS.chars) : JS.chars :=
  match s with
  | c :: rest => if JS.is_underscore c then strip_leading rest else s
  | [] => []
  end.

Definition strip_trailing (s : JS.chars) : JS.chars :=
  rev (strip_leading (rev s)).

(** What [/^_|_$/g] removes after the first position: a final underscore. *)
Fixpoint chop (s : JS.chars) : JS.chars :=
  match s with
  | [] => []
  | c :: rest =>
      if JS.is_underscore c
      then match rest with [] => [] | _ => c :: chop rest end
      else c :: chop rest
  end.

(** No two underscores in a row. *)
Fixpoint no_double (s : JS.chars) : Prop :=
  match s with
  | c :: rest =>
      match rest with
      | d :: _ => ~ (JS.is_underscore c = true /\ JS.is_underscore d = true) /\ no_double rest
      | [] => True
      end
  | [] => True
  end.

Definition clean (selector : string) : JS.chars :=
  map JS.lower
    (strip_trailing (strip_leading
      (collapse (underscore_others (strip_hash_dot (list_ascii_of_string selector)))))).

Definition filename (selector : string) (device : DeviceType) : string :=
  (string_of_list_ascii (clean selector)
     +:+ "__" +:+ device_name device +:+ ".png")%string.

End FilenameSpec.

(** ** [Set] of strings

    A JavaScript [Set] keeps its members in insertion order and compares
    strings by their characters; [new Set(iterable)] adds the items one by
    one, [Array.from] lists the members in insertion order. *)

Module JSSet.

Definition t := list string.

Definition has (s : t) (x : string) : bool := bool_decide (x ∈ s).

Definition add (s : t) (x : string) : t := if has s x then s else s ++ [x].

Definition of_iterable (xs : list string) : t := fold_left add xs [].

Definition to_array (s : t) : list string := s.

(** Order-preserving de-duplication, as the specification words it: every
    string stays at its first occurrence. *)
Fixpoint first_occurrences (xs : list string) : list string :=
  match xs with
  | [] => []
  | x :: rest => x :: filter (fun y => y <> x) (first_occurrences rest)
  end.

End JSSet.

(** ** Numbers *)

Module JSMath.

Local Open Scope float_scope.

(** [Math.max] of two arguments: [NaN] if either is, and [+0] above [-0]. *)
Definition max (a b : float) : float :=
  if is_nan a || is_nan b then nan
  else if a <? b then b
  else if b <? a then a
  else if get_sign a then b else a.

Definition abs (a : float) : float := PrimFloat.abs a.

End JSMath.

(** ** Options *)

Inductive WaitCondition := load | domcontentloaded | networkidle | commit.

Inductive DeviceChoice := both | only (d : DeviceType).

(** [CliOptions] / [ScreenshotOptions].  [wait] and [navigationTimeout] are
    the numbers [parseInt] yields ([src/index.ts] parses at each use, the
    class variant once in [parseCommandLineOptions]);
    [navigationTimeoutText] is the timeout option as it was given, which
    [src/index.ts] prints where the class variant prints the number. *)
Record Options := {
  url : string;
  selectors : option (list string);
  config : option string;
  wait : float;
  animationTrigger : bool;
  output : string;
  navigationTimeoutText : string;
  navigationTimeout : float;
  waitCondition : WaitCondition;
  parentSelector : option string;
  device : DeviceChoice
}.

(** Truthiness of an optional string: [undefined] and the empty string are
    falsy. *)
Definition given (o : option string) : bool :=
  match o with
  | Some s => negb (String.eqb s "")
  | None => false
  end.

Record ViewportConfig := {
  width : float;
  height : float;
  deviceScaleFactor : float;
  isMobile : bool
}.

Definition VIEWPORT_CONFIGS (d : DeviceType) : ViewportConfig :=
  match d with
  | desktop => {| width := 1500; height := 1095; deviceScaleFactor := 1; isMobile := false |}
  | mobile => {| width := 430; height := 932; deviceScaleFactor := 2; isMobile := true |}
  end.

Definition MOBILE_USER_AGENT : string :=
  "Mozilla/5.0 (iPhone; CPU iPhone OS 14_0 like Mac OS X) AppleWebKit/605.1.15 (KHTML, like Gecko) Version/14.0 Mobile/15E148 Safari/604.1".

Record ContextOptions := {
  viewport : ViewportConfig;
  ctx_deviceScaleFactor : float;
  ctx_isMobile : bool;
  userAgent : option string
}.

Definition contextOptions (d : DeviceType) : ContextOptions :=
  let viewportConfig := VIEWPORT_CONFIGS d in
  {| viewport := viewportConfig;
     ctx_deviceScaleFactor := deviceScaleFactor viewportConfig;
     ctx_isMobile := isMobile viewportConfig;
     userAgent := if isMobile viewportConfig then Some MOBILE_USER_AGENT else None |}.

Definition deviceTypes (o : Options) : list DeviceType :=
  match device o with
  | both => [desktop; mobile]
  | only d => [d]
  end.

(** ** Errors and console lines *)

Inductive Error :=
  | ElementNotFound (sel : string)
      (* new Error(`Element not found: ${sel}`), thrown inside page.evaluate *)
  | FailedToProcess (selector : string) (cause : Error)
      (* new Error(`Failed to process selector "${selector}": ${error.message}`) *)
  | InvalidSelector (sel : string)
      (* the SyntaxError of document.querySelector *)
  | External (message : string).
      (* raised by a collaborator: browser, timer, file system, JSON *)

(** A value a template literal prints: the timeout is a string in
    [src/index.ts] and a number in the class variant. *)
Inductive Shown :=
  | Text (s : string)
  | Number (x : float).

Inductive Line :=
  | ProcessingDevice (d : DeviceType)
  | Navigating (url : string) (timeout : Shown)
  | PageLoaded
  | FindingChildren (parent : string)
  | FoundChildren (n : nat)
  | ProcessingSelector (selector : string)
  | Triggering (safeSelector : string)
  | Waiting (ms : float)
  | Saved (filepath : string)
  | ErrorProcessingSelector (selector : string) (e : Error)
  | ErrorReadingConfig (e : Error)
  | ErrorCapturing (e : Error).

(** What reading the config file yields: [fs.readFileSync], [JSON.parse] and
    the [selectors] property of the parsed value, which the source types as
    an array of strings (its interface [ConfigFile]).  A file whose
    [selectors] is another truthy value, one that cannot be iterated, is not
    represented. *)
Inductive ConfigFile :=
  | Unreadable (e : Error)
  | Unparseable (e : Error)
  | ParsedNull (e : Error)
      (* JSON null: reading a property of it throws a TypeError *)
  | Parsed (sels : option (list string)).
      (* config.selectors; None when absent or falsy *)

Definition config_error (c : ConfigFile) : option Error :=
  match c with
  | Unreadable e | Unparseable e | ParsedNull e => Some e
  | Parsed _ => None
  end.

(** ** The page *)

Module DOMRect.
Record t := { top : float; height : float }.
End DOMRect.

Record Node := {
  markup : string;                  (* the element as authored *)
  children : list nat;              (* element children, document order *)
  data_screenshot : option string;  (* the data-screenshot attribute *)
  offsetTop : float;                (* top of the box in the document *)
  offsetHeight : float
}.

Inductive DomOp :=
  | QuerySelector (sel : string)
  | SetAttribute (node : nat) (value : string)
  | GetBoundingClientRect (node : nat)
  | ScrollTo (top : float)          (* behavior: "smooth" *)
  | ScrollBy (top : float).         (* behavior: "instant" *)

Record Page := {
  nodes : list Node;                (* document order; a node is its index *)
  pageYOffset : float;
  innerHeight : float;
  scrollHeight : float;
  smoothTarget : option float;      (* a smooth scroll under way *)
  ops : list DomOp                  (* DOM and window calls so far, oldest first *)
}.

(** The scroll requests among the calls made on a page. *)
Definition is_scroll (o : DomOp) : bool :=
  match o with ScrollTo _ | ScrollBy _ => true | _ => false end.

Definition scrolls (p : Page) : list DomOp := List.filter is_scroll (ops p).

Definition blank : Page :=
  {| nodes := []; pageYOffset := 0; innerHeight := 0; scrollHeight := 0;
     smoothTarget := None; ops := [] |}.

Record World := {
  console : list Line;              (* oldest first *)
  files : gmap string Page;         (* a PNG is the page as it was captured *)
  page : Page;                      (* the page of the open browsing context *)
  browserOpen : bool;
  entropy : nat                     (* draws of Date.now / Math.random so far *)
}.

Definition initial : World :=
  {| console := []; files := ∅; page := blank; browserOpen := false; entropy := 0 |}.

(** ** Computations that may throw *)

Definition M (A : Type) : Type := World -> (Error + A) * World.

Definition ret {A} (a : A) : M A := fun w => (inr a, w).

Definition throw {A} (e : Error) : M A := fun w => (inl e, w).

Definition bind {A B} (m : M A) (k : A -> M B) : M B := fun w =>
  match m w with
  | (inr a, w') => k a w'
  | (inl e, w') => (inl e, w')
  end.

Notation "x <- m ;; k" := (bind m (fun x => k))
  (at level 100, m at next level, right associativity).
Notation "m ;;; k" := (bind m (fun _ => k))
  (at level 100, right associativity).

(** [try { m } catch (error) { h error }]: what [m] did before it threw
    stays done. *)
Definition try_catch {A} (m : M A) (h : Error -> M A) : M A := fun w =>
  match m w with
  | (inl e, w') => h e w'
  | r => r
  end.

(** [try { m } finally { f }] *)
Definition try_finally {A} (m : M A) (f : M unit) : M A := fun w =>
  match m w with
  | (r, w') =>
      match f w' with
      | (inl e, w'') => (inl e, w'')
      | (inr _, w'') => (r, w'')
      end
  end.

Fixpoint for_of {A} (xs : list A) (body : A -> M unit) : M unit :=
  match xs with
  | [] => ret tt
  | x :: rest => body x ;;; for_of rest body
  end.

Definition get {A} (f : World -> A) : M A := fun w => (inr (f w), w).

Definition console_log (l : Line) : M unit := fun w =>
  (inr tt, {| console := console w ++ [l]; files := files w; page := page w;
              browserOpen := browserOpen w; entropy := entropy w |}).

Definition console_error := console_log.

Definition set_page (p : Page) : M unit := fun w =>
  (inr tt, {| console := console w; files := files w; page := p;
              browserOpen := browserOpen w; entropy := entropy w |}).

Definition set_browser (b : bool) : M unit := fun w =>
  (inr tt, {| console := console w; files := files w; page := page w;
              browserOpen := b; entropy := entropy w |}).

Definition write_file (path : string) (image : Page) : M unit := fun w =>
  (inr tt, {| console := console w; files := <[path := image]> (files w);
              page := page w; browserOpen := browserOpen w; entropy := entropy w |}).

Definition draw : M nat := fun w =>
  (inr (entropy w),
   {| console := console w; files := files w; page := page w;
      browserOpen := browserOpen w; entropy := S (entropy w) |}).

(** ** The collaborators

    What the program calls and does not define: the CSS engine of the page,
    navigation, timers, the screenshot and directory calls, [path.join], the
    config file and the sources of time and randomness. *)

Class Env := {
  css_valid : string -> bool;
      (* whether document.querySelector accepts the selector *)
  css_matches : string -> Node -> bool;
  newContext_error : ContextOptions -> option Error;
  goto : ContextOptions -> Options -> Error + Page;
      (* the page a fresh context shows once page.goto returns *)
  waitForTimeout : float -> Page -> Error + Page;
      (* the page after the wait: scrolls and animations went on *)
  screenshot_error : string -> Page -> option Error;
  mkdir_error : string -> option Error;
  path_join : string -> string -> string;
  readConfig : string -> ConfigFile;
  Date_now : nat -> string;
  Math_random_36 : nat -> string
      (* Math.random().toString(36).slice(2) *)
}.

(** An optional string that passes an [if]: present and not empty. *)
Definition truthy (o : option string) : option string :=
  match o with
  | Some s => if String.eqb s "" then None else Some s
  | None => None
  end.

Definition quote : string := String "034"%char EmptyString.

(** [`[data-screenshot="${token}"]`] *)
Definition locator (token : string) : string :=
  ("[data-screenshot=" +:+ quote +:+ token +:+ quote +:+ "]")%string.

Definition decimal (n : nat) : string := NilZero.string_of_uint (Nat.to_uint n).

Fixpoint find_index {A} (f : A -> bool) (l : list A) : option nat :=
  match l with
  | [] => None
  | x :: rest => if f x then Some 0 else S <$> find_index f rest
  end.

(** *** DOM and window calls *)

Module Browser.
Section Calls.
Context {E : Env}.
Local Open Scope float_scope.

Definition with_op (o : DomOp) (p : Page) : Page :=
  {| nodes := nodes p; pageYOffset := pageYOffset p; innerHeight := innerHeight p;
     scrollHeight := scrollHeight p; smoothTarget := smoothTarget p;
     ops := ops p ++ [o] |}.

Definition update_page (f : Page -> Page) : M unit := fun w => set_page (f (page w)) w.

Definition querySelector (sel : string) : M (option nat) :=
  update_page (with_op (QuerySelector sel)) ;;;
  if css_valid sel
  then p <- get page ;; ret (find_index (css_matches sel) (nodes p))
  else throw (InvalidSelector sel).

Definition element_children (el : nat) : M (list nat) :=
  p <- get page ;;
  ret (match nodes p !! el with Some n => children n | None => [] end).

Definition set_data_screenshot (value : string) (n : Node) : Node :=
  {| markup := markup n; children := children n; data_screenshot := Some value;
     offsetTop := offsetTop n; offsetHeight := offsetHeight n |}.

Definition setAttribute (el : nat) (value : string) : M unit :=
  update_page (fun p =>
    with_op (SetAttribute el value)
      {| nodes := alter (set_data_screenshot value) el (nodes p);
         pageYOffset := pageYOffset p; innerHeight := innerHeight p;
         scrollHeight := scrollHeight p; smoothTarget := smoothTarget p;
         ops := ops p |}).

(** The box of an element relative to the viewport. *)
Definition client_rect (p : Page) (el : nat) : DOMRect.t :=
  match nodes p !! el with
  | Some n => {| DOMRect.top := offsetTop n - pageYOffset p;
                 DOMRect.height := offsetHeight n |}
  | None => {| DOMRect.top := 0; DOMRect.height := 0 |}
  end.

Definition getBoundingClientRect (el : nat) : M DOMRect.t :=
  update_page (with_op (GetBoundingClientRect el)) ;;;
  p <- get page ;;
  ret (client_rect p el).

(** Scroll positions: a non-finite request counts as 0, and the window
    keeps its offset between 0 and the scrollable extent. *)
Definition normalize (x : float) : float := if is_finite x then x else 0.

Definition maxScroll (p : Page) : float :=
  let m := scrollHeight p - innerHeight p in
  if m <? 0 then 0 else m.

Definition clampScroll (p : Page) (y : float) : float :=
  if y <? 0 then 0 else if maxScroll p <? y then maxScroll p else y.

(** [window.scrollTo({ top, behavior: "smooth" })]: the scroll starts, the
    offset moves while time passes. *)
Definition scrollTo (top : float) : M unit :=
  update_page (fun p =>
    with_op (ScrollTo top)
      {| nodes := nodes p; pageYOffset := pageYOffset p; innerHeight := innerHeight p;
         scrollHeight := scrollHeight p;
         smoothTarget := Some (clampScroll p (normalize top)); ops := ops p |}).

(** [window.scrollBy({ top, behavior: "instant" })] *)
Definition scrollBy (top : float) : M unit :=
  update_page (fun p =>
    with_op (ScrollBy top)
      {| nodes := nodes p;
         pageYOffset := clampScroll p (pageYOffset p + normalize top);
         innerHeight := innerHeight p; scrollHeight := scrollHeight p;
         smoothTarget := None; ops := ops p |}).

Definition page_waitForTimeout (ms : float) : M unit := fun w =>
  match waitForTimeout ms (page w) with
  | inr p => set_page p w
  | inl e => (inl e, w)
  end.

Definition page_screenshot (path : string) : M unit := fun w =>
  match screenshot_error path (page w) with
  | Some e => (inl e, w)
  | None => write_file path (page w) w
  end.

(** [context.close()], which is taken to succeed. *)
Definition context_close : M unit := set_page blank.

(** [fs.existsSync] and [fs.mkdirSync(..., { recursive: true })] *)
Definition ensureOutputDirectory (options : Options) : M unit :=
  match mkdir_error (output options) with
  | Some e => throw e
  | None => ret tt
  end.

(** [browser.newContext], [context.newPage], [page.goto] *)
Definition open_context (d : DeviceType) : M unit :=
  match newContext_error (contextOptions d) with
  | Some e => throw e
  | None => set_page blank
  end.

Definition page_goto (d : DeviceType) (options : Options) : M unit :=
  match goto (contextOptions d) options with
  | inr p => set_page p
  | inl e => throw e
  end.
End Calls.
End Browser.

(** *** The callbacks both files evaluate in the page *)

Module InPage.
Section Callbacks.
Context {E : Env}.
Local Open Scope float_scope.

(** [children.map((child, index) => ...)] *)
Fixpoint tag_children (index : nat) (cs : list nat) : M (list string) :=
  match cs with
  | [] => ret []
  | child :: rest =>
      let safeIndex := ("screenshot-target-" +:+ decimal index)%string in
      Browser.setAttribute child safeIndex ;;;
      tagged <- tag_children (S index) rest ;;
      ret (locator safeIndex :: tagged)
  end.

Definition childSelectors (parentSelector : string) : M (list string) :=
  parent <- Browser.querySelector parentSelector ;;
  match parent with
  | None => ret []
  | Some el => cs <- Browser.element_children el ;; tag_children 0 cs
  end.

(** The part of the rewriter that touches the page. *)
Definition tag_element (sel : string) : M string :=
  element <- Browser.querySelector sel ;;
  match element with
  | None => throw (ElementNotFound sel)
  | Some el =>
      n <- draw ;;
      let safeId := ("screenshot-" +:+ Date_now n +:+ "-" +:+ Math_random_36 n)%string in
      Browser.setAttribute el safeId ;;;
      ret (locator safeId)
  end.

Definition targetScrollY (pageYOffset : float) (rect : DOMRect.t) (viewportHeight : float) : float :=
  let elementHeight := DOMRect.height rect in
  JSMath.max 0 (pageYOffset + DOMRect.top rect - (viewportHeight - elementHeight) / 2).

(** Phase A *)
Definition centerElement (sel : string) : M unit :=
  element <- Browser.querySelector sel ;;
  match element with
  | Some el =>
      rect <- Browser.getBoundingClientRect el ;;
      p <- get page ;;
      Browser.scrollTo (targetScrollY (pageYOffset p) rect (innerHeight p))
  | None => ret tt
  end.

Definition elementCenter (rect : DOMRect.t) : float :=
  DOMRect.top rect + DOMRect.height rect / 2.

Definition viewportCenter (viewportHeight : float) : float := viewportHeight / 2.

Definition offset (rect : DOMRect.t) (viewportHeight : float) : float :=
  JSMath.abs (elementCenter rect - viewportCenter viewportHeight).

(** The corrective scroll of Phase B, if one is due. *)
Definition adjustment (rect : DOMRect.t) (viewportHeight : float) : option float :=
  if 50 <? offset rect viewportHeight
  then Some (elementCenter rect - viewportCenter viewportHeight)
  else None.

(** Phase B *)
Definition adjustPosition (sel : string) : M unit :=
  element <- Browser.querySelector sel ;;
  match element with
  | Some el =>
      rect <- Browser.getBoundingClientRect el ;;
      p <- get page ;;
      match adjustment rect (innerHeight p) with
      | Some a => Browser.scrollBy a
      | None => ret tt
      end
  | None => ret tt
  end.

Definition triggerAnimation (sel : string) : M unit :=
  centerElement sel ;;;
  Browser.page_waitForTimeout 500 ;;;
  adjustPosition sel ;;;
  Browser.page_waitForTimeout 200.
End Callbacks.
End InPage.

(** ** [src/index.ts] *)

Module Index.
Section Program.
Context {E : Env}.

Definition getSelectors (options : Options) : M (list string) :=
  match truthy (config options) with
  | Some path =>
      match readConfig path with
      | Parsed sels => ret (default [] sels)
      | Unreadable error | Unparseable error | ParsedNull error =>
          console_error (ErrorReadingConfig error) ;;;
          ret []
      end
  | None => ret (default [] (selectors options))
  end.

(** [if (options.parentSelector) { ... }]: the selectors the pass goes on
    with. *)
Definition withChildren (options : Options) (selectors : list string) : M (list string) :=
  match truthy (parentSelector options) with
  | Some parent =>
      console_log (FindingChildren parent) ;;;
      childSelectors <- InPage.childSelectors parent ;;
      console_log (FoundChildren (length childSelectors)) ;;;
      let uniqueSelectors := JSSet.of_iterable (selectors ++ childSelectors) in
      ret (JSSet.to_array uniqueSelectors)
  | None => ret selectors
  end.

(** The callback of the first [page.evaluate] of the selector loop, and its
    [.catch]. *)
Definition safeSelector (selector : string) : M string :=
  try_catch
    (if String.prefix "[data-screenshot" selector
     then ret selector
     else InPage.tag_element selector)
    (fun error => throw (FailedToProcess selector error)).

Definition triggerAnimation := @InPage.triggerAnimation E.

(** The [try] block of the selector loop: stabilise, animate, wait,
    capture. *)
Definition attempt (options : Options) (deviceType : DeviceType)
    (selector : string) : M unit :=
  safe <- safeSelector selector ;;
  (if animationTrigger options
   then console_log (Triggering safe) ;;; triggerAnimation safe
   else ret tt) ;;;
  let waitTime := wait options in
  console_log (Waiting waitTime) ;;;
  Browser.page_waitForTimeout waitTime ;;;
  let filename := generateFilename selector deviceType in
  let filepath := path_join (output options) filename in
  Browser.page_screenshot filepath ;;;
  console_log (Saved filepath).

(** The body of [for (const selector of selectors)]. *)
Definition processSelector (options : Options) (deviceType : DeviceType)
    (selector : string) : M unit :=
  console_log (ProcessingSelector selector) ;;;
  try_catch
    (attempt options deviceType selector)
    (fun error => console_error (ErrorProcessingSelector selector error)).

(** What a device pass does before it reaches the selector loop. *)
Definition prepare (options : Options) (deviceType : DeviceType)
    (selectors : list string) : M (list string) :=
  console_log (ProcessingDevice deviceType) ;;;
  Browser.open_context deviceType ;;;
  console_log (Navigating (url options) (Text (navigationTimeoutText options))) ;;;
  Browser.page_goto deviceType options ;;;
  console_log PageLoaded ;;;
  selectors <- withChildren options selectors ;;
  Browser.ensureOutputDirectory options ;;;
  ret selectors.

(** The body of [for (const deviceType of deviceTypes)]; it returns the
    value it leaves in the variable [selectors], which is declared outside
    the loop. *)
Definition devicePass (options : Options) (selectors : list string)
    (deviceType : DeviceType) : M (list string) :=
  selectors <- prepare options deviceType selectors ;;
  for_of selectors (processSelector options deviceType) ;;;
  Browser.context_close ;;;
  ret selectors.

Fixpoint devicePasses (options : Options) (deviceTypes : list DeviceType)
    (selectors : list string) : M unit :=
  match deviceTypes with
  | [] => ret tt
  | deviceType :: rest =>
      selectors <- devicePass options selectors deviceType ;;
      devicePasses options rest selectors
  end.

Definition captureScreenshots (options : Options) : M unit :=
  set_browser true ;;;
  try_finally
    (try_catch
       (let deviceTypes := deviceTypes options in
        selectors <- getSelectors options ;;
        devicePasses options deviceTypes selectors)
       (fun error => console_error (ErrorCapturing error)))
    (set_browser false).
End Program.
End Index.

(** ** The class-based variant *)

Module Refactored.
Section Program.
Context {E : Env}.

(** *** [SelectorManager] *)

Definition loadSelectorsFromConfig (options : Options) : M (list string) :=
  match truthy (config options) with
  | Some path =>
      match readConfig path with
      | Parsed sels => ret (default [] sels)
      | Unreadable error | Unparseable error | ParsedNull error =>
          console_error (ErrorReadingConfig error) ;;;
          ret []
      end
  | None => ret (default [] (selectors options))
  end.

Definition getChildSelectors (options : Options) : M (list string) :=
  match truthy (parentSelector options) with
  | None => ret []
  | Some parent =>
      console_log (FindingChildren parent) ;;;
      InPage.childSelectors parent
  end.

Definition getSelectors (options : Options) : M (list string) :=
  selectors <- loadSelectorsFromConfig options ;;
  match truthy (parentSelector options) with
  | Some _ =>
      childSelectors <- getChildSelectors options ;;
      let uniqueSelectors := JSSet.of_iterable (selectors ++ childSelectors) in
      ret (JSSet.to_array uniqueSelectors)
  | None => ret selectors
  end.

Definition makeSelectorSafe (selector : string) : M string :=
  if String.prefix "[data-screenshot" selector
  then ret selector
  else InPage.tag_element selector.

(** *** [AnimationHandler] *)

Definition centerElement := @InPage.centerElement E.
Definition adjustPosition := @InPage.adjustPosition E.

Definition triggerAnimation (selector : string) : M unit :=
  centerElement selector ;;;
  Browser.page_waitForTimeout 500 ;;;
  adjustPosition selector ;;;
  Browser.page_waitForTimeout 200.

(** *** [ScreenshotCapture] *)

Definition getDeviceTypes (options : Options) : list DeviceType := deviceTypes options.

Definition createBrowserContext (deviceType : DeviceType) : M unit :=
  open <- get browserOpen ;;
  if open then Browser.open_context deviceType
  else throw (External "Browser not initialized").

Definition setupPage (options : Options) (deviceType : DeviceType) : M unit :=
  console_log (Navigating (url options) (Number (navigationTimeout options))) ;;;
  Browser.page_goto deviceType options ;;;
  console_log PageLoaded.

(** The [try] block of [processSelector]. *)
Definition attempt (options : Options) (selector : string)
    (deviceType : DeviceType) : M unit :=
  safeSelector <- makeSelectorSafe selector ;;
  (if animationTrigger options
   then console_log (Triggering safeSelector) ;;; triggerAnimation safeSelector
   else ret tt) ;;;
  console_log (Waiting (wait options)) ;;;
  Browser.page_waitForTimeout (wait options) ;;;
  let filename := generateFilename selector deviceType in
  let filepath := path_join (output options) filename in
  Browser.page_screenshot filepath ;;;
  console_log (Saved filepath).

Definition processSelector (options : Options) (selector : string)
    (deviceType : DeviceType) : M unit :=
  console_log (ProcessingSelector selector) ;;;
  try_catch
    (attempt options selector deviceType)
    (fun error => console_error (ErrorProcessingSelector selector error)).

(** What [processDevice] does before it reaches the selector loop. *)
Definition prepare (options : Options) (deviceType : DeviceType) : M (list string) :=
  console_log (ProcessingDevice deviceType) ;;;
  createBrowserContext deviceType ;;;
  setupPage options deviceType ;;;
  selectors <- getSelectors options ;;
  Browser.ensureOutputDirectory options ;;;
  ret selectors.

Definition processDevice (options : Options) (deviceType : DeviceType) : M unit :=
  selectors <- prepare options deviceType ;;
  for_of selectors (fun selector => processSelector options selector deviceType) ;;;
  Browser.context_close.

Definition handleError (error : Error) : M unit := console_error (ErrorCapturing error).

Definition cleanup : M unit :=
  open <- get browserOpen ;;
  if open then set_browser false else ret tt.

Definition start (options : Options) : M unit :=
  set_browser true ;;;
  try_finally
    (try_catch
       (for_of (getDeviceTypes options) (processDevice options))
       handleError)
    cleanup.

(** The record [parseCommandLineOptions] builds from [program.opts()]: the
    options as they are ([wait] and [navigationTimeout] parsed, which
    [Options] already holds as numbers), with defaults for
    [animationTrigger] and [output]. *)
Definition parseCommandLineOptions (options : Options) : Options :=
  {| url := url options;
     selectors := selectors options;
     config := config options;
     wait := wait options;
     animationTrigger := animationTrigger options || false;
     output := if String.eqb (output options) "" then "./screenshots" else output options;
     navigationTimeoutText := navigationTimeoutText options;
     navigationTimeout := navigationTimeout options;
     waitCondition := waitCondition options;
     parentSelector := parentSelector options;
     device := device options |}.

Definition main (options : Options) : M unit :=
  start (parseCommandLineOptions options).
End Program.
End Refactored.

(** ** What a run leaves behind

    The selectors a run started on, the failures it reported, the captures it
    announced, and the files on disk. *)

Definition processed (w : World) : list string :=
  omap (fun l => match l with ProcessingSelector s => Some s | _ => None end) (console w).

Definition selector_errors (w : World) : list (string * Error) :=
  omap (fun l => match l with
                 | ErrorProcessingSelector s e => Some (s, e)
                 | _ => None
                 end) (console w).

Definition saves (w : World) : list string :=
  omap (fun l => match l with Saved p => Some p | _ => None end) (console w).

Definition saved (w : World) : list string := (map_to_list (files w)).*1.

(** The scroll offset a saved capture shows. *)
Definition shown (w : World) (path : string) : option float :=
  pageYOffset <$> files w !! path.

Definition fatal_errors (w : World) : list Error :=
  omap (fun l => match l with ErrorCapturing e => Some e | _ => None end) (console w).

(** ** Notions the properties are stated with *)

(** What resolution with a parent selector promises about the list it
    returns from the base list [L] and the list [C] the expander returned: a
    list without repeats, made of the elements of [L] and of [C], each once,
    at its first occurrence in [L] followed by [C]. *)
Definition resolved (L C sels : list string) : Prop :=
  NoDup sels
  /\ (forall x, x ∈ L \/ x ∈ C -> count_occ string_dec sels x = 1)
  /\ (forall x, x ∈ sels -> x ∈ L \/ x ∈ C)
  /\ sels = JSSet.first_occurrences (L ++ C).


(** The element a selector finds on the page of a world. *)
Definition found {E : Env} (sel : string) (w : World) : option nat :=
  if css_valid sel then find_index (css_matches sel) (nodes (page w)) else None.

(** A computation that starts on no selector: it leaves [processed] as it
    found it. *)
Definition quiet {A} (m : M A) : Prop := forall w, processed (snd (m w)) = processed w.

(** ** A concrete setting

    A small static site, a CSS engine that knows an element by its authored
    selector or by its [data-screenshot] attribute, timers during which a
    smooth scroll reaches its target, and calls that succeed. *)

Module Demo.

Definition element (authored : string) (cs : list nat) (top h : float) : Node :=
  {| markup := authored; children := cs; data_screenshot := None;
     offsetTop := top; offsetHeight := h |}.

Definition matches (sel : string) (n : Node) : bool :=
  String.eqb sel (markup n)
  || match data_screenshot n with
     | Some v => String.eqb sel (locator v)
     | None => false
     end.

Definition settle (ms : float) (p : Page) : Error + Page :=
  inr {| nodes := nodes p;
         pageYOffset := default (pageYOffset p) (smoothTarget p);
         innerHeight := innerHeight p; scrollHeight := scrollHeight p;
         smoothTarget := None; ops := ops p |}.

Definition document (ns : list Node) (c : ContextOptions) : Page :=
  {| nodes := ns; pageYOffset := 0; innerHeight := height (viewport c);
     scrollHeight := 3000; smoothTarget := None; ops := [] |}.

Definition env (site : ContextOptions -> list Node) (cfg : string -> ConfigFile) : Env :=
  {| css_valid := fun sel => negb (String.eqb sel "");
     css_matches := matches;
     newContext_error := fun _ => None;
     goto := fun c _ => inr (document (site c) c);
     waitForTimeout := settle;
     screenshot_error := fun _ _ => None;
     mkdir_error := fun _ => None;
     path_join := fun dir name => (dir +:+ "/" +:+ name)%string;
     readConfig := cfg;
     Date_now := fun n => ("17000000000" +:+ decimal n)%string;
     Math_random_36 := fun n => ("k3f" +:+ decimal n)%string |}.

(** A page with a hero section under two names and a list of cards; the
    last card is left out of the mobile layout. *)
Definition site (c : ContextOptions) : list Node :=
  [ element "body" [1; 2; 3; 4] 0 3000;
    element ".present" [] 0 400;
    element ".hero" [] 400 600;
    element "#hero" [] 1000 600;
    element "#cards" (if ctx_isMobile c then [5] else [5; 6]) 1600 800;
    element ".card" [] 1600 400 ]
  ++ (if ctx_isMobile c then [] else [element ".card" [] 2000 400]).

Definition no_config (path : string) : ConfigFile :=
  Unreadable (External "ENOENT: no such file or directory").

Definition options (sels : list string) (parent : option string) (dev : DeviceChoice)
    (animate : bool) : Options :=
  {| url := "https://example.com"; selectors := Some sels; config := None;
     wait := 1000; animationTrigger := animate; output := "screenshots";
     navigationTimeoutText := "60000"; navigationTimeout := 60000;
     waitCondition := domcontentloaded;
     parentSelector := parent; device := dev |}.

Definition E : Env := env site no_config.

(** The world once a device pass has its page. *)
Definition loaded (d : DeviceType) (o : Options) : World :=
  snd ((@Browser.open_context E d ;;; @Browser.page_goto E d o) initial).

(** Options that name a config file. *)
Definition options_from_config (path : string) (parent : option string) : Options :=
  {| url := "https://example.com"; selectors := Some [".ignored"%string]; config := Some path;
     wait := 1000; animationTrigger := false; output := "screenshots";
     navigationTimeoutText := "60000"; navigationTimeout := 60000;
     waitCondition := domcontentloaded;
     parentSelector := parent; device := both |}.

(** The failure-isolation scenario of the specification. *)
Definition missing_present (dev : DeviceChoice) : Options :=
  options [".missing"; ".present"]%string None dev false.

(** A parent selector whose children differ between the two layouts. *)
Definition cards (dev : DeviceChoice) : Options :=
  options [".present"]%string (Some "#cards"%string) dev false.

Definition card (k : nat) : string := locator ("screenshot-target-" +:+ decimal k).

End Demo.

(** ** Notions the further properties are stated with *)

(** The characters a derived file name is made of before its suffix. *)
Definition filename_char (c : ascii) : bool :=
  JS.in_range "a" "z" c || JS.in_range "0" "9" c || JS.is_underscore c.

Definition not_underscore (c : ascii) : bool := negb (JS.is_underscore c).

(** The letters and digits of a selector, in order. *)
Definition alnums (selector : string) : JS.chars :=
  List.filter FilenameSpec.is_alnum (list_ascii_of_string selector).

(** Letters, digits and underscores: what is left after the second
    replacement. *)
Definition plain (c : ascii) : bool := FilenameSpec.is_alnum c || JS.is_underscore c.

(** The characters every file name for a device ends with. *)
Definition suffix (d : DeviceType) : JS.chars :=
  list_ascii_of_string ("__" +:+ device_name d +:+ ".png")%string.

(** The locator the expander gives the child of a given index, and the list
    for [n] children counted from [index]. *)
Definition token (index : nat) : string := ("screenshot-target-" +:+ decimal index)%string.

Definition target (index : nat) : string := locator (token index).

Definition targets (index n : nat) : list string := map target (seq index n).

(** A selector the rewriter would query the page for. *)
Definition authored (selector : string) : Prop :=
  String.prefix "[data-screenshot" selector = false.

(** The device passes a run started. *)
Definition device_lines (w : World) : list DeviceType :=
  omap (fun l => match l with ProcessingDevice d => Some d | _ => None end) (console w).

(** A computation that leaves an observation of the world as it found it. *)
Definition keeps {A X} (f : World -> X) (m : M A) : Prop :=
  forall w, f (snd (m w)) = f w.

(** The children of the element a parent selector finds on a page (none when
    it finds no element). *)
Definition children_of {E : Env} (parent : string) (p : Page) : list nat :=
  match find_index (css_matches parent) (nodes p) with
  | Some el => match nodes p !! el with Some n => children n | None => [] end
  | None => []
  end.

(** Observations that do not depend on the page, or on the draws of time and
    randomness. *)
Definition page_blind {X} (f : World -> X) : Prop :=
  forall w p, f (snd (set_page p w)) = f w.

Definition draw_blind {X} (f : World -> X) : Prop :=
  forall w, f (snd (draw w)) = f w.

(** What processing one selector can change: the files, the announced
    captures and the reported failures. *)
Definition outcome (w : World) : gmap string Page * list string * list (string * Error) :=
  (files w, saves w, selector_errors w).

(** A computation that either throws and leaves the outcome as it was, or
    returns having saved the page under [path] and announced it. *)
Definition captures {A} (path : string) (m : M A) : Prop :=
  forall w,
    match m w with
    | (inl _, w') => outcome w' = outcome w
    | (inr _, w') =>
        files w' = <[path := page w']> (files w)
        /\ saves w' = saves w ++ [path]
        /\ selector_errors w' = selector_errors w
    end.

(** The console lines a pass writes while it prepares. *)
Definition setup_line (l : Line) : Prop :=
  match l with
  | Navigating _ _ | PageLoaded | FindingChildren _ | FoundChildren _
  | ErrorReadingConfig _ => True
  | _ => False
  end.

(** What preparing a pass leaves alone: the selectors started on, the files,
    the outcome of the selectors, the fatal reports and the browser handle. *)
Definition progress (w : World) :=
  (processed w, outcome w, fatal_errors w, browserOpen w).

(** The selector list both files start from: the config file's when a config
    path is given, the command line's otherwise. *)
Definition base_selectors {E : Env} (o : Options) : list string :=
  match truthy (config o) with
  | Some path =>
      match readConfig path with
      | Parsed sels => default [] sels
      | _ => []
      end
  | None => default [] (selectors o)
  end.

(** What the selector loop leaves alone: the passes started, the fatal
    reports and the browser handle. *)
Definition frame (w : World) := (device_lines w, fatal_errors w, browserOpen w).

(** How many selectors a run has finished with, one way or the other. *)
Definition settled (w : World) : nat := length (saves w) + length (selector_errors w).

(** The collaborators let a pass for device [d] reach its selector loop: the
    context opens, navigation returns a page, the output directory is
    there. *)
Definition ready {E : Env} (o : Options) (d : DeviceType) : Prop :=
  newContext_error (contextOptions d) = None
  /\ (exists p, goto (contextOptions d) o = inr p)
  /\ mkdir_error (output o) = None.

(** One copy of the list for every device, in device order. *)
Definition per_device (ds : list DeviceType) (L : list string) : list string :=
  concat (map (fun _ => L) ds).

(** The path a pass saves the capture of a selector under. *)
Definition capture_path {E : Env} (o : Options) (d : DeviceType) (selector : string) : string :=
  path_join (output o) (generateFilename selector d).

(** ** Comparing the two files

    What of a console line both files agree on: the timeout of the
    navigation line is left out ([src/index.ts] prints the option as given,
    the class variant the parsed number), the payload of an error is left out
    ([src/index.ts] wraps the errors of the rewriter), and so are the lines
    only one of them writes or that they write a different number of
    times. *)
Definition visible (l : Line) : option Line :=
  match l with
  | Navigating u _ => Some (Navigating u (Text ""))
  | ErrorProcessingSelector s _ => Some (ErrorProcessingSelector s (External ""))
  | ErrorCapturing _ => Some (ErrorCapturing (External ""))
  | FoundChildren _ | ErrorReadingConfig _ => None
  | _ => Some l
  end.

Definition transcript (w : World) : list Line := omap visible (console w).

(** Worlds that show the same files, page and transcript, with the browser
    open. *)
Definition alike (w1 w2 : World) : Prop :=
  files w1 = files w2 /\ page w1 = page w2 /\ entropy w1 = entropy w2
  /\ transcript w1 = transcript w2
  /\ browserOpen w1 = true /\ browserOpen w2 = true.

Definition same_result {A B} (R : A -> B -> Prop) (r1 : Error + A) (r2 : Error + B) : Prop :=
  match r1, r2 with
  | inr a, inr b => R a b
  | inl _, inl _ => True
  | _, _ => False
  end.

(** Two computations that take alike worlds to alike worlds and both throw
    or both return, with related values. *)
Definition sim {A B} (R : A -> B -> Prop) (m1 : M A) (m2 : M B) : Prop :=
  forall w1 w2, alike w1 w2 ->
    same_result R (fst (m1 w1)) (fst (m2 w2)) /\ alike (snd (m1 w1)) (snd (m2 w2)).

(** A computation that does the same in alike worlds. *)
Definition state_only {A} (m : M A) : Prop := sim (@eq A) m m.

(** ** A setting with an outage

    The site of [Demo], except that navigation fails in the mobile context. *)

Module Outage.

Definition refused : Error := External "net::ERR_CONNECTION_REFUSED".

Definition E : Env :=
  {| css_valid := @css_valid Demo.E;
     css_matches := @css_matches Demo.E;
     newContext_error := @newContext_error Demo.E;
     goto := fun c o => if ctx_isMobile c then inl refused else @goto Demo.E c o;
     waitForTimeout := @waitForTimeout Demo.E;
     screenshot_error := @screenshot_error Demo.E;
     mkdir_error := @mkdir_error Demo.E;
     path_join := @path_join Demo.E;
     readConfig := @readConfig Demo.E;
     Date_now := @Date_now Demo.E;
     Math_random_36 := @Math_random_36 Demo.E |}.

End Outage.


(** * Properties *)

(** ** File names *)

Section Filename.
Import JS FilenameSpec.

Lemma class_az09_i_alnum c : class_az09_i c = is_alnum c.
Proof. destruct c as [[] [] [] [] [] [] [] []]; vm_compute; reflexivity. Qed.

Lemma lower_underscore c : is_underscore c = true -> lower c = c.
Proof. intros H. apply Ascii.eqb_eq in H. subst c. reflexivity. Qed.

(** Expressions that match one character at a time, wherever they are. *)
Lemma replace_hash_dot_from b s :
  replace_from re_hash_dot [] b 0 s = strip_hash_dot s.
Proof.
  revert b. induction s as [|c s IH]; intros b; [reflexivity|].
  simpl. destruct (Ascii.eqb c "#" || Ascii.eqb c "."); simpl; rewrite IH; reflexivity.
Qed.

Lemma replace_not_alnum_from b s :
  replace_from re_not_alnum ["_"%char] b 0 s = underscore_others s.
Proof.
  revert b. induction s as [|c s IH]; intros b; [reflexivity|].
  simpl. rewrite class_az09_i_alnum.
  destruct (is_alnum c); simpl; rewrite IH; reflexivity.
Qed.

(** Runs of underscores. *)
Lemma replace_underscores_skip b k s :
  k <= underscores s ->
  replace_from re_underscores ["_"%char] b k s
  = replace_from re_underscores ["_"%char] false 0 (drop k s).
Proof.
  revert b s. induction k as [|k IH]; intros b s Hk.
  - rewrite drop_0. destruct s as [|c s]; [reflexivity|]. reflexivity.
  - destruct s as [|c s]; [reflexivity|].
    simpl in Hk. destruct (is_underscore c); [|lia].
    simpl. apply IH. lia.
Qed.

Lemma collapse_run c s :
  is_underscore c = true ->
  collapse (c :: s) = c :: collapse (drop (underscores s) s).
Proof.
  intros Hc. revert c Hc. induction s as [|d s IH]; intros c Hc.
  - simpl. rewrite Hc. reflexivity.
  - change (collapse (c :: d :: s)) with
      (if is_underscore c
       then if is_underscore d then collapse (d :: s) else c :: collapse (d :: s)
       else c :: collapse (d :: s)).
    rewrite Hc.
    cbn [underscores]. destruct (is_underscore d) eqn:Hd.
    + rewrite (IH d Hd).
      assert (c = d) as ->; [|reflexivity].
      apply Ascii.eqb_eq in Hc, Hd. congruence.
    + rewrite drop_0. reflexivity.
Qed.

Lemma replace_underscores_from n :
  forall b s, length s <= n ->
  replace_from re_underscores ["_"%char] b 0 s = collapse s.
Proof.
  induction n as [|n IH]; intros b s Hn.
  - destruct s; [reflexivity | simpl in Hn; lia].
  - destruct s as [|c s]; [reflexivity|].
    cbn [replace_from]. unfold re_underscores. cbn [underscores].
    destruct (is_underscore c) eqn:Hc.
    + rewrite replace_underscores_skip by lia.
      rewrite IH by (rewrite length_drop; simpl in Hn; lia).
      rewrite (collapse_run c s Hc).
      apply Ascii.eqb_eq in Hc. subst c. reflexivity.
    + rewrite IH by (simpl in Hn; lia).
      simpl. rewrite Hc. reflexivity.
Qed.
Lemma replace_edge_from s :
  replace_from re_edge_underscore [] false 0 s = chop s.
Proof.
  induction s as [|c s IH]; [reflexivity|].
  cbn [replace_from re_edge_underscore chop].
  destruct (is_underscore c); [|rewrite IH; reflexivity].
  destruct s as [|d s]; [reflexivity|]. rewrite IH. reflexivity.
Qed.

Lemma replace_edge s :
  replace re_edge_underscore [] s
  = match s with
    | [] => []
    | c :: rest => if is_underscore c then chop rest else c :: chop rest
    end.
Proof.
  destruct s as [|c s]; [reflexivity|].
  unfold replace. cbn [replace_from re_edge_underscore].
  destruct (is_underscore c); cbn [app]; rewrite replace_edge_from; reflexivity.
Qed.

Lemma no_double_collapse s : no_double (collapse s).
Proof.
  induction s as [|c s IH]; [exact I|].
  cbn [collapse]. destruct (is_underscore c) eqn:Hc.
  - destruct s as [|d s]; [exact I|].
    destruct (is_underscore d) eqn:Hd; [exact IH|].
    cbn [no_double]. revert IH. cbn [collapse]. rewrite Hd.
    intros IH. split; [|exact IH]. intros [_ H]. congruence.
  - cbn [no_double]. destruct (collapse s) as [|d t] eqn:Ht; [exact I|].
    split; [|exact IH]. intros [H _]. congruence.
Qed.

Lemma no_double_tail c s : no_double (c :: s) -> no_double s.
Proof. destruct s; [intros; exact I|]. intros [_ H]. exact H. Qed.

Lemma no_double_last s d c :
  no_double (s ++ [d; c]) -> is_underscore c = true -> is_underscore d = false.
Proof.
  induction s as [|x s IH]; intros H Hc.
  - destruct H as [H _]. destruct (is_underscore d); [|reflexivity].
    exfalso. apply H. split; [reflexivity | exact Hc].
  - apply IH; [|exact Hc]. exact (no_double_tail _ _ H).
Qed.

Lemma strip_trailing_snoc s c :
  strip_trailing (s ++ [c])
  = if is_underscore c then strip_trailing s else s ++ [c].
Proof.
  unfold strip_trailing. rewrite rev_app_distr. cbn [rev app strip_leading].
  destruct (is_underscore c); [reflexivity|].
  cbn [rev]. rewrite rev_involutive. reflexivity.
Qed.

Lemma chop_snoc s c :
  chop (s ++ [c]) = if is_underscore c then s else s ++ [c].
Proof.
  induction s as [|x s IH].
  - simpl. destruct (is_underscore c); reflexivity.
  - cbn [app chop]. rewrite IH.
    destruct (s ++ [c]) as [|y t] eqn:Hs; [destruct s; discriminate|].
    destruct (is_underscore x), (is_underscore c); reflexivity.
Qed.

Lemma strip_trailing_chop s : no_double s -> strip_trailing s = chop s.
Proof.
  destruct s as [|c s _] using rev_ind; [reflexivity|].
  intros H. rewrite strip_trailing_snoc, chop_snoc.
  destruct (is_underscore c) eqn:Hc; [|reflexivity].
  destruct s as [|d s _] using rev_ind; [reflexivity|].
  rewrite strip_trailing_snoc.
  rewrite <- app_assoc in H. cbn [app] in H.
  rewrite (no_double_last _ _ _ H Hc). reflexivity.
Qed.

Lemma strip_leading_single s :
  no_double s ->
  strip_leading s
  = match s with
    | [] => []
    | c :: rest => if is_underscore c then rest else s
    end.
Proof.
  destruct s as [|c s]; [reflexivity|]. intros H.
  cbn [strip_leading]. destruct (is_underscore c) eqn:Hc; [|reflexivity].
  destruct s as [|d s]; [reflexivity|].
  destruct H as [H _]. cbn [strip_leading].
  destruct (is_underscore d); [|reflexivity].
  exfalso. apply H. split; [exact Hc | reflexivity].
Qed.

Lemma replace_edge_strips s :
  no_double s ->
  replace re_edge_underscore [] s = strip_trailing (strip_leading s).
Proof.
  intros H. rewrite replace_edge, (strip_leading_single s H).
  destruct s as [|c s]; [reflexivity|].
  destruct (is_underscore c) eqn:Hc.
  - symmetry. apply strip_trailing_chop. exact (no_double_tail _ _ H).
  - rewrite (strip_trailing_chop _ H). cbn [chop]. rewrite Hc. reflexivity.
Qed.

Lemma cleanSelector_clean selector : cleanSelector selector = clean selector.
Proof.
  unfold cleanSelector, clean, toLowerCase.
  replace (replace re_hash_dot [] (list_ascii_of_string selector))
    with (strip_hash_dot (list_ascii_of_string selector))
    by (symmetry; apply replace_hash_dot_from).
  replace (replace re_not_alnum ["_"%char] (strip_hash_dot (list_ascii_of_string selector)))
    with (underscore_others (strip_hash_dot (list_ascii_of_string selector)))
    by (symmetry; apply replace_not_alnum_from).
  replace (replace re_underscores ["_"%char]
             (underscore_others (strip_hash_dot (list_ascii_of_string selector))))
    with (collapse (underscore_others (strip_hash_dot (list_ascii_of_string selector))))
    by (symmetry; apply (replace_underscores_from _ _ _ (Nat.le_refl _))).
  rewrite replace_edge_strips by apply no_double_collapse.
  reflexivity.
Qed.
End Filename.

(** C3: the file name is a function of the selector string and the device name
    alone, and it is the one the specification describes: strip [#] and [.],
    replace every other character outside [[A-Za-z0-9]] by [_], collapse runs
    of [_], strip leading and trailing [_], lower-case, append
    [__<device>.png].  The two sample names come out as stated. *)
Theorem C3_generateFilename_as_specified :
  (forall selector device,
      generateFilename selector device = FilenameSpec.filename selector device)
  /\ generateFilename ".hero-banner" mobile = "hero_banner__mobile.png"%string
  /\ generateFilename "#main" desktop = "main__desktop.png"%string.
Proof.
  split; [|split; reflexivity].
  intros selector device. unfold generateFilename, FilenameSpec.filename.
  rewrite cleanSelector_clean. reflexivity.
Qed.

Example generateFilename_messy :
  generateFilename "__#Nav > li.Item:first-child__" desktop
  = "nav_liitem_first_child__desktop.png"%string.
Proof. reflexivity. Qed.

Example generateFilename_only_symbols :
  generateFilename "#.__.#" mobile = "__mobile.png"%string.
Proof. reflexivity. Qed.

(** C10: distinct selectors can share a file name, for every device
    ([.hero] and [#hero], [a b] and [a_b]); in a run that captures [.hero] and
    then [#hero] on one device both captures are saved under one path and the
    file holds the second one only. *)
Theorem C10_generateFilename_not_injective :
  ".hero"%string <> "#hero"%string
  /\ (forall d, generateFilename ".hero" d = generateFilename "#hero" d)
  /\ "a b"%string <> "a_b"%string
  /\ (forall d, generateFilename "a b" d = generateFilename "a_b" d)
  /\ (let run sels :=
        snd (@Refactored.start Demo.E (Demo.options sels None (only desktop) true) initial) in
      let path := "screenshots/hero__desktop.png"%string in
      saves (run [".hero"; "#hero"]%string) = [path; path]
      /\ saved (run [".hero"; "#hero"]%string) = [path]
      /\ shown (run [".hero"]%string) path = Some 152.5%float
      /\ shown (run [".hero"; "#hero"]%string) path = Some 752.5%float)
  /\ (let run sels :=
        snd (@Index.captureScreenshots Demo.E (Demo.options sels None (only desktop) true) initial) in
      let path := "screenshots/hero__desktop.png"%string in
      saves (run [".hero"; "#hero"]%string) = [path; path]
      /\ saved (run [".hero"; "#hero"]%string) = [path]
      /\ shown (run [".hero"]%string) path = Some 152.5%float
      /\ shown (run [".hero"; "#hero"]%string) path = Some 752.5%float).
Proof.
  split; [discriminate|].
  split; [intros []; reflexivity|].
  split; [discriminate|].
  split; [intros []; reflexivity|].
  split; vm_compute; repeat split; reflexivity.
Qed.

(** ** Sets *)

Section Sets.
Import JSSet.

Lemma filter_all (P : string -> Prop) `{!forall x, Decision (P x)} (l : list string) :
  (forall x, x ∈ l -> P x) -> filter P l = l.
Proof.
  induction l as [|x l IH]; intros Hall; [reflexivity|].
  rewrite filter_cons_True by (apply Hall; left).
  f_equal. apply IH. intros y Hy. apply Hall. right. exact Hy.
Qed.

Lemma elem_of_add s x y : y ∈ add s x <-> y ∈ s \/ y = x.
Proof.
  unfold add, has. case_bool_decide as Hx.
  - split; [auto|]. intros [H| ->]; assumption.
  - rewrite elem_of_app, list_elem_of_singleton. reflexivity.
Qed.


Lemma elem_of_fold_add xs s y : y ∈ fold_left add xs s <-> y ∈ s \/ y ∈ xs.
Proof.
  revert s. induction xs as [|x xs IH]; intros s; cbn [fold_left].
  - rewrite elem_of_nil. tauto.
  - rewrite IH, elem_of_add, elem_of_cons. tauto.
Qed.


Lemma fold_add_first_occurrences xs s :
  fold_left add xs s = s ++ filter (fun y => y ∉ s) (first_occurrences xs).
Proof.
  revert s. induction xs as [|x xs IH]; intros s; cbn [fold_left first_occurrences].
  - rewrite filter_nil, app_nil_r. reflexivity.
  - rewrite IH. unfold add, has. case_bool_decide as Hx.
    + rewrite filter_cons_False by (intros H; apply H, Hx).
      rewrite list_filter_filter. f_equal.
      apply list_filter_iff. intros y. split; [|tauto].
      intros Hy. split; [exact Hy|]. intros ->. contradiction.
    + rewrite filter_cons_True by exact Hx.
      rewrite <- app_assoc. cbn [app]. do 2 f_equal.
      rewrite list_filter_filter.
      apply list_filter_iff. intros y.
      rewrite elem_of_app, list_elem_of_singleton. tauto.
Qed.

Lemma of_iterable_first_occurrences xs :
  to_array (of_iterable xs) = first_occurrences xs.
Proof.
  unfold to_array, of_iterable. rewrite fold_add_first_occurrences. cbn [app].
  apply filter_all. intros y _. apply not_elem_of_nil.
Qed.


Lemma elem_of_of_iterable xs y : y ∈ to_array (of_iterable xs) <-> y ∈ xs.
Proof. unfold to_array, of_iterable. rewrite elem_of_fold_add, elem_of_nil. tauto. Qed.

Lemma first_occurrences_NoDup xs : NoDup xs -> first_occurrences xs = xs.
Proof.
  induction 1 as [|x xs Hx _ IH]; [reflexivity|].
  cbn [first_occurrences]. rewrite IH. f_equal.
  apply filter_all. intros y Hy ->. contradiction.
Qed.

End Sets.

(** ** Steps of a computation *)

Section Steps.
Context {E : Env}.

Lemma bind_inr {A B} (m : M A) (k : A -> M B) w a w' :
  m w = (inr a, w') -> bind m k w = k a w'.
Proof. intros H. unfold bind. rewrite H. reflexivity. Qed.

Lemma bind_inl {A B} (m : M A) (k : A -> M B) w e w' :
  m w = (inl e, w') -> bind m k w = (inl e, w').
Proof. intros H. unfold bind. rewrite H. reflexivity. Qed.



Lemma querySelector_valid sel w :
  css_valid sel = true ->
  exists w', Browser.querySelector sel w
             = (inr (find_index (css_matches sel) (nodes (page w))), w')
    /\ console w' = console w /\ nodes (page w') = nodes (page w).
Proof.
  intros Hv. unfold Browser.querySelector, bind, Browser.update_page, set_page, get, ret.
  rewrite Hv. cbn. eexists. split; [reflexivity|]. split; reflexivity.
Qed.


Lemma childSelectors_missing parent w :
  css_valid parent = true ->
  find_index (css_matches parent) (nodes (page w)) = None ->
  exists w', InPage.childSelectors parent w = (inr [], w')
    /\ console w' = console w /\ nodes (page w') = nodes (page w).
Proof.
  intros Hv Hnone. unfold InPage.childSelectors.
  destruct (querySelector_valid parent w Hv) as (w1 & H1 & Hc1 & Hn1).
  rewrite (bind_inr _ _ _ _ _ H1).
  rewrite Hnone. exists w1. split; [reflexivity | split; assumption].
Qed.
End Steps.

(** ** Selector resolution *)

Section Resolution.
Context {E : Env}.

Lemma bind_inv {A B} (m : M A) (k : A -> M B) w b w' :
  bind m k w = (inr b, w') ->
  exists a w1, m w = (inr a, w1) /\ k a w1 = (inr b, w').
Proof.
  unfold bind. destruct (m w) as [[e|a] w1]; [discriminate|].
  intros H. exists a, w1. split; [reflexivity | exact H].
Qed.


Lemma load_returns o w :
  exists L w0, Refactored.loadSelectorsFromConfig o w = (inr L, w0) /\ page w0 = page w.
Proof.
  unfold Refactored.loadSelectorsFromConfig.
  destruct (truthy (config o)) as [path|]; [|eexists _, _; split; reflexivity].
  destruct (readConfig path); eexists _, _; split; reflexivity.
Qed.


End Resolution.

(** ** A parent that is not on the page *)

Section Missing.
Context {E : Env}.

Lemma withChildren_missing o parent L w :
  truthy (parentSelector o) = Some parent ->
  css_valid parent = true ->
  find_index (css_matches parent) (nodes (page w)) = None ->
  exists w',
    Index.withChildren o L w = (inr (JSSet.first_occurrences L), w')
    /\ console w' = console w ++ [FindingChildren parent; FoundChildren 0]
    /\ nodes (page w') = nodes (page w).
Proof.
  intros Hp Hv Hnone. unfold Index.withChildren. rewrite Hp.
  rewrite (bind_inr (console_log _) _ _ tt _ eq_refl).
  match goal with |- context [bind (InPage.childSelectors parent) _ ?w1] =>
    destruct (childSelectors_missing parent w1 Hv Hnone) as (w2 & HC & Hc & Hn) end.
  rewrite (bind_inr _ _ _ _ _ HC).
  rewrite (bind_inr (console_log _) _ _ tt _ eq_refl).
  unfold ret. rewrite app_nil_r, of_iterable_first_occurrences.
  eexists. split; [reflexivity|]. cbn. rewrite Hc, Hn. cbn.
  rewrite <- app_assoc. split; reflexivity.
Qed.

Lemma getSelectors_missing o parent L w0 w :
  truthy (parentSelector o) = Some parent ->
  css_valid parent = true ->
  find_index (css_matches parent) (nodes (page w)) = None ->
  Refactored.loadSelectorsFromConfig o w0 = (inr L, w) ->
  exists w',
    Refactored.getSelectors o w0 = (inr (JSSet.first_occurrences L), w')
    /\ console w' = console w ++ [FindingChildren parent]
    /\ nodes (page w') = nodes (page w).
Proof.
  intros Hp Hv Hnone HL. unfold Refactored.getSelectors, Refactored.getChildSelectors.
  rewrite (bind_inr _ _ _ _ _ HL). rewrite Hp.
  assert (exists w2,
    (console_log (FindingChildren parent) ;;; InPage.childSelectors parent) w = (inr [], w2)
    /\ console w2 = console w ++ [FindingChildren parent]
    /\ nodes (page w2) = nodes (page w)) as (w2 & HC & Hc & Hn).
  { rewrite (bind_inr (console_log _) _ _ tt _ eq_refl).
    match goal with |- context [InPage.childSelectors parent ?w1] =>
      destruct (childSelectors_missing parent w1 Hv Hnone) as (w2 & HC & Hc & Hn) end.
    exists w2. split; [exact HC|]. split; [exact Hc | exact Hn]. }
  rewrite (bind_inr _ _ _ _ _ HC).
  unfold ret. rewrite app_nil_r, of_iterable_first_occurrences.
  exists w2. split; [reflexivity|]. split; assumption.
Qed.
End Missing.

(** C5 (as amended): when the parent selector matches no element, resolution
    returns the base list with every string kept at its first occurrence,
    later repeats dropped; it is the base list itself when that has no
    repeats.  Nothing is thrown, no error is written to the console and the
    page keeps its nodes. *)
Theorem C5_missing_parent_adds_nothing {E : Env} (o : Options) (parent : string)
    (L : list string) (w : World) :
  truthy (parentSelector o) = Some parent ->
  css_valid parent = true ->
  find_index (css_matches parent) (nodes (page w)) = None ->
  (exists w',
      Index.withChildren o L w = (inr (JSSet.first_occurrences L), w')
      /\ console w' = console w ++ [FindingChildren parent; FoundChildren 0]
      /\ nodes (page w') = nodes (page w))
  /\ (forall w0,
        Refactored.loadSelectorsFromConfig o w0 = (inr L, w) ->
        exists w',
          Refactored.getSelectors o w0 = (inr (JSSet.first_occurrences L), w')
          /\ console w' = console w ++ [FindingChildren parent]
          /\ nodes (page w') = nodes (page w))
  /\ (NoDup L -> JSSet.first_occurrences L = L)
  /\ (forall x, x ∈ JSSet.first_occurrences L <-> x ∈ L).
Proof.
  intros Hp Hv Hnone.
  split; [exact (withChildren_missing o parent L w Hp Hv Hnone)|].
  split; [intros w0; exact (getSelectors_missing o parent L w0 w Hp Hv Hnone)|].
  split; [exact (first_occurrences_NoDup L)|].
  intros x. rewrite <- of_iterable_first_occurrences. apply elem_of_of_iterable.
Qed.

(** The theorem at a page without [#nope]. *)
Lemma C5_missing_parent_witness :
  let o := Demo.options [".hero"; ".present"]%string (Some "#nope"%string) (only desktop) false in
  let w := Demo.loaded desktop o in
  (truthy (parentSelector o) = Some "#nope"%string
   /\ @css_valid Demo.E "#nope" = true
   /\ find_index (@css_matches Demo.E "#nope") (nodes (page w)) = None)
  /\ exists w',
      @Index.withChildren Demo.E o [".hero"; ".present"]%string w
      = (inr (JSSet.first_occurrences [".hero"; ".present"]%string), w')
      /\ console w' = console w ++ [FindingChildren "#nope"; FoundChildren 0]
      /\ nodes (page w') = nodes (page w).
Proof.
  cbv zeta. split; [repeat split|].
  exact (proj1 (@C5_missing_parent_adds_nothing Demo.E
                  (Demo.options [".hero"; ".present"]%string (Some "#nope"%string)
                     (only desktop) false)
                  "#nope"%string [".hero"; ".present"]%string
                  (Demo.loaded desktop
                     (Demo.options [".hero"; ".present"]%string (Some "#nope"%string)
                        (only desktop) false))
                  eq_refl eq_refl eq_refl)).
Defined.

(** A base list with a repeat does not come back unchanged. *)
Lemma C5_duplicates_of_base_dropped :
  let base := [".present"; ".present"]%string in
  let o := Demo.options base (Some "#nope"%string) (only desktop) false in
  let w := Demo.loaded desktop o in
  find_index (@css_matches Demo.E "#nope") (nodes (page w)) = None
  /\ fst (@Refactored.getSelectors Demo.E o w) = inr [".present"]%string
  /\ fst (@Index.withChildren Demo.E o base w) = inr [".present"]%string
  /\ [".present"]%string <> base.
Proof. cbv zeta. repeat split; try (vm_compute; reflexivity). discriminate. Qed.

(** ** The rewriter and the config file *)

Section Rewriter.
Context {E : Env}.

Lemma locator_synthetic token : String.prefix "[data-screenshot" (locator token) = true.
Proof. reflexivity. Qed.

Lemma tag_element_synthetic sel w s' w' :
  InPage.tag_element sel w = (inr s', w') -> String.prefix "[data-screenshot" s' = true.
Proof.
  unfold InPage.tag_element. intros H.
  apply bind_inv in H as (element & w1 & _ & H).
  destruct element as [el|]; [|discriminate].
  apply bind_inv in H as (n & w2 & _ & H).
  apply bind_inv in H as (_ & w3 & _ & H).
  unfold ret in H. injection H as <- _. apply locator_synthetic.
Qed.

Lemma makeSelectorSafe_synthetic sel w s' w' :
  Refactored.makeSelectorSafe sel w = (inr s', w') ->
  String.prefix "[data-screenshot" s' = true.
Proof.
  unfold Refactored.makeSelectorSafe.
  destruct (String.prefix "[data-screenshot" sel) eqn:Hp.
  - unfold ret. intros H. injection H as <- _. exact Hp.
  - apply tag_element_synthetic.
Qed.

Lemma safeSelector_synthetic sel w s' w' :
  Index.safeSelector sel w = (inr s', w') ->
  String.prefix "[data-screenshot" s' = true.
Proof.
  unfold Index.safeSelector, try_catch.
  destruct (String.prefix "[data-screenshot" sel) eqn:Hp.
  - unfold ret. intros H. injection H as <- _. exact Hp.
  - destruct (InPage.tag_element sel w) as [[e|s] w1] eqn:Ht; [discriminate|].
    intros H. injection H as <- <-. exact (tag_element_synthetic _ _ _ _ Ht).
Qed.
End Rewriter.

Lemma rewriter_pass_through {E : Env} (selector : string) (w : World) :
  String.prefix "[data-screenshot" selector = true ->
  Refactored.makeSelectorSafe selector w = (inr selector, w)
  /\ Index.safeSelector selector w = (inr selector, w).
Proof.
  intros Hp. unfold Refactored.makeSelectorSafe, Index.safeSelector, try_catch.
  rewrite Hp. split; reflexivity.
Qed.

(** What the rewriter returns is a synthetic locator, so a second pass
    through it changes nothing. *)
Lemma rewriter_idempotent {E : Env} sel w s' w' :
  (Refactored.makeSelectorSafe sel w = (inr s', w') ->
   Refactored.makeSelectorSafe s' w' = (inr s', w'))
  /\ (Index.safeSelector sel w = (inr s', w') ->
      Index.safeSelector s' w' = (inr s', w')).
Proof.
  split; intros H.
  - apply rewriter_pass_through. exact (makeSelectorSafe_synthetic _ _ _ _ H).
  - apply rewriter_pass_through. exact (safeSelector_synthetic _ _ _ _ H).
Qed.

(** C6: a selector that starts with [[data-screenshot] goes through the
    rewriter unchanged, in both files, and the world is left as it was: the
    page has the same nodes and the same record of DOM calls, so no query and
    no mutation took place. *)
Theorem C6_rewriter_passes_synthetic_locators {E : Env} (selector : string) (w : World) :
  String.prefix "[data-screenshot" selector = true ->
  Refactored.makeSelectorSafe selector w = (inr selector, w)
  /\ Index.safeSelector selector w = (inr selector, w).
Proof. exact (rewriter_pass_through selector w). Qed.

(** The theorem at the locator of the specification's example. *)
Lemma C6_rewriter_witness :
  String.prefix "[data-screenshot" (locator "x") = true
  /\ @Refactored.makeSelectorSafe Demo.E (locator "x") initial = (inr (locator "x"), initial)
  /\ @Index.safeSelector Demo.E (locator "x") initial = (inr (locator "x"), initial).
Proof.
  split; [reflexivity|].
  exact (@C6_rewriter_passes_synthetic_locators Demo.E (locator "x") initial eq_refl).
Defined.

(** C7: when a config path is given and the file cannot be read or parsed,
    both files write the error to the console and return the empty list, and
    the run goes on from it: [src/index.ts] enters its device passes with no
    selectors, [SelectorManager.getSelectors] returns the children of the
    parent selector alone. *)
Theorem C7_config_read_error_recovered {E : Env} (o : Options) (path : string)
    (e : Error) (w : World) :
  truthy (config o) = Some path ->
  config_error (readConfig path) = Some e ->
  let w1 := snd (console_error (ErrorReadingConfig e) w) in
  console w1 = console w ++ [ErrorReadingConfig e]
  /\ Index.getSelectors o w = (inr [], w1)
  /\ Refactored.loadSelectorsFromConfig o w = (inr [], w1)
  /\ (forall ds,
        (selectors <- Index.getSelectors o ;; Index.devicePasses o ds selectors) w
        = Index.devicePasses o ds [] w1)
  /\ Refactored.getSelectors o w
     = match truthy (parentSelector o) with
       | Some _ =>
           (childSelectors <- Refactored.getChildSelectors o ;;
            ret (JSSet.to_array (JSSet.of_iterable childSelectors))) w1
       | None => (inr [], w1)
       end.
Proof.
  intros Hpath Herr. cbv zeta.
  assert (Index.getSelectors o w = (inr [], snd (console_error (ErrorReadingConfig e) w))) as HI.
  { unfold Index.getSelectors. rewrite Hpath.
    destruct (readConfig path); try discriminate; injection Herr as ->; reflexivity. }
  assert (Refactored.loadSelectorsFromConfig o w
          = (inr [], snd (console_error (ErrorReadingConfig e) w))) as HR.
  { unfold Refactored.loadSelectorsFromConfig. rewrite Hpath.
    destruct (readConfig path); try discriminate; injection Herr as ->; reflexivity. }
  split; [reflexivity|]. split; [exact HI|]. split; [exact HR|]. split.
  - intros ds. rewrite (bind_inr _ _ _ _ _ HI). reflexivity.
  - unfold Refactored.getSelectors. rewrite (bind_inr _ _ _ _ _ HR).
    destruct (truthy (parentSelector o)); reflexivity.
Qed.

(** The theorem at a config file that does not exist. *)
Lemma C7_config_read_error_witness :
  let o := Demo.options_from_config "missing.json" None in
  (truthy (config o) = Some "missing.json"%string
   /\ config_error (@readConfig Demo.E "missing.json") = Some (External "ENOENT: no such file or directory"))
  /\ fst (@Index.getSelectors Demo.E o initial) = inr []
  /\ fst (@Refactored.loadSelectorsFromConfig Demo.E o initial) = inr [].
Proof.
  cbv zeta. split; [split; reflexivity|].
  pose proof (@C7_config_read_error_recovered Demo.E
                (Demo.options_from_config "missing.json" None) "missing.json"%string
                (External "ENOENT: no such file or directory") initial eq_refl eq_refl)
    as (_ & HI & HR & _).
  rewrite HI, HR. split; reflexivity.
Defined.

(** ** Scroll offsets *)

Section Numbers.
Local Open Scope float_scope.

Lemma positive_not_negative x : (0 <? x) = true -> (x <? 0) = false.
Proof.
  rewrite !ltb_spec. change (Prim2SF 0) with (S754_zero false).
  destruct (Prim2SF x) as [s|s| |s m e]; try destruct s; cbn; congruence.
Qed.

Lemma positive_at_least_zero x : (0 <? x) = true -> (0 <=? x) = true.
Proof.
  rewrite ltb_spec, leb_spec. change (Prim2SF 0) with (S754_zero false).
  destruct (Prim2SF x) as [s|s| |s m e]; try destruct s; cbn; congruence.
Qed.

Lemma max_zero_cases x :
  JSMath.max 0 x = nan /\ is_nan x = true
  \/ JSMath.max 0 x = x /\ (0 <? x) = true
  \/ JSMath.max 0 x = 0 /\ is_nan x = false.
Proof.
  unfold JSMath.max. change (is_nan 0) with false. cbn [orb].
  destruct (is_nan x); [left; split; reflexivity|].
  destruct (0 <? x); [right; left; split; reflexivity|].
  right; right. split; [|reflexivity].
  destruct (x <? 0); reflexivity.
Qed.

Lemma max_zero_not_negative x : (JSMath.max 0 x <? 0) = false.
Proof.
  destruct (max_zero_cases x) as [[-> _]|[[-> H]|[-> _]]].
  - reflexivity.
  - exact (positive_not_negative x H).
  - reflexivity.
Qed.

Lemma max_zero_at_least_zero x : is_nan x = false -> (0 <=? JSMath.max 0 x) = true.
Proof.
  intros Hx. destruct (max_zero_cases x) as [[_ H]|[[-> H]|[-> _]]].
  - congruence.
  - exact (positive_at_least_zero x H).
  - reflexivity.
Qed.

Lemma maxScroll_not_negative p : (Browser.maxScroll p <? 0) = false.
Proof.
  unfold Browser.maxScroll.
  destruct (scrollHeight p - innerHeight p <? 0) eqn:Hm; [reflexivity | exact Hm].
Qed.

Lemma clampScroll_not_negative p y : (Browser.clampScroll p y <? 0) = false.
Proof.
  unfold Browser.clampScroll.
  destruct (y <? 0) eqn:Hy; [reflexivity|].
  destruct (Browser.maxScroll p <? y); [apply maxScroll_not_negative | exact Hy].
Qed.
End Numbers.

(** ** The centering heuristic *)

Section Centering.
Context {E : Env}.
Local Open Scope float_scope.

Ltac run_calls :=
  unfold Browser.querySelector, Browser.getBoundingClientRect, Browser.scrollBy,
    Browser.scrollTo, Browser.update_page, bind, set_page, get, ret, throw, found;
  cbn.

Lemma adjustPosition_page sel w :
  page (snd (InPage.adjustPosition sel w))
  = match found sel w with
    | Some el =>
        let read := Browser.with_op (GetBoundingClientRect el)
                      (Browser.with_op (QuerySelector sel) (page w)) in
        match InPage.adjustment (Browser.client_rect (page w) el) (innerHeight (page w)) with
        | Some a =>
            Browser.with_op (ScrollBy a)
              {| nodes := nodes read;
                 pageYOffset := Browser.clampScroll read (pageYOffset read + Browser.normalize a);
                 innerHeight := innerHeight read; scrollHeight := scrollHeight read;
                 smoothTarget := None; ops := ops read |}
        | None => read
        end
    | None => Browser.with_op (QuerySelector sel) (page w)
    end.
Proof.
  unfold InPage.adjustPosition. run_calls.
  destruct (css_valid sel); [|reflexivity]. cbn.
  destruct (find_index (css_matches sel) (nodes (page w))) as [el|]; [|reflexivity]. cbn.
  unfold Browser.client_rect. cbn.
  destruct (InPage.adjustment _ _); reflexivity.
Qed.

Lemma centerElement_page sel w :
  page (snd (InPage.centerElement sel w))
  = match found sel w with
    | Some el =>
        let read := Browser.with_op (GetBoundingClientRect el)
                      (Browser.with_op (QuerySelector sel) (page w)) in
        let target := InPage.targetScrollY (pageYOffset (page w))
                        (Browser.client_rect (page w) el) (innerHeight (page w)) in
        Browser.with_op (ScrollTo target)
          {| nodes := nodes read; pageYOffset := pageYOffset read;
             innerHeight := innerHeight read; scrollHeight := scrollHeight read;
             smoothTarget := Some (Browser.clampScroll read (Browser.normalize target));
             ops := ops read |}
    | None => Browser.with_op (QuerySelector sel) (page w)
    end.
Proof.
  unfold InPage.centerElement. run_calls.
  destruct (css_valid sel); [|reflexivity]. cbn.
  destruct (find_index (css_matches sel) (nodes (page w))) as [el|]; reflexivity.
Qed.

Lemma scrolls_with_op o p :
  scrolls (Browser.with_op o p) = scrolls p ++ (if is_scroll o then [o] else []).
Proof. unfold scrolls, Browser.with_op. cbn. rewrite List.filter_app. reflexivity. Qed.

Lemma adjustPosition_scrolls sel w :
  scrolls (page (snd (InPage.adjustPosition sel w)))
  = scrolls (page w)
    ++ match found sel w with
       | Some el =>
           match InPage.adjustment (Browser.client_rect (page w) el) (innerHeight (page w)) with
           | Some a => [ScrollBy a]
           | None => []
           end
       | None => []
       end.
Proof.
  rewrite adjustPosition_page.
  destruct (found sel w) as [el|]; cbv zeta.
  - destruct (InPage.adjustment _ _) as [a|].
    + rewrite scrolls_with_op. cbn [is_scroll]. f_equal.
      change (scrolls (Browser.with_op (GetBoundingClientRect el)
                (Browser.with_op (QuerySelector sel) (page w))) = scrolls (page w)).
      rewrite !scrolls_with_op. cbn. rewrite !app_nil_r. reflexivity.
    + rewrite !scrolls_with_op. cbn. rewrite !app_nil_r. reflexivity.
  - rewrite scrolls_with_op. cbn. reflexivity.
Qed.

Lemma centerElement_scrolls sel w :
  scrolls (page (snd (InPage.centerElement sel w)))
  = scrolls (page w)
    ++ match found sel w with
       | Some el =>
           [ScrollTo (InPage.targetScrollY (pageYOffset (page w))
                        (Browser.client_rect (page w) el) (innerHeight (page w)))]
       | None => []
       end.
Proof.
  rewrite centerElement_page.
  destruct (found sel w) as [el|]; cbv zeta.
  - rewrite scrolls_with_op. cbn [is_scroll]. f_equal.
    change (scrolls (Browser.with_op (GetBoundingClientRect el)
              (Browser.with_op (QuerySelector sel) (page w))) = scrolls (page w)).
    rewrite !scrolls_with_op. cbn. rewrite !app_nil_r. reflexivity.
  - rewrite scrolls_with_op. cbn. rewrite app_nil_r. reflexivity.
Qed.

Lemma adjustPosition_offset sel w :
  let w' := snd (InPage.adjustPosition sel w) in
  pageYOffset (page w') = pageYOffset (page w)
  \/ (pageYOffset (page w') <? 0) = false.
Proof.
  cbv zeta. rewrite adjustPosition_page.
  destruct (found sel w) as [el|]; cbv zeta; [|left; reflexivity].
  destruct (InPage.adjustment _ _) as [a|]; [|left; reflexivity].
  right. cbn. apply clampScroll_not_negative.
Qed.

Lemma centerElement_target sel w t :
  smoothTarget (page (snd (InPage.centerElement sel w))) = Some t ->
  smoothTarget (page w) = Some t \/ (t <? 0) = false.
Proof.
  rewrite centerElement_page.
  destruct (found sel w) as [el|]; cbv zeta; cbn; [|left; assumption].
  intros H. injection H as <-. right. apply clampScroll_not_negative.
Qed.
End Centering.

(** ** Failure isolation *)

Create HintDb quiet.

Section Isolation.
Context {E : Env}.

Lemma quiet_ret {A} (a : A) : quiet (ret a).
Proof. intros w. reflexivity. Qed.

Lemma quiet_throw {A} e : quiet (@throw A e).
Proof. intros w. reflexivity. Qed.

Lemma quiet_get {A} (f : World -> A) : quiet (get f).
Proof. intros w. reflexivity. Qed.

Lemma quiet_bind {A B} (m : M A) (k : A -> M B) :
  quiet m -> (forall a, quiet (k a)) -> quiet (bind m k).
Proof.
  intros Hm Hk w. unfold bind. specialize (Hm w).
  destruct (m w) as [[e|a] w1]; cbn in *; [exact Hm|].
  rewrite (Hk a w1). exact Hm.
Qed.

Lemma quiet_try_catch {A} (m : M A) h :
  quiet m -> (forall e, quiet (h e)) -> quiet (try_catch m h).
Proof.
  intros Hm Hh w. unfold try_catch. specialize (Hm w).
  destruct (m w) as [[e|a] w1]; cbn in *; [|exact Hm].
  rewrite (Hh e w1). exact Hm.
Qed.

Lemma quiet_set_page p : quiet (set_page p).
Proof. intros w. reflexivity. Qed.

Lemma quiet_update_page f : quiet (Browser.update_page f).
Proof. intros w. reflexivity. Qed.

Lemma quiet_write_file path image : quiet (write_file path image).
Proof. intros w. reflexivity. Qed.

Lemma quiet_draw : quiet draw.
Proof. intros w. reflexivity. Qed.

Lemma quiet_log l :
  match l with ProcessingSelector _ => False | _ => True end -> quiet (console_log l).
Proof.
  intros Hl w. unfold processed, console_log. cbn.
  rewrite omap_app. destruct l; try contradiction; cbn; apply app_nil_r.
Qed.

Lemma quiet_waitForTimeout ms : quiet (Browser.page_waitForTimeout ms).
Proof.
  intros w. unfold Browser.page_waitForTimeout.
  destruct (waitForTimeout ms (page w)); reflexivity.
Qed.

Lemma quiet_screenshot path : quiet (Browser.page_screenshot path).
Proof.
  intros w. unfold Browser.page_screenshot.
  destruct (screenshot_error path (page w)); reflexivity.
Qed.

#[local] Hint Resolve quiet_ret quiet_throw quiet_get quiet_set_page quiet_update_page
  quiet_write_file quiet_draw quiet_waitForTimeout quiet_screenshot : quiet.

Ltac quiet_steps :=
  repeat first
    [ apply quiet_bind; [|intros ?]
    | apply quiet_try_catch; [|intros ?]
    | apply quiet_log; exact I
    | solve [auto with quiet]
    | match goal with |- quiet (if ?b then _ else _) => destruct b end
    | match goal with |- quiet (match ?x with _ => _ end) => destruct x end ].

Lemma quiet_querySelector sel : quiet (Browser.querySelector sel).
Proof. unfold Browser.querySelector. quiet_steps. Qed.

Lemma quiet_getBoundingClientRect el : quiet (Browser.getBoundingClientRect el).
Proof. unfold Browser.getBoundingClientRect. quiet_steps. Qed.

#[local] Hint Resolve quiet_querySelector quiet_getBoundingClientRect : quiet.

Lemma quiet_tag_element sel : quiet (InPage.tag_element sel).
Proof.
  unfold InPage.tag_element, Browser.setAttribute. quiet_steps.
Qed.

Lemma quiet_centerElement sel : quiet (InPage.centerElement sel).
Proof. unfold InPage.centerElement, Browser.scrollTo. quiet_steps. Qed.

Lemma quiet_adjustPosition sel : quiet (InPage.adjustPosition sel).
Proof. unfold InPage.adjustPosition, Browser.scrollBy. quiet_steps. Qed.

#[local] Hint Resolve quiet_tag_element quiet_centerElement quiet_adjustPosition : quiet.

Lemma quiet_triggerAnimation sel : quiet (InPage.triggerAnimation sel).
Proof. unfold InPage.triggerAnimation. quiet_steps. Qed.

#[local] Hint Resolve quiet_triggerAnimation : quiet.

(** A body whose errors are caught and reported returns normally. *)
Lemma try_catch_reported (m : M unit) (report : Error -> Line) w :
  fst (try_catch m (fun e => console_error (report e)) w) = inr tt.
Proof.
  unfold try_catch. destruct (m w) as [[e|[]] w1]; reflexivity.
Qed.

Lemma index_processSelector_returns o d sel w :
  fst (Index.processSelector o d sel w) = inr tt.
Proof.
  unfold Index.processSelector, Index.attempt.
  rewrite (bind_inr (console_log _) _ _ tt _ eq_refl).
  apply try_catch_reported.
Qed.

Lemma refactored_processSelector_returns o sel d w :
  fst (Refactored.processSelector o sel d w) = inr tt.
Proof.
  unfold Refactored.processSelector, Refactored.attempt.
  rewrite (bind_inr (console_log _) _ _ tt _ eq_refl).
  apply try_catch_reported.
Qed.

Lemma processed_log_selector sel w :
  processed (snd (console_log (ProcessingSelector sel) w)) = processed w ++ [sel].
Proof. unfold processed, console_log. cbn. rewrite omap_app. reflexivity. Qed.

Lemma index_processSelector_processed o d sel w :
  processed (snd (Index.processSelector o d sel w)) = processed w ++ [sel].
Proof.
  unfold Index.processSelector, Index.attempt.
  rewrite (bind_inr (console_log _) _ _ tt _ eq_refl).
  rewrite <- processed_log_selector.
  match goal with |- processed (snd (?m _)) = _ => assert (quiet m) as Hq end;
    [|apply Hq].
  unfold Index.safeSelector, Index.triggerAnimation. quiet_steps.
Qed.

Lemma refactored_processSelector_processed o sel d w :
  processed (snd (Refactored.processSelector o sel d w)) = processed w ++ [sel].
Proof.
  unfold Refactored.processSelector, Refactored.attempt.
  rewrite (bind_inr (console_log _) _ _ tt _ eq_refl).
  rewrite <- processed_log_selector.
  match goal with |- processed (snd (?m _)) = _ => assert (quiet m) as Hq end;
    [|apply Hq].
  unfold Refactored.makeSelectorSafe, Refactored.triggerAnimation,
    Refactored.centerElement, Refactored.adjustPosition. quiet_steps.
Qed.

(** A loop whose body returns normally goes through the whole list. *)
Lemma for_of_total {A} (body : A -> M unit) (seen : A -> string) xs :
  (forall x w, fst (body x w) = inr tt) ->
  (forall x w, processed (snd (body x w)) = processed w ++ [seen x]) ->
  forall w,
    fst (for_of xs body w) = inr tt
    /\ processed (snd (for_of xs body w)) = processed w ++ map seen xs.
Proof.
  intros Hret Hseen. induction xs as [|x xs IH]; intros w.
  - cbn. rewrite app_nil_r. split; reflexivity.
  - cbn [for_of]. unfold bind. specialize (Hret x w). specialize (Hseen x w).
    destruct (body x w) as [[e|[]] w1]; cbn in Hret, Hseen; [discriminate|].
    destruct (IH w1) as [H1 H2]. split; [exact H1|].
    rewrite H2, Hseen. cbn [map]. rewrite <- app_assoc. reflexivity.
Qed.

Lemma for_of_next {A} (body : A -> M unit) x xs w :
  (forall x w, fst (body x w) = inr tt) ->
  for_of (x :: xs) body w = for_of xs body (snd (body x w)).
Proof.
  intros Hret. cbn [for_of]. unfold bind. specialize (Hret x w).
  destruct (body x w) as [[e|[]] w1]; cbn in Hret; [discriminate|reflexivity].
Qed.
End Isolation.

(** ** Device passes *)

Section Passes.
Context {E : Env}.

Lemma index_loop o d sels w :
  fst (for_of sels (Index.processSelector o d) w) = inr tt
  /\ processed (snd (for_of sels (Index.processSelector o d) w)) = processed w ++ sels.
Proof.
  destruct (for_of_total (Index.processSelector o d) id sels
              (index_processSelector_returns o d)
              (index_processSelector_processed o d) w) as [H1 H2].
  rewrite map_id in H2. split; assumption.
Qed.

Lemma refactored_loop o d sels w :
  let body := fun selector => Refactored.processSelector o selector d in
  fst (for_of sels body w) = inr tt
  /\ processed (snd (for_of sels body w)) = processed w ++ sels.
Proof.
  cbv zeta.
  destruct (for_of_total (fun selector => Refactored.processSelector o selector d) id sels
              (fun sel w => refactored_processSelector_returns o sel d w)
              (fun sel w => refactored_processSelector_processed o sel d w) w) as [H1 H2].
  rewrite map_id in H2. split; assumption.
Qed.

Lemma index_pass_outcome o d sels w :
  fst (Index.devicePass o sels d w)
  = match fst (Index.prepare o d sels w) with
    | inl e => inl e
    | inr resolved => inr resolved
    end.
Proof.
  unfold Index.devicePass, bind at 1.
  destruct (Index.prepare o d sels w) as [[e|resolved] w1]; [reflexivity|].
  cbn [fst]. unfold bind at 1.
  pose proof (proj1 (index_loop o d resolved w1)) as Hloop.
  destruct (for_of resolved (Index.processSelector o d) w1) as [[e|[]] w2];
    [discriminate|reflexivity].
Qed.


(** The page of a pass is the one navigation yields in a fresh context,
    whatever earlier passes did to theirs. *)
Lemma page_goto_fresh o d w w' p :
  goto (contextOptions d) o = inr p ->
  page (snd (Browser.page_goto d o w)) = p
  /\ page (snd (Browser.page_goto d o w')) = p.
Proof. intros H. unfold Browser.page_goto. rewrite H. split; reflexivity. Qed.

(** The list [SelectorManager] starts from does not depend on what went
    before. *)
Lemma load_fixed o w w' :
  fst (Refactored.loadSelectorsFromConfig o w) = fst (Refactored.loadSelectorsFromConfig o w').
Proof.
  unfold Refactored.loadSelectorsFromConfig.
  destruct (truthy (config o)) as [path|]; [|reflexivity].
  destruct (readConfig path); reflexivity.
Qed.
End Passes.

(** C4: in [src/index.ts] a device pass starts from the list the pass before
    it resolved.  After the desktop pass found two cards, the mobile pass goes
    on with both locators although its page has one card; started from the
    original list it would resolve one.  The class variant resolves from the
    original list in every pass. *)
Theorem C4_index_pass_starts_from_previous_list :
  let desktop_pass := @Index.devicePass Demo.E (Demo.cards both) [".present"%string] desktop
                        (snd (set_browser true initial)) in
  fst desktop_pass = inr [".present"%string; Demo.card 0; Demo.card 1]
  /\ fst (@Index.devicePass Demo.E (Demo.cards both) [".present"%string; Demo.card 0; Demo.card 1] mobile
            (snd desktop_pass))
     = inr [".present"%string; Demo.card 0; Demo.card 1]
  /\ fst (@Index.devicePass Demo.E (Demo.cards both) [".present"%string] mobile (snd desktop_pass))
     = inr [".present"%string; Demo.card 0]
  /\ processed (snd (@Index.captureScreenshots Demo.E (Demo.cards both) initial))
     = [".present"%string; Demo.card 0; Demo.card 1; ".present"%string; Demo.card 0; Demo.card 1]
  /\ processed (snd (@Refactored.start Demo.E (Demo.cards both) initial))
     = [".present"%string; Demo.card 0; Demo.card 1; ".present"%string; Demo.card 0]
  /\ length (saved (snd (@Index.captureScreenshots Demo.E (Demo.cards both) initial))) = 6
  /\ length (saved (snd (@Refactored.start Demo.E (Demo.cards both) initial))) = 5.
Proof. vm_compute. repeat split; reflexivity. Qed.

(** ** Phase A and Phase B *)

Local Open Scope float_scope.

(** C8: Phase B scrolls exactly when the distance between the centre of the
    element, [top + height / 2], and the centre of the viewport,
    [viewportHeight / 2], is above 50, and then by the signed difference of the
    two; on the page, its only scroll request is that [scrollBy], made when the
    selector finds an element. *)
Theorem C8_phase_B_scrolls_iff_off_centre {E : Env} :
  (forall rect viewportHeight,
      let elementCenter := DOMRect.top rect + DOMRect.height rect / 2 in
      let viewportCenter := viewportHeight / 2 in
      let offset := JSMath.abs (elementCenter - viewportCenter) in
      InPage.adjustment rect viewportHeight
      = (if 50 <? offset then Some (elementCenter - viewportCenter) else None)
      /\ (InPage.adjustment rect viewportHeight <> None <-> (50 <? offset) = true)
      /\ (forall a, InPage.adjustment rect viewportHeight = Some a ->
                    a = elementCenter - viewportCenter /\ JSMath.abs a = offset))
  /\ (forall sel w,
        scrolls (page (snd (InPage.adjustPosition sel w)))
        = scrolls (page w)
          ++ match found sel w with
             | Some el =>
                 match InPage.adjustment (Browser.client_rect (page w) el)
                         (innerHeight (page w)) with
                 | Some a => [ScrollBy a]
                 | None => []
                 end
             | None => []
             end)
  /\ Refactored.adjustPosition = InPage.adjustPosition
  /\ (forall sel,
        Index.triggerAnimation sel
        = (InPage.centerElement sel ;;; Browser.page_waitForTimeout 500 ;;;
           InPage.adjustPosition sel ;;; Browser.page_waitForTimeout 200)).
Proof.
  split.
  { intros rect viewportHeight. cbv zeta.
    unfold InPage.adjustment, InPage.offset, InPage.elementCenter, InPage.viewportCenter.
    split; [reflexivity|]. split.
    - destruct (50 <? _); split; congruence.
    - intros a. destruct (50 <? _); [|discriminate].
      intros H. injection H as <-. split; reflexivity. }
  split; [exact adjustPosition_scrolls|].
  split; [reflexivity|]. intros sel. reflexivity.
Qed.

(** The theorem at an element of height 400 at the top of a viewport of
    height 1095. *)
Lemma C8_phase_B_witness :
  let rect := {| DOMRect.top := 0; DOMRect.height := 400 |} in
  InPage.adjustment rect 1095 = Some (-347.5)
  /\ (-347.5 = 0 + 400 / 2 - 1095 / 2
      /\ JSMath.abs (-347.5) = JSMath.abs (0 + 400 / 2 - 1095 / 2)).
Proof.
  cbv zeta. split; [reflexivity|].
  exact (proj2 (proj2 (proj1 (@C8_phase_B_scrolls_iff_off_centre Demo.E)
                         {| DOMRect.top := 0; DOMRect.height := 400 |} 1095))
           (-347.5) eq_refl).
Defined.

(** C9: the target of Phase A is [Math.max(0, pageYOffset + top -
    (viewportHeight - height) / 2)], which is never below zero, and it is the
    only scroll Phase A asks for; the offset the smooth scroll heads for is
    not below zero either.  Phase B leaves the offset where it was or at a
    value that is not below zero: the window keeps what [scrollBy] asks for
    within its scroll range. *)
Theorem C9_scroll_offsets_never_negative {E : Env} :
  (forall y rect viewportHeight,
      let wanted := y + DOMRect.top rect - (viewportHeight - DOMRect.height rect) / 2 in
      InPage.targetScrollY y rect viewportHeight = JSMath.max 0 wanted
      /\ (InPage.targetScrollY y rect viewportHeight <? 0) = false
      /\ (is_nan wanted = false -> (0 <=? InPage.targetScrollY y rect viewportHeight) = true))
  /\ (forall sel w,
        scrolls (page (snd (InPage.centerElement sel w)))
        = scrolls (page w)
          ++ match found sel w with
             | Some el =>
                 [ScrollTo (InPage.targetScrollY (pageYOffset (page w))
                              (Browser.client_rect (page w) el) (innerHeight (page w)))]
             | None => []
             end)
  /\ (forall sel w t,
        smoothTarget (page (snd (InPage.centerElement sel w))) = Some t ->
        smoothTarget (page w) = Some t \/ (t <? 0) = false)
  /\ (forall sel w,
        let w' := snd (InPage.adjustPosition sel w) in
        pageYOffset (page w') = pageYOffset (page w)
        \/ (pageYOffset (page w') <? 0) = false)
  /\ Refactored.centerElement = InPage.centerElement
  /\ Refactored.adjustPosition = InPage.adjustPosition.
Proof.
  split.
  { intros y rect viewportHeight. cbv zeta. unfold InPage.targetScrollY.
    split; [reflexivity|]. split; [apply max_zero_not_negative|].
    apply max_zero_at_least_zero. }
  split; [exact centerElement_scrolls|].
  split; [exact centerElement_target|].
  split; [exact adjustPosition_offset|].
  split; reflexivity.
Qed.

(** The theorem at an element of height 600, 400 below the top of a viewport
    of height 1095 scrolled to 0. *)
Lemma C9_phase_A_witness :
  let rect := {| DOMRect.top := 400; DOMRect.height := 600 |} in
  is_nan (0 + 400 - (1095 - 600) / 2) = false
  /\ InPage.targetScrollY 0 rect 1095 = 152.5
  /\ (0 <=? InPage.targetScrollY 0 rect 1095) = true.
Proof.
  cbv zeta. split; [reflexivity|]. split; [reflexivity|].
  exact (proj2 (proj2 (proj1 (@C9_scroll_offsets_never_negative Demo.E)
                         0 {| DOMRect.top := 400; DOMRect.height := 600 |} 1095))
           eq_refl).
Defined.

(** With an element at the top of the document Phase A asks for offset 0 and
    Phase B for a scroll of -347.5 from there; the window stays at 0. *)
Example phase_B_request_below_zero :
  let w := snd ((@InPage.triggerAnimation Demo.E ".present")
                  (Demo.loaded desktop (Demo.options [] None (only desktop) true))) in
  scrolls (page w) = [ScrollTo 0; ScrollBy (-347.5)]
  /\ pageYOffset (page w) = 0.
Proof. vm_compute. split; reflexivity. Qed.

Local Close Scope float_scope.

(** ** The shape of a file name *)

Section Stem.
Import JS FilenameSpec.

Lemma char_cases (P : ascii -> bool) :
  forallb P (map ascii_of_nat (seq 0 256)) = true -> forall c, P c = true.
Proof.
  intros H c. rewrite forallb_forall in H. apply H.
  apply in_map_iff. exists (nat_of_ascii c). split; [apply ascii_nat_embedding|].
  apply in_seq. pose proof (nat_ascii_bounded c). lia.
Qed.

Ltac by_char_cases c :=
  revert c;
  match goal with
  | |- forall c, ?a = ?b =>
      intros c; apply Bool.eqb_prop; revert c
  | _ => idtac
  end;
  match goal with
  | |- forall c, @?P c = true => apply (char_cases P); vm_compute; reflexivity
  end.

Lemma lower_keeps_underscore c : is_underscore (lower c) = is_underscore c.
Proof. by_char_cases c. Qed.

Lemma lower_filename_char c :
  implb (is_alnum c || is_underscore c) (filename_char (lower c)) = true.
Proof. by_char_cases c. Qed.

Lemma filename_char_fixed c :
  implb (filename_char c)
    (Ascii.eqb (lower c) c && negb (Ascii.eqb c "#" || Ascii.eqb c ".")
     && (is_alnum c || is_underscore c)) = true.
Proof. by_char_cases c. Qed.

Lemma alnum_not_special c :
  implb (is_alnum c) (negb (is_underscore c) && negb (Ascii.eqb c "#" || Ascii.eqb c ".")) = true.
Proof. by_char_cases c. Qed.

Lemma special_not_alnum c :
  implb (Ascii.eqb c "#" || Ascii.eqb c ".") (negb (is_alnum c)) = true.
Proof. by_char_cases c. Qed.

Lemma underscore_others_plain s : forallb plain (underscore_others s) = true.
Proof.
  induction s as [|c s IH]; [reflexivity|].
  change (underscore_others (c :: s))
    with ((if is_alnum c then c else "_"%char) :: underscore_others s).
  cbn [forallb]. rewrite IH, andb_true_r. unfold plain.
  destruct (is_alnum c) eqn:Hc; [rewrite Hc; reflexivity|reflexivity].
Qed.

Lemma collapse_forallb P s : forallb P s = true -> forallb P (collapse s) = true.
Proof.
  induction s as [|c s IH]; [reflexivity|].
  cbn [forallb collapse]. intros H. apply andb_prop in H as [Hc Hs].
  specialize (IH Hs).
  destruct (is_underscore c).
  - destruct s as [|d s]; [cbn; rewrite Hc; reflexivity|].
    destruct (is_underscore d); [exact IH|].
    cbn [forallb]. rewrite Hc. exact IH.
  - cbn [forallb]. rewrite Hc. exact IH.
Qed.

Lemma strip_leading_forallb P s : forallb P s = true -> forallb P (strip_leading s) = true.
Proof.
  induction s as [|c s IH]; [reflexivity|].
  cbn [strip_leading]. intros H. destruct (is_underscore c); [|exact H].
  apply IH. cbn in H. apply andb_prop in H as [_ H]. exact H.
Qed.

Lemma forallb_rev P (s : chars) : forallb P (rev s) = forallb P s.
Proof.
  induction s as [|c s IH]; [reflexivity|].
  cbn. rewrite forallb_app, IH. cbn. rewrite andb_true_r. apply andb_comm.
Qed.

Lemma strip_trailing_forallb P s : forallb P s = true -> forallb P (strip_trailing s) = true.
Proof.
  intros H. unfold strip_trailing. rewrite forallb_rev.
  apply strip_leading_forallb. rewrite forallb_rev. exact H.
Qed.

Lemma lower_plain s :
  forallb plain s = true -> forallb filename_char (map lower s) = true.
Proof.
  induction s as [|c s IH]; [reflexivity|].
  cbn. intros H. apply andb_prop in H as [Hc Hs]. rewrite (IH Hs), andb_true_r.
  pose proof (lower_filename_char c) as Hl. unfold plain in Hc. rewrite Hc in Hl. exact Hl.
Qed.

Lemma clean_filename_chars selector : forallb filename_char (clean selector) = true.
Proof.
  apply lower_plain, strip_trailing_forallb, strip_leading_forallb, collapse_forallb,
    underscore_others_plain.
Qed.

(** No two underscores in a row, none at either end. *)
Lemma no_double_chop s : no_double s -> no_double (chop s).
Proof.
  induction s as [|c s IH]; [intros; exact I|].
  intros H. pose proof (no_double_tail _ _ H) as Hs. specialize (IH Hs).
  cbn [chop]. destruct s as [|d s].
  - destruct (is_underscore c); exact I.
  - destruct H as [Hcd _].
    assert (no_double (c :: chop (d :: s))) as Hgoal.
    { cbn [no_double]. destruct (chop (d :: s)) as [|x t] eqn:Hx; [exact I|].
      split; [|exact IH].
      assert (x = d) as ->; [|exact Hcd].
      cbn [chop] in Hx. destruct (is_underscore d), s; congruence. }
    destruct (is_underscore c); exact Hgoal.
Qed.

Lemma no_double_strip_leading s : no_double s -> no_double (strip_leading s).
Proof.
  induction s as [|c s IH]; [intros; exact I|].
  intros H. cbn [strip_leading]. destruct (is_underscore c); [|exact H].
  apply IH. exact (no_double_tail _ _ H).
Qed.

Lemma no_double_lower s : no_double s -> no_double (map lower s).
Proof.
  induction s as [|c s IH]; [intros; exact I|].
  intros H. pose proof (no_double_tail _ _ H) as Hs. specialize (IH Hs).
  destruct s as [|d s]; [exact I|].
  destruct H as [Hcd _].
  change (~ (is_underscore (lower c) = true /\ is_underscore (lower d) = true)
          /\ no_double (map lower (d :: s))).
  rewrite !lower_keeps_underscore. split; [exact Hcd | exact IH].
Qed.

Lemma strip_leading_head s c rest :
  strip_leading s = c :: rest -> is_underscore c = false.
Proof.
  induction s as [|x s IH]; [discriminate|].
  cbn [strip_leading]. destruct (is_underscore x) eqn:Hx; [exact IH|].
  intros H. injection H as <- _. exact Hx.
Qed.

Lemma strip_trailing_last s pre c :
  strip_trailing s = pre ++ [c] -> is_underscore c = false.
Proof.
  unfold strip_trailing. intros H.
  apply (f_equal (@rev ascii)) in H. rewrite rev_involutive, rev_app_distr in H.
  cbn in H. exact (strip_leading_head _ _ _ H).
Qed.

Lemma strip_both_head s c rest :
  no_double s ->
  strip_trailing (strip_leading s) = c :: rest -> is_underscore c = false.
Proof.
  intros Hnd H.
  rewrite (strip_trailing_chop _ (no_double_strip_leading _ Hnd)) in H.
  destruct (strip_leading s) as [|x t] eqn:Hx; [discriminate|].
  pose proof (strip_leading_head _ _ _ Hx) as Hus.
  cbn [chop] in H. rewrite Hus in H. injection H as <- _. exact Hus.
Qed.

Lemma stem_shape selector :
  let stem := cleanSelector selector in
  forallb filename_char stem = true
  /\ no_double stem
  /\ (forall c rest, stem = c :: rest -> is_underscore c = false)
  /\ (forall pre c, stem = pre ++ [c] -> is_underscore c = false).
Proof.
  cbv zeta. rewrite cleanSelector_clean.
  pose proof (no_double_collapse
                (underscore_others (strip_hash_dot (list_ascii_of_string selector)))) as Hnd.
  split; [apply clean_filename_chars|]. split; [|split].
  - unfold clean. apply no_double_lower.
    rewrite (strip_trailing_chop _ (no_double_strip_leading _ Hnd)).
    apply no_double_chop, no_double_strip_leading, Hnd.
  - unfold clean. intros c rest H.
    destruct (strip_trailing _) as [|x t] eqn:Hx; [discriminate|].
    cbn [map] in H. injection H as <- _. rewrite lower_keeps_underscore.
    exact (strip_both_head _ _ _ Hnd Hx).
  - unfold clean. intros pre c H.
    destruct (strip_trailing _) as [|x t _] eqn:Hx using rev_ind; [destruct pre; discriminate|].
    rewrite map_app in H. cbn [map] in H. apply app_inj_tail in H as [_ <-].
    rewrite lower_keeps_underscore. exact (strip_trailing_last _ _ _ Hx).
Qed.
End Stem.

Section Letters.
Import JS FilenameSpec.

Lemma implb_true a b : implb a b = true -> a = true -> b = true.
Proof. destruct a, b; simpl; congruence. Qed.

Lemma alnums_strip_hash_dot s :
  List.filter is_alnum (strip_hash_dot s) = List.filter is_alnum s.
Proof.
  induction s as [|c s IH]; [reflexivity|].
  cbn [strip_hash_dot List.filter].
  destruct (Ascii.eqb c "#" || Ascii.eqb c ".") eqn:Hc.
  - pose proof (implb_true _ _ (special_not_alnum c) Hc) as Hn.
    apply negb_true_iff in Hn. rewrite Hn. exact IH.
  - cbn [List.filter]. rewrite IH. reflexivity.
Qed.

Lemma letters_underscore_others s :
  List.filter not_underscore (underscore_others s) = List.filter is_alnum s.
Proof.
  induction s as [|c s IH]; [reflexivity|].
  change (underscore_others (c :: s))
    with ((if is_alnum c then c else "_"%char) :: underscore_others s).
  cbn [List.filter]. rewrite IH.
  destruct (is_alnum c) eqn:Hc; [|reflexivity].
  pose proof (implb_true _ _ (alnum_not_special c) Hc) as Hn.
  apply andb_prop in Hn as [Hn _]. unfold not_underscore. rewrite Hn. reflexivity.
Qed.

Lemma letters_collapse s :
  List.filter not_underscore (collapse s) = List.filter not_underscore s.
Proof.
  induction s as [|c s IH]; [reflexivity|].
  cbn [collapse]. unfold not_underscore at 2. cbn [List.filter].
  destruct (is_underscore c) eqn:Hc; cbn [negb].
  - destruct s as [|d s]; [cbn; unfold not_underscore; rewrite Hc; reflexivity|].
    destruct (is_underscore d) eqn:Hd; [exact IH|].
    cbn [List.filter]. unfold not_underscore at 1. rewrite Hc. cbn [negb]. exact IH.
  - cbn [List.filter]. unfold not_underscore at 1. rewrite Hc. cbn [negb].
    rewrite IH. reflexivity.
Qed.

Lemma letters_strip_leading s :
  List.filter not_underscore (strip_leading s) = List.filter not_underscore s.
Proof.
  induction s as [|c s IH]; [reflexivity|].
  cbn [strip_leading]. destruct (is_underscore c) eqn:Hc; [|reflexivity].
  cbn [List.filter]. unfold not_underscore at 2. rewrite Hc. exact IH.
Qed.

Lemma letters_strip_trailing s :
  List.filter not_underscore (strip_trailing s) = List.filter not_underscore s.
Proof.
  unfold strip_trailing. rewrite filter_rev, letters_strip_leading, filter_rev.
  apply rev_involutive.
Qed.

Lemma letters_lower s :
  List.filter not_underscore (map lower s) = map lower (List.filter not_underscore s).
Proof.
  induction s as [|c s IH]; [reflexivity|].
  change (map lower (c :: s)) with (lower c :: map lower s).
  cbn [List.filter].
  replace (not_underscore (lower c)) with (not_underscore c)
    by (unfold not_underscore; rewrite lower_keeps_underscore; reflexivity).
  destruct (not_underscore c); cbn [map]; rewrite IH; reflexivity.
Qed.

Lemma stem_letters selector :
  List.filter not_underscore (cleanSelector selector) = map lower (alnums selector).
Proof.
  rewrite cleanSelector_clean. unfold clean, alnums.
  rewrite letters_lower, letters_strip_trailing, letters_strip_leading, letters_collapse,
    letters_underscore_others, alnums_strip_hash_dot.
  reflexivity.
Qed.

Lemma stem_empty_iff selector : cleanSelector selector = [] <-> alnums selector = [].
Proof.
  split; intros H.
  - pose proof (stem_letters selector) as Hl. rewrite H in Hl. cbn in Hl.
    destruct (alnums selector); [reflexivity | discriminate].
  - pose proof (stem_letters selector) as Hl. rewrite H in Hl. cbn in Hl.
    destruct (stem_shape selector) as (_ & _ & Hhead & _). cbv zeta in Hhead.
    destruct (cleanSelector selector) as [|c rest]; [reflexivity|].
    specialize (Hhead c rest eq_refl). cbn [List.filter] in Hl.
    unfold not_underscore in Hl. rewrite Hhead in Hl. discriminate.
Qed.

(** A stem is left as it is by every step. *)
Lemma stem_fixed t :
  forallb filename_char t = true ->
  no_double t ->
  (forall c rest, t = c :: rest -> is_underscore c = false) ->
  (forall pre c, t = pre ++ [c] -> is_underscore c = false) ->
  strip_hash_dot t = t /\ underscore_others t = t /\ collapse t = t
  /\ strip_leading t = t /\ strip_trailing t = t /\ map lower t = t.
Proof.
  intros Hchars Hnd Hhead Hlast.
  assert (forall c, In c t ->
            lower c = c /\ (Ascii.eqb c "#" || Ascii.eqb c ".") = false
            /\ (is_alnum c || is_underscore c) = true) as Hc.
  { intros c Hin. rewrite forallb_forall in Hchars.
    pose proof (implb_true _ _ (filename_char_fixed c) (Hchars c Hin)) as H.
    apply andb_prop in H as [H H3]. apply andb_prop in H as [H1 H2].
    apply Ascii.eqb_eq in H1. apply negb_true_iff in H2. auto. }
  clear Hchars. repeat split.
  - clear Hnd Hhead Hlast. induction t as [|c t IH]; [reflexivity|].
    cbn [strip_hash_dot]. destruct (Hc c (or_introl eq_refl)) as (_ & -> & _).
    rewrite IH; [reflexivity|]. intros x Hx. apply Hc. right. exact Hx.
  - clear Hnd Hhead Hlast. induction t as [|c t IH]; [reflexivity|].
    change (underscore_others (c :: t))
      with ((if is_alnum c then c else "_"%char) :: underscore_others t).
    rewrite IH by (intros x Hx; apply Hc; right; exact Hx).
    destruct (Hc c (or_introl eq_refl)) as (_ & _ & H).
    destruct (is_alnum c); [reflexivity|]. cbn in H. apply Ascii.eqb_eq in H.
    subst c. reflexivity.
  - clear Hc Hhead Hlast. induction t as [|c t IH]; [reflexivity|].
    pose proof (no_double_tail _ _ Hnd) as Ht. cbn [collapse].
    destruct t as [|d t]; [destruct (is_underscore c); reflexivity|].
    destruct Hnd as [Hcd _]. rewrite (IH Ht).
    destruct (is_underscore c) eqn:Hu; [|reflexivity].
    destruct (is_underscore d) eqn:Hd; [|reflexivity].
    exfalso. apply Hcd. split; reflexivity.
  - destruct t as [|c t]; [reflexivity|]. cbn [strip_leading].
    rewrite (Hhead c t eq_refl). reflexivity.
  - destruct t as [|c t _] using rev_ind; [reflexivity|].
    rewrite strip_trailing_snoc, (Hlast t c eq_refl). reflexivity.
  - clear Hnd Hhead Hlast. induction t as [|c t IH]; [reflexivity|].
    cbn [map]. destruct (Hc c (or_introl eq_refl)) as (-> & _).
    rewrite IH; [reflexivity|]. intros x Hx. apply Hc. right. exact Hx.
Qed.

Lemma stem_idempotent selector :
  cleanSelector (string_of_list_ascii (cleanSelector selector)) = cleanSelector selector.
Proof.
  destruct (stem_shape selector) as (Hchars & Hnd & Hhead & Hlast). cbv zeta in *.
  destruct (stem_fixed _ Hchars Hnd Hhead Hlast) as (H1 & H2 & H3 & H4 & H5 & H6).
  rewrite (cleanSelector_clean (string_of_list_ascii _)). unfold clean.
  rewrite list_ascii_of_string_of_list_ascii, H1, H2, H3, H4, H5, H6. reflexivity.
Qed.

(** File names as character lists. *)
Lemma chars_append a b :
  list_ascii_of_string (a +:+ b) = list_ascii_of_string a ++ list_ascii_of_string b.
Proof.
  induction a as [|c a IH]; [reflexivity|].
  change (list_ascii_of_string (String c a +:+ b))
    with (c :: list_ascii_of_string (a +:+ b)).
  rewrite IH. reflexivity.
Qed.

Lemma filename_chars selector d :
  list_ascii_of_string (generateFilename selector d) = cleanSelector selector ++ suffix d.
Proof.
  unfold generateFilename, suffix. rewrite chars_append.
  rewrite list_ascii_of_string_of_list_ascii. reflexivity.
Qed.

Lemma filename_device s s' d d' :
  generateFilename s d = generateFilename s' d' -> d = d'.
Proof.
  intros H. apply (f_equal list_ascii_of_string) in H. rewrite !filename_chars in H.
  apply (f_equal (fun l => take 11 (rev l))) in H. cbv beta in H.
  rewrite !rev_app_distr in H.
  assert (forall x, 11 <= length (rev (suffix x))) as Hlen
    by (intros []; vm_compute; lia).
  rewrite !take_app_le in H by apply Hlen.
  destruct d, d'; try reflexivity; vm_compute in H; discriminate.
Qed.

Lemma filename_equal_iff s s' d d' :
  generateFilename s d = generateFilename s' d'
  <-> d = d' /\ cleanSelector s = cleanSelector s'.
Proof.
  split.
  - intros H. pose proof (filename_device _ _ _ _ H) as <-. split; [reflexivity|].
    apply (f_equal list_ascii_of_string) in H. rewrite !filename_chars in H.
    exact (app_inv_tail _ _ _ H).
  - intros [<- H]. unfold generateFilename. rewrite H. reflexivity.
Qed.
End Letters.

(** ** The expander *)

Section Expander.
Context {E : Env}.

Lemma decimal_inj j k : decimal j = decimal k -> j = k.
Proof.
  unfold decimal. intros H. apply Unsigned.to_uint_inj.
  assert (forall n, Nat.to_uint n <> Decimal.Nil) as Hnil.
  { intros n Hn. pose proof (f_equal Nat.of_uint Hn) as H0.
    rewrite Unsigned.of_to in H0. cbn in H0. subst n. discriminate Hn. }
  pose proof (NilZero.usu _ (Hnil j)) as Hj. rewrite H, (NilZero.usu _ (Hnil k)) in Hj.
  congruence.
Qed.

Lemma append_inj_l a b c : (a +:+ b = a +:+ c)%string -> b = c.
Proof. induction a as [|x a IH]; [auto|]. cbn. intros H. injection H as H. auto. Qed.

Lemma append_inj_r a b c : (a +:+ c = b +:+ c)%string -> a = b.
Proof.
  intros H. apply (f_equal list_ascii_of_string) in H. rewrite !chars_append in H.
  apply app_inv_tail in H. apply (f_equal string_of_list_ascii) in H.
  rewrite !string_of_list_ascii_of_string in H. exact H.
Qed.

Lemma locator_inj a b : locator a = locator b -> a = b.
Proof.
  unfold locator. intros H. apply append_inj_l, append_inj_l in H.
  exact (append_inj_r _ _ _ H).
Qed.

Lemma target_inj j k : target j = target k -> j = k.
Proof. intros H. apply locator_inj, append_inj_l in H. exact (decimal_inj _ _ H). Qed.

Lemma NoDup_targets index n : NoDup (targets index n).
Proof.
  unfold targets. apply NoDup_fmap_2.
  - intros j k. apply target_inj.
  - apply NoDup_ListNoDup, seq_NoDup.
Qed.

Lemma elem_of_targets s index n :
  s ∈ targets index n <-> exists k, index <= k < index + n /\ s = target k.
Proof.
  unfold targets. rewrite list_elem_of_fmap. split.
  - intros (k & -> & Hk). exists k. split; [|reflexivity].
    apply list_elem_of_In, in_seq in Hk. exact Hk.
  - intros (k & Hk & ->). exists k. split; [reflexivity|].
    apply list_elem_of_In, in_seq. exact Hk.
Qed.

Lemma target_synthetic k : String.prefix "[data-screenshot" (target k) = true.
Proof. reflexivity. Qed.

(** What the expander does to the page and what it returns. *)
Lemma tag_children_spec index cs w :
  exists w',
    InPage.tag_children index cs w = (inr (targets index (length cs)), w')
    /\ console w' = console w /\ files w' = files w
    /\ browserOpen w' = browserOpen w /\ entropy w' = entropy w
    /\ length (nodes (page w')) = length (nodes (page w))
    /\ (forall i, i ∉ cs -> nodes (page w') !! i = nodes (page w) !! i)
    /\ (NoDup cs ->
        forall k c, cs !! k = Some c ->
          nodes (page w') !! c
          = Browser.set_data_screenshot (token (index + k)) <$> nodes (page w) !! c).
Proof.
  revert index w. induction cs as [|child cs IH]; intros index w.
  - exists w. cbn. repeat split; try reflexivity. intros _ k c H. discriminate.
  - cbn [InPage.tag_children].
    destruct (IH (S index) (snd (Browser.setAttribute child (token index) w)))
      as (w' & Hrun & Hcon & Hfiles & Hopen & Hent & Hlen & Hout & Hin).
    rewrite (bind_inr (Browser.setAttribute _ _) _ w tt _ eq_refl).
    rewrite (bind_inr _ _ _ _ _ Hrun).
    exists w'. split; [reflexivity|].
    split; [exact Hcon|]. split; [exact Hfiles|]. split; [exact Hopen|].
    split; [exact Hent|]. split; [|split].
    + rewrite Hlen. cbn. apply length_alter.
    + intros i Hi. apply not_elem_of_cons in Hi as [Hne Hi].
      rewrite (Hout i Hi). cbn. apply list_lookup_alter_ne. congruence.
    + intros Hnd k c Hk. apply NoDup_cons in Hnd as [Hchild Hnd].
      destruct k as [|k]; cbn in Hk.
      * injection Hk as ->. rewrite (Hout c Hchild). cbn.
        rewrite list_lookup_alter_eq, Nat.add_0_r. reflexivity.
      * rewrite (Hin Hnd k c Hk). cbn.
        rewrite list_lookup_alter_ne.
        -- replace (index + S k) with (S index + k) by lia. reflexivity.
        -- intros ->. apply Hchild. eapply list_elem_of_lookup_2. exact Hk.
Qed.
End Expander.

Section Merge.
Import JSSet.

Lemma filter_none (P : string -> Prop) `{!forall x, Decision (P x)} (l : list string) :
  (forall x, x ∈ l -> ~ P x) -> filter P l = [].
Proof.
  induction l as [|x l IH]; intros Hnone; [reflexivity|].
  rewrite filter_cons_False by (apply Hnone; left).
  apply IH. intros y Hy. apply Hnone. right. exact Hy.
Qed.

Lemma first_occurrences_app A B :
  first_occurrences (A ++ B)
  = first_occurrences A ++ filter (fun y => y ∉ A) (first_occurrences B).
Proof.
  rewrite <- (of_iterable_first_occurrences (A ++ B)),
    <- (of_iterable_first_occurrences A).
  unfold to_array, of_iterable.
  rewrite fold_left_app, fold_add_first_occurrences. f_equal.
  apply list_filter_iff. intros y. rewrite elem_of_fold_add, elem_of_nil. tauto.
Qed.

Lemma targets_app index n m : targets index (n + m) = targets index n ++ targets (index + n) m.
Proof. unfold targets. rewrite seq_app, map_app. reflexivity. Qed.

Lemma authored_not_target L k : Forall authored L -> target k ∉ L.
Proof.
  intros HL Hin. rewrite Forall_forall in HL. specialize (HL _ Hin).
  unfold authored in HL. rewrite target_synthetic in HL. discriminate.
Qed.

(** Merging more child locators into a list that ends with the first [n]. *)
Lemma merge_targets L n m :
  NoDup L -> Forall authored L ->
  first_occurrences ((L ++ targets 0 n) ++ targets 0 m) = L ++ targets 0 (Nat.max n m).
Proof.
  intros Hnd Hauth.
  assert (NoDup (L ++ targets 0 n)) as Hnd'.
  { apply NoDup_app. split; [exact Hnd|]. split; [|apply NoDup_targets].
    intros x Hx Ht. apply elem_of_targets in Ht as (k & _ & ->).
    exact (authored_not_target L k Hauth Hx). }
  rewrite first_occurrences_app, (first_occurrences_NoDup _ Hnd'),
    (first_occurrences_NoDup _ (NoDup_targets 0 m)).
  rewrite <- app_assoc. f_equal.
  replace m with (Nat.min n m + (m - n)) at 1 by lia.
  rewrite targets_app, filter_app. cbn [Nat.add].
  rewrite filter_none.
  - rewrite filter_all.
    + cbn [app]. replace (Nat.max n m) with (n + (m - n)) by lia.
      rewrite targets_app. cbn [Nat.add]. f_equal.
      destruct (Nat.le_gt_cases m n) as [Hle|Hgt].
      * replace (m - n) with 0 by lia. reflexivity.
      * replace (Nat.min n m) with n by lia. reflexivity.
    + intros x Hx. apply elem_of_targets in Hx as (k & Hk & ->).
      intros Hin. apply elem_of_app in Hin as [Hin|Hin].
      * exact (authored_not_target L k Hauth Hin).
      * apply elem_of_targets in Hin as (j & Hj & Heq).
        apply target_inj in Heq. lia.
  - intros x Hx Hnot. apply Hnot. apply elem_of_targets in Hx as (k & Hk & ->).
    apply elem_of_app. right. apply elem_of_targets. exists k. split; [lia|reflexivity].
Qed.

Lemma merge_targets_first L m :
  NoDup L -> Forall authored L ->
  to_array (of_iterable (L ++ targets 0 m)) = L ++ targets 0 m.
Proof.
  intros Hnd Hauth. rewrite of_iterable_first_occurrences.
  pose proof (merge_targets L 0 m Hnd Hauth) as H.
  change (targets 0 0) with (@nil string) in H. rewrite app_nil_r in H. exact H.
Qed.
End Merge.

Section ResolutionWithChildren.
Context {E : Env}.

Lemma childSelectors_found parent w :
  css_valid parent = true ->
  exists w',
    InPage.childSelectors parent w
    = (inr (targets 0 (length (children_of parent (page w)))), w')
    /\ console w' = console w /\ files w' = files w
    /\ browserOpen w' = browserOpen w /\ entropy w' = entropy w.
Proof.
  intros Hv. unfold InPage.childSelectors, children_of.
  destruct (querySelector_valid parent w Hv) as (w1 & H1 & Hc1 & Hn1).
  rewrite (bind_inr _ _ _ _ _ H1).
  assert (files w1 = files w /\ browserOpen w1 = browserOpen w /\ entropy w1 = entropy w)
    as (Hf1 & Ho1 & He1).
  { revert H1. unfold Browser.querySelector, bind, Browser.update_page, set_page, get, ret.
    rewrite Hv. cbn. intros H. injection H as <-. repeat split. }
  destruct (find_index _ _) as [el|].
  - rewrite (bind_inr (Browser.element_children el) _ w1 _ w1 eq_refl).
    rewrite Hn1.
    destruct (tag_children_spec 0
                (match nodes (page w) !! el with Some n => children n | None => [] end) w1)
      as (w' & Hrun & Hcon & Hfiles & Hopen & Hent & _).
    exists w'. cbv beta. split; [exact Hrun|].
    repeat split; congruence.
  - exists w1. split; [reflexivity|]. repeat split; assumption.
Qed.
End ResolutionWithChildren.

Section ResolvedLists.
Context {E : Env}.

Lemma index_withChildren_carried o parent L n w :
  truthy (parentSelector o) = Some parent ->
  css_valid parent = true ->
  NoDup L -> Forall authored L ->
  fst (Index.withChildren o (L ++ targets 0 n) w)
  = inr (L ++ targets 0 (Nat.max n (length (children_of parent (page w))))).
Proof.
  intros Hp Hv Hnd Hauth. unfold Index.withChildren. rewrite Hp.
  rewrite (bind_inr (console_log _) _ _ tt _ eq_refl).
  match goal with |- context [bind (InPage.childSelectors parent) _ ?w1] =>
    destruct (childSelectors_found parent w1 Hv) as (w2 & HC & _) end.
  rewrite (bind_inr _ _ _ _ _ HC).
  rewrite (bind_inr (console_log _) _ _ tt _ eq_refl).
  unfold ret. cbn [fst]. rewrite of_iterable_first_occurrences.
  rewrite (merge_targets L n _ Hnd Hauth). reflexivity.
Qed.

Lemma load_page o w L w' :
  Refactored.loadSelectorsFromConfig o w = (inr L, w') -> page w' = page w.
Proof.
  intros H. destruct (load_returns o w) as (L0 & w0 & H0 & Hp). congruence.
Qed.

Lemma refactored_getSelectors_children o parent L w w1 :
  truthy (parentSelector o) = Some parent ->
  css_valid parent = true ->
  Refactored.loadSelectorsFromConfig o w = (inr L, w1) ->
  NoDup L -> Forall authored L ->
  fst (Refactored.getSelectors o w)
  = inr (L ++ targets 0 (length (children_of parent (page w)))).
Proof.
  intros Hp Hv HL Hnd Hauth.
  unfold Refactored.getSelectors, Refactored.getChildSelectors.
  rewrite (bind_inr _ _ _ _ _ HL), Hp.
  assert (exists w3,
    (console_log (FindingChildren parent) ;;; InPage.childSelectors parent) w1
    = (inr (targets 0 (length (children_of parent (page w)))), w3)) as (w3 & HC).
  { rewrite (bind_inr (console_log _) _ _ tt _ eq_refl).
    match goal with |- context [InPage.childSelectors parent ?w2] =>
      destruct (childSelectors_found parent w2 Hv) as (w3 & HC & _) end.
    exists w3. rewrite HC. cbn [page snd console_log]. rewrite (load_page _ _ _ _ HL).
    reflexivity. }
  rewrite (bind_inr _ _ _ _ _ HC). unfold ret. cbn [fst].
  rewrite (merge_targets_first L _ Hnd Hauth). reflexivity.
Qed.

(** What the expander leaves on the page. *)
Lemma childSelectors_marks parent w el n :
  css_valid parent = true ->
  find_index (css_matches parent) (nodes (page w)) = Some el ->
  nodes (page w) !! el = Some n ->
  NoDup (children n) ->
  let after := nodes (page (snd (InPage.childSelectors parent w))) in
  length after = length (nodes (page w))
  /\ (forall i, i ∉ children n -> after !! i = nodes (page w) !! i)
  /\ (forall k c, children n !! k = Some c ->
        after !! c = Browser.set_data_screenshot (token k) <$> nodes (page w) !! c).
Proof.
  intros Hv Hfind Hn Hnd. cbv zeta. unfold InPage.childSelectors.
  destruct (querySelector_valid parent w Hv) as (w1 & H1 & Hc1 & Hn1).
  rewrite (bind_inr _ _ _ _ _ H1), Hfind.
  rewrite (bind_inr (Browser.element_children el) _ w1 _ w1 eq_refl).
  rewrite Hn1, Hn. cbv beta.
  destruct (tag_children_spec 0 (children n) w1)
    as (w' & Hrun & _ & _ & _ & _ & Hlen & Hout & Hin).
  rewrite Hrun. cbn [snd]. rewrite <- Hn1. split; [exact Hlen|].
  split; [exact Hout|]. intros k c Hk. exact (Hin Hnd k c Hk).
Qed.
End ResolvedLists.

Section RewriterOutcomes.
Context {E : Env}.

Lemma tag_element_miss sel w :
  css_valid sel = true ->
  find_index (css_matches sel) (nodes (page w)) = None ->
  exists w',
    InPage.tag_element sel w = (inl (ElementNotFound sel), w')
    /\ nodes (page w') = nodes (page w) /\ console w' = console w
    /\ files w' = files w /\ entropy w' = entropy w.
Proof.
  intros Hv Hnone. unfold InPage.tag_element.
  unfold Browser.querySelector, bind, Browser.update_page, set_page, get, ret, throw.
  rewrite Hv. cbn. rewrite Hnone. eexists. split; [reflexivity|]. repeat split.
Qed.

Lemma tag_element_hit sel w el :
  css_valid sel = true ->
  find_index (css_matches sel) (nodes (page w)) = Some el ->
  let safeId := ("screenshot-" +:+ Date_now (entropy w) +:+ "-"
                 +:+ Math_random_36 (entropy w))%string in
  exists w',
    InPage.tag_element sel w = (inr (locator safeId), w')
    /\ nodes (page w') = alter (Browser.set_data_screenshot safeId) el (nodes (page w))
    /\ entropy w' = S (entropy w)
    /\ console w' = console w /\ files w' = files w.
Proof.
  intros Hv Hfind. cbv zeta. unfold InPage.tag_element.
  unfold Browser.querySelector, Browser.setAttribute, bind, Browser.update_page,
    set_page, get, ret, throw, draw.
  rewrite Hv. cbn. rewrite Hfind. eexists. split; [reflexivity|]. repeat split.
Qed.

Lemma find_index_first {A} (f : A -> bool) l el :
  find_index f l = Some el ->
  (exists x, l !! el = Some x /\ f x = true)
  /\ (forall j y, j < el -> l !! j = Some y -> f y = false).
Proof.
  revert el. induction l as [|x l IH]; intros el; [discriminate|].
  cbn [find_index]. destruct (f x) eqn:Hx.
  - intros H. injection H as <-. split; [exists x; split; [reflexivity|exact Hx]|].
    intros j y Hj. lia.
  - destruct (find_index f l) as [k|]; [|discriminate].
    cbn. intros H. injection H as <-. destruct (IH k eq_refl) as [Hk Hlt].
    split; [exact Hk|]. intros j y Hj Hl. destruct j as [|j]; cbn in Hl.
    + injection Hl as <-. exact Hx.
    + apply (Hlt j y); [lia | exact Hl].
Qed.

Lemma find_index_none {A} (f : A -> bool) l :
  find_index f l = None <-> forall x, x ∈ l -> f x = false.
Proof.
  induction l as [|x l IH]; cbn [find_index].
  - split; [intros _ y Hy; inversion Hy | reflexivity].
  - destruct (f x) eqn:Hx.
    + split; [discriminate|]. intros H. specialize (H x (list_elem_of_here _ _)). congruence.
    + destruct (find_index f l) as [k|].
      * split; [discriminate|]. intros H.
        assert (Some k = None) as Habs; [|discriminate].
        apply IH. intros y Hy. apply H. right. exact Hy.
      * split; [|reflexivity]. intros _ y Hy. apply elem_of_cons in Hy as [->|Hy]; [exact Hx|].
        apply IH; [reflexivity | exact Hy].
Qed.
End RewriterOutcomes.

(** ** What the steps of a pass leave alone *)

Section Keeps.
Context {E : Env} {X : Type} (f : World -> X).

Lemma keeps_ret {A} (a : A) : keeps f (ret a).
Proof. intros w. reflexivity. Qed.

Lemma keeps_throw {A} e : keeps f (@throw A e).
Proof. intros w. reflexivity. Qed.

Lemma keeps_get {A} (g : World -> A) : keeps f (get g).
Proof. intros w. reflexivity. Qed.

Lemma keeps_bind {A B} (m : M A) (k : A -> M B) :
  keeps f m -> (forall a, keeps f (k a)) -> keeps f (bind m k).
Proof.
  intros Hm Hk w. unfold bind. specialize (Hm w).
  destruct (m w) as [[e|a] w1]; cbn in *; [exact Hm|].
  rewrite (Hk a w1). exact Hm.
Qed.

Lemma keeps_try_catch {A} (m : M A) h :
  keeps f m -> (forall e, keeps f (h e)) -> keeps f (try_catch m h).
Proof.
  intros Hm Hh w. unfold try_catch. specialize (Hm w).
  destruct (m w) as [[e|a] w1]; cbn in *; [|exact Hm].
  rewrite (Hh e w1). exact Hm.
Qed.

Lemma keeps_for_of {A} (xs : list A) body :
  (forall x, keeps f (body x)) -> keeps f (for_of xs body).
Proof.
  intros Hb. induction xs as [|x xs IH]; [apply keeps_ret|].
  cbn [for_of]. apply keeps_bind; [apply Hb | intros _; exact IH].
Qed.

Lemma keeps_ensureOutputDirectory o : keeps f (Browser.ensureOutputDirectory o).
Proof.
  intros w. unfold Browser.ensureOutputDirectory.
  destruct (mkdir_error (output o)); reflexivity.
Qed.

Hypothesis Hpage : page_blind f.

Lemma keeps_set_page p : keeps f (set_page p).
Proof. intros w. apply Hpage. Qed.

Lemma keeps_update_page g : keeps f (Browser.update_page g).
Proof. intros w. apply Hpage. Qed.

Lemma keeps_waitForTimeout ms : keeps f (Browser.page_waitForTimeout ms).
Proof.
  intros w. unfold Browser.page_waitForTimeout.
  destruct (waitForTimeout ms (page w)); [reflexivity | apply Hpage].
Qed.

Lemma keeps_open_context d : keeps f (Browser.open_context d).
Proof.
  unfold Browser.open_context.
  destruct (newContext_error (contextOptions d)); [apply keeps_throw | apply keeps_set_page].
Qed.

Lemma keeps_page_goto d o : keeps f (Browser.page_goto d o).
Proof.
  unfold Browser.page_goto.
  destruct (goto (contextOptions d) o); [apply keeps_throw | apply keeps_set_page].
Qed.

Lemma keeps_querySelector sel : keeps f (Browser.querySelector sel).
Proof.
  unfold Browser.querySelector. apply keeps_bind; [apply keeps_update_page|intros _].
  destruct (css_valid sel); [|apply keeps_throw].
  apply keeps_bind; [apply keeps_get | intros p; apply keeps_ret].
Qed.

Lemma keeps_getBoundingClientRect el : keeps f (Browser.getBoundingClientRect el).
Proof.
  unfold Browser.getBoundingClientRect.
  apply keeps_bind; [apply keeps_update_page|intros _].
  apply keeps_bind; [apply keeps_get | intros p; apply keeps_ret].
Qed.

Lemma keeps_tag_children index cs : keeps f (InPage.tag_children index cs).
Proof.
  revert index. induction cs as [|c cs IH]; intros index; [apply keeps_ret|].
  cbn [InPage.tag_children].
  apply keeps_bind; [apply keeps_update_page|intros _].
  apply keeps_bind; [apply IH | intros ?; apply keeps_ret].
Qed.

Lemma keeps_childSelectors parent : keeps f (InPage.childSelectors parent).
Proof.
  unfold InPage.childSelectors. apply keeps_bind; [apply keeps_querySelector|].
  intros [el|]; [|apply keeps_ret].
  apply keeps_bind; [|intros cs; apply keeps_tag_children].
  unfold Browser.element_children.
  apply keeps_bind; [apply keeps_get | intros p; apply keeps_ret].
Qed.

Lemma keeps_centerElement sel : keeps f (InPage.centerElement sel).
Proof.
  unfold InPage.centerElement. apply keeps_bind; [apply keeps_querySelector|].
  intros [el|]; [|apply keeps_ret].
  apply keeps_bind; [apply keeps_getBoundingClientRect | intros rect].
  apply keeps_bind; [apply keeps_get | intros p; apply keeps_update_page].
Qed.

Lemma keeps_adjustPosition sel : keeps f (InPage.adjustPosition sel).
Proof.
  unfold InPage.adjustPosition. apply keeps_bind; [apply keeps_querySelector|].
  intros [el|]; [|apply keeps_ret].
  apply keeps_bind; [apply keeps_getBoundingClientRect | intros rect].
  apply keeps_bind; [apply keeps_get | intros p].
  destruct (InPage.adjustment _ _); [apply keeps_update_page | apply keeps_ret].
Qed.

Lemma keeps_triggerAnimation sel : keeps f (InPage.triggerAnimation sel).
Proof.
  unfold InPage.triggerAnimation.
  apply keeps_bind; [apply keeps_centerElement | intros _].
  apply keeps_bind; [apply keeps_waitForTimeout | intros _].
  apply keeps_bind; [apply keeps_adjustPosition | intros _].
  apply keeps_waitForTimeout.
Qed.

Hypothesis Hdraw : draw_blind f.

Lemma keeps_tag_element sel : keeps f (InPage.tag_element sel).
Proof.
  unfold InPage.tag_element. apply keeps_bind; [apply keeps_querySelector|].
  intros [el|]; [|apply keeps_throw].
  apply keeps_bind; [exact Hdraw | intros n].
  apply keeps_bind; [apply keeps_update_page | intros _; apply keeps_ret].
Qed.

Lemma keeps_makeSelectorSafe sel : keeps f (Refactored.makeSelectorSafe sel).
Proof.
  unfold Refactored.makeSelectorSafe.
  destruct (String.prefix _ _); [apply keeps_ret | apply keeps_tag_element].
Qed.

Lemma keeps_safeSelector sel : keeps f (Index.safeSelector sel).
Proof.
  unfold Index.safeSelector. apply keeps_try_catch; [|intros e; apply keeps_throw].
  destruct (String.prefix _ _); [apply keeps_ret | apply keeps_tag_element].
Qed.
End Keeps.

(** ** The outcome of one selector *)

Section Outcome.
Context {E : Env}.

Lemma outcome_page_blind : page_blind outcome.
Proof. intros w p. reflexivity. Qed.

Lemma outcome_draw_blind : draw_blind outcome.
Proof. intros w. reflexivity. Qed.

Lemma keeps_outcome_log l :
  match l with Saved _ | ErrorProcessingSelector _ _ => False | _ => True end ->
  keeps outcome (console_log l).
Proof.
  intros Hl w. unfold outcome, saves, selector_errors, console_log. cbn.
  rewrite !omap_app. destruct l; try contradiction; cbn; rewrite !app_nil_r; reflexivity.
Qed.

Lemma outcome_inv w w' :
  outcome w' = outcome w ->
  files w' = files w /\ saves w' = saves w /\ selector_errors w' = selector_errors w.
Proof. unfold outcome. intros H. injection H as H1 H2 H3. auto. Qed.

Lemma captures_bind {A B} path (m : M A) (k : A -> M B) :
  keeps outcome m -> (forall a, captures path (k a)) -> captures path (bind m k).
Proof.
  intros Hm Hk w. unfold bind. specialize (Hm w).
  destruct (m w) as [[e|a] w1]; cbn in Hm; [exact Hm|].
  specialize (Hk a w1). destruct (k a w1) as [[e|b] w2].
  - congruence.
  - apply outcome_inv in Hm as (Hf & Hs & He). rewrite <- Hf, <- Hs, <- He. exact Hk.
Qed.

Lemma captures_screenshot path :
  captures path (Browser.page_screenshot path ;;; console_log (Saved path)).
Proof.
  intros w. unfold bind, Browser.page_screenshot.
  destruct (screenshot_error path (page w)); [reflexivity|].
  cbn. split; [reflexivity|].
  unfold saves, selector_errors. cbn. rewrite !omap_app. cbn.
  split; [reflexivity | apply app_nil_r].
Qed.

Lemma index_attempt_captures o d sel :
  captures (path_join (output o) (generateFilename sel d)) (Index.attempt o d sel).
Proof.
  unfold Index.attempt.
  apply captures_bind; [apply keeps_safeSelector;
                        [apply outcome_page_blind | apply outcome_draw_blind]|].
  intros safe.
  apply captures_bind.
  { destruct (animationTrigger o); [|apply keeps_ret].
    apply keeps_bind; [apply keeps_outcome_log; exact I | intros _].
    apply (keeps_triggerAnimation outcome outcome_page_blind). }
  intros _. apply captures_bind; [apply keeps_outcome_log; exact I | intros _].
  apply captures_bind; [apply keeps_waitForTimeout, outcome_page_blind | intros _].
  apply captures_screenshot.
Qed.

Lemma refactored_attempt_captures o sel d :
  captures (path_join (output o) (generateFilename sel d)) (Refactored.attempt o sel d).
Proof.
  unfold Refactored.attempt.
  apply captures_bind; [apply keeps_makeSelectorSafe;
                        [apply outcome_page_blind | apply outcome_draw_blind]|].
  intros safeSelector.
  apply captures_bind.
  { destruct (animationTrigger o); [|apply keeps_ret].
    apply keeps_bind; [apply keeps_outcome_log; exact I | intros _].
    unfold Refactored.triggerAnimation, Refactored.centerElement, Refactored.adjustPosition.
    apply (keeps_triggerAnimation outcome outcome_page_blind). }
  intros _. apply captures_bind; [apply keeps_outcome_log; exact I | intros _].
  apply captures_bind; [apply keeps_waitForTimeout, outcome_page_blind | intros _].
  apply captures_screenshot.
Qed.

Lemma reported_outcome path sel (body : M unit) w :
  captures path body ->
  let w' := snd (try_catch body
                   (fun error => console_error (ErrorProcessingSelector sel error)) w) in
  (files w' = <[path := page w']> (files w)
   /\ saves w' = saves w ++ [path]
   /\ selector_errors w' = selector_errors w)
  \/ (exists e,
        files w' = files w /\ saves w' = saves w
        /\ selector_errors w' = selector_errors w ++ [(sel, e)]).
Proof.
  intros Hb. cbv zeta. unfold try_catch. specialize (Hb w).
  destruct (body w) as [[e|[]] w1].
  - right. exists e. apply outcome_inv in Hb as (Hf & Hs & He).
    unfold saves, selector_errors in *. cbn. rewrite !omap_app, Hs, He. cbn.
    rewrite app_nil_r. auto.
  - left. exact Hb.
Qed.

Lemma log_selector_outcome sel w :
  outcome (snd (console_log (ProcessingSelector sel) w)) = outcome w
  /\ page (snd (console_log (ProcessingSelector sel) w)) = page w.
Proof. split; [apply keeps_outcome_log; exact I | reflexivity]. Qed.

Lemma refactored_processSelector_outcome o sel d w :
  let path := path_join (output o) (generateFilename sel d) in
  let w' := snd (Refactored.processSelector o sel d w) in
  (files w' = <[path := page w']> (files w)
   /\ saves w' = saves w ++ [path]
   /\ selector_errors w' = selector_errors w)
  \/ (exists e,
        files w' = files w /\ saves w' = saves w
        /\ selector_errors w' = selector_errors w ++ [(sel, e)]).
Proof.
  cbv zeta. unfold Refactored.processSelector.
  rewrite (bind_inr (console_log _) _ _ tt _ eq_refl).
  destruct (log_selector_outcome sel w) as [Hlog _].
  apply outcome_inv in Hlog as (Hf & Hs & He). rewrite <- Hf, <- Hs, <- He.
  apply reported_outcome, refactored_attempt_captures.
Qed.

Lemma index_processSelector_outcome o d sel w :
  let path := path_join (output o) (generateFilename sel d) in
  let w' := snd (Index.processSelector o d sel w) in
  (files w' = <[path := page w']> (files w)
   /\ saves w' = saves w ++ [path]
   /\ selector_errors w' = selector_errors w)
  \/ (exists e,
        files w' = files w /\ saves w' = saves w
        /\ selector_errors w' = selector_errors w ++ [(sel, e)]).
Proof.
  cbv zeta. unfold Index.processSelector.
  rewrite (bind_inr (console_log _) _ _ tt _ eq_refl).
  destruct (log_selector_outcome sel w) as [Hlog _].
  apply outcome_inv in Hlog as (Hf & Hs & He). rewrite <- Hf, <- Hs, <- He.
  apply reported_outcome, index_attempt_captures.
Qed.
End Outcome.

(** ** Runs *)

Section Runs.
Context {E : Env}.

Lemma index_run_ends o w :
  fst (Index.captureScreenshots o w) = inr tt
  /\ browserOpen (snd (Index.captureScreenshots o w)) = false.
Proof.
  unfold Index.captureScreenshots.
  rewrite (bind_inr (set_browser true) _ w tt _ eq_refl).
  unfold try_finally.
  match goal with |- context [try_catch ?m ?h ?w1] =>
    pose proof (try_catch_reported m ErrorCapturing w1) as Hr;
    destruct (try_catch m h w1) as [r w2] end.
  cbn in Hr. subst r. split; reflexivity.
Qed.

Lemma refactored_run_ends o w :
  fst (Refactored.start o w) = inr tt
  /\ browserOpen (snd (Refactored.start o w)) = false.
Proof.
  unfold Refactored.start, Refactored.handleError.
  rewrite (bind_inr (set_browser true) _ w tt _ eq_refl).
  unfold try_finally.
  match goal with |- context [try_catch ?m ?h ?w1] =>
    pose proof (try_catch_reported m ErrorCapturing w1) as Hr;
    destruct (try_catch m h w1) as [r w2] end.
  cbn in Hr. subst r.
  unfold Refactored.cleanup, bind, get, ret. cbn.
  destruct (browserOpen w2) eqn:Hopen; cbn; split; try reflexivity. exact Hopen.
Qed.

(** Observations of the console and the lines that leave them alone. *)
Lemma progress_page_blind : page_blind progress.
Proof. intros w p. reflexivity. Qed.

Lemma device_lines_page_blind : page_blind device_lines.
Proof. intros w p. reflexivity. Qed.

Lemma keeps_progress_log l : setup_line l -> keeps progress (console_log l).
Proof.
  intros Hl w. unfold progress, outcome, processed, saves, selector_errors, fatal_errors,
    console_log. cbn.
  rewrite !omap_app. destruct l; try contradiction; cbn; rewrite !app_nil_r; reflexivity.
Qed.

Lemma keeps_device_lines_log l :
  match l with ProcessingDevice _ => False | _ => True end ->
  keeps device_lines (console_log l).
Proof.
  intros Hl w. unfold device_lines, console_log. cbn.
  rewrite omap_app. destruct l; try contradiction; cbn; apply app_nil_r.
Qed.

Lemma progress_log_device d w :
  progress (snd (console_log (ProcessingDevice d) w)) = progress w.
Proof.
  unfold progress, outcome, processed, saves, selector_errors, fatal_errors, console_log.
  cbn. rewrite !omap_app. cbn. rewrite !app_nil_r. reflexivity.
Qed.

Section Setup.
Context {X : Type} (f : World -> X).
Hypothesis Hpage : page_blind f.
Hypothesis Hlog : forall l, setup_line l -> keeps f (console_log l).

Lemma keeps_load o : keeps f (Refactored.loadSelectorsFromConfig o).
Proof.
  unfold Refactored.loadSelectorsFromConfig.
  destruct (truthy (config o)) as [path|]; [|apply keeps_ret].
  destruct (readConfig path); try apply keeps_ret;
    (apply keeps_bind; [apply Hlog; exact I | intros _; apply keeps_ret]).
Qed.

Lemma keeps_index_getSelectors o : keeps f (Index.getSelectors o).
Proof.
  unfold Index.getSelectors.
  destruct (truthy (config o)) as [path|]; [|apply keeps_ret].
  destruct (readConfig path); try apply keeps_ret;
    (apply keeps_bind; [apply Hlog; exact I | intros _; apply keeps_ret]).
Qed.

Lemma keeps_refactored_getSelectors o : keeps f (Refactored.getSelectors o).
Proof.
  unfold Refactored.getSelectors, Refactored.getChildSelectors.
  apply keeps_bind; [apply keeps_load | intros L].
  destruct (truthy (parentSelector o)) as [parent|]; [|apply keeps_ret].
  apply keeps_bind; [|intros C; apply keeps_ret].
  apply keeps_bind; [apply Hlog; exact I | intros _].
  apply keeps_childSelectors, Hpage.
Qed.

Lemma keeps_withChildren o L : keeps f (Index.withChildren o L).
Proof.
  unfold Index.withChildren.
  destruct (truthy (parentSelector o)) as [parent|]; [|apply keeps_ret].
  apply keeps_bind; [apply Hlog; exact I | intros _].
  apply keeps_bind; [apply keeps_childSelectors, Hpage | intros C].
  apply keeps_bind; [apply Hlog; exact I | intros _; apply keeps_ret].
Qed.

(** What follows the first console line of a pass, up to the selector loop. *)
Lemma keeps_index_setup o d L :
  keeps f (Browser.open_context d ;;;
           console_log (Navigating (url o) (Text (navigationTimeoutText o))) ;;;
           Browser.page_goto d o ;;;
           console_log PageLoaded ;;;
           selectors <- Index.withChildren o L ;;
           Browser.ensureOutputDirectory o ;;;
           ret selectors).
Proof.
  apply keeps_bind; [apply keeps_open_context, Hpage | intros _].
  apply keeps_bind; [apply Hlog; exact I | intros _].
  apply keeps_bind; [apply keeps_page_goto, Hpage | intros _].
  apply keeps_bind; [apply Hlog; exact I | intros _].
  apply keeps_bind; [apply keeps_withChildren | intros sels].
  apply keeps_bind; [apply keeps_ensureOutputDirectory | intros _; apply keeps_ret].
Qed.

Lemma keeps_refactored_setup o d :
  keeps f (Refactored.createBrowserContext d ;;;
           Refactored.setupPage o d ;;;
           selectors <- Refactored.getSelectors o ;;
           Browser.ensureOutputDirectory o ;;;
           ret selectors).
Proof.
  apply keeps_bind.
  { unfold Refactored.createBrowserContext.
    apply keeps_bind; [apply keeps_get | intros open].
    destruct open; [apply keeps_open_context, Hpage | apply keeps_throw]. }
  intros _. apply keeps_bind.
  { unfold Refactored.setupPage.
    apply keeps_bind; [apply Hlog; exact I | intros _].
    apply keeps_bind; [apply keeps_page_goto, Hpage | intros _].
    apply Hlog; exact I. }
  intros _. apply keeps_bind; [apply keeps_refactored_getSelectors | intros sels].
  apply keeps_bind; [apply keeps_ensureOutputDirectory | intros _; apply keeps_ret].
Qed.
End Setup.

Lemma device_lines_setup_log l : setup_line l -> keeps device_lines (console_log l).
Proof. intros Hl. apply keeps_device_lines_log. destruct l; try contradiction; exact I. Qed.

Lemma index_prepare_progress o d L w :
  progress (snd (Index.prepare o d L w)) = progress w
  /\ device_lines (snd (Index.prepare o d L w)) = device_lines w ++ [d].
Proof.
  unfold Index.prepare.
  rewrite (bind_inr (console_log _) _ _ tt _ eq_refl). split.
  - rewrite (keeps_index_setup progress progress_page_blind keeps_progress_log).
    apply progress_log_device.
  - rewrite (keeps_index_setup device_lines device_lines_page_blind device_lines_setup_log).
    unfold device_lines, console_log. cbn. rewrite omap_app. reflexivity.
Qed.

Lemma refactored_prepare_progress o d w :
  progress (snd (Refactored.prepare o d w)) = progress w
  /\ device_lines (snd (Refactored.prepare o d w)) = device_lines w ++ [d].
Proof.
  unfold Refactored.prepare.
  rewrite (bind_inr (console_log _) _ _ tt _ eq_refl). split.
  - rewrite (keeps_refactored_setup progress progress_page_blind keeps_progress_log).
    apply progress_log_device.
  - rewrite (keeps_refactored_setup device_lines device_lines_page_blind
               device_lines_setup_log).
    unfold device_lines, console_log. cbn. rewrite omap_app. reflexivity.
Qed.
End Runs.

Section Loops.
Context {E : Env}.

Lemma frame_page_blind : page_blind frame.
Proof. intros w p. reflexivity. Qed.

Lemma frame_draw_blind : draw_blind frame.
Proof. intros w. reflexivity. Qed.

Lemma keeps_frame_log l :
  match l with ProcessingDevice _ | ErrorCapturing _ => False | _ => True end ->
  keeps frame (console_log l).
Proof.
  intros Hl w. unfold frame, device_lines, fatal_errors, console_log. cbn.
  rewrite !omap_app. destruct l; try contradiction; cbn; rewrite !app_nil_r; reflexivity.
Qed.

Lemma keeps_frame_screenshot path : keeps frame (Browser.page_screenshot path).
Proof.
  intros w. unfold Browser.page_screenshot.
  destruct (screenshot_error path (page w)); reflexivity.
Qed.

Lemma keeps_frame_refactored_processSelector o sel d :
  keeps frame (Refactored.processSelector o sel d).
Proof.
  unfold Refactored.processSelector, Refactored.attempt.
  apply keeps_bind; [apply keeps_frame_log; exact I | intros _].
  apply keeps_try_catch; [|intros e; apply keeps_frame_log; exact I].
  apply keeps_bind;
    [apply keeps_makeSelectorSafe; [apply frame_page_blind | apply frame_draw_blind]|].
  intros safeSelector. apply keeps_bind.
  { destruct (animationTrigger o); [|apply keeps_ret].
    apply keeps_bind; [apply keeps_frame_log; exact I | intros _].
    apply (keeps_triggerAnimation frame frame_page_blind). }
  intros _. apply keeps_bind; [apply keeps_frame_log; exact I | intros _].
  apply keeps_bind; [apply keeps_waitForTimeout, frame_page_blind | intros _].
  apply keeps_bind; [apply keeps_frame_screenshot | intros _].
  apply keeps_frame_log; exact I.
Qed.

Lemma keeps_frame_index_processSelector o d sel :
  keeps frame (Index.processSelector o d sel).
Proof.
  unfold Index.processSelector, Index.attempt.
  apply keeps_bind; [apply keeps_frame_log; exact I | intros _].
  apply keeps_try_catch; [|intros e; apply keeps_frame_log; exact I].
  apply keeps_bind;
    [apply keeps_safeSelector; [apply frame_page_blind | apply frame_draw_blind]|].
  intros safe. apply keeps_bind.
  { destruct (animationTrigger o); [|apply keeps_ret].
    apply keeps_bind; [apply keeps_frame_log; exact I | intros _].
    apply (keeps_triggerAnimation frame frame_page_blind). }
  intros _. apply keeps_bind; [apply keeps_frame_log; exact I | intros _].
  apply keeps_bind; [apply keeps_waitForTimeout, frame_page_blind | intros _].
  apply keeps_bind; [apply keeps_frame_screenshot | intros _].
  apply keeps_frame_log; exact I.
Qed.

(** Every selector of a loop ends as one capture or one report. *)
Lemma settled_step w w' path sel :
  (files w' = <[path := page w']> (files w)
   /\ saves w' = saves w ++ [path]
   /\ selector_errors w' = selector_errors w)
  \/ (exists e,
        files w' = files w /\ saves w' = saves w
        /\ selector_errors w' = selector_errors w ++ [(sel, e)]) ->
  settled w' = S (settled w).
Proof.
  unfold settled. intros [(_ & -> & ->)|(e & _ & -> & ->)]; rewrite length_app; cbn; lia.
Qed.

Lemma settled_loop {A} (body : A -> M unit) xs :
  (forall x w, fst (body x w) = inr tt) ->
  (forall x w, settled (snd (body x w)) = S (settled w)) ->
  forall w, settled (snd (for_of xs body w)) = settled w + length xs.
Proof.
  intros Hret Hb. induction xs as [|x xs IH]; intros w; [cbn; lia|].
  cbn [for_of]. unfold bind. specialize (Hb x w). specialize (Hret x w).
  destruct (body x w) as [[e|[]] w1]; cbn in Hb, Hret |- *; [discriminate|].
  rewrite IH, Hb. lia.
Qed.
End Loops.

Section DevicePasses.
Context {E : Env}.

Lemma load_base o w :
  fst (Refactored.loadSelectorsFromConfig o w) = inr (base_selectors o)
  /\ fst (Index.getSelectors o w) = inr (base_selectors o).
Proof.
  unfold Refactored.loadSelectorsFromConfig, Index.getSelectors, base_selectors.
  destruct (truthy (config o)) as [path|]; [|split; reflexivity].
  destruct (readConfig path); split; reflexivity.
Qed.

Lemma progress_inv w w' :
  progress w' = progress w ->
  processed w' = processed w /\ outcome w' = outcome w
  /\ fatal_errors w' = fatal_errors w /\ browserOpen w' = browserOpen w.
Proof.
  unfold progress, outcome. intros H. inversion H. repeat split; congruence.
Qed.

Lemma frame_inv w w' :
  frame w' = frame w ->
  device_lines w' = device_lines w /\ fatal_errors w' = fatal_errors w
  /\ browserOpen w' = browserOpen w.
Proof. unfold frame. intros H. injection H as H1 H2 H3. repeat split; assumption. Qed.

Lemma settled_outcome w w' : outcome w' = outcome w -> settled w' = settled w.
Proof. intros H. apply outcome_inv in H as (_ & Hs & He). unfold settled. congruence. Qed.

Lemma refactored_prepare_ready o d w :
  truthy (parentSelector o) = None ->
  ready o d ->
  browserOpen w = true ->
  fst (Refactored.prepare o d w) = inr (base_selectors o).
Proof.
  intros Hparent (Hctx & (p & Hgoto) & Hmk) Hopen.
  unfold Refactored.prepare, Refactored.createBrowserContext, Refactored.setupPage,
    Refactored.getSelectors, Browser.open_context, Browser.page_goto,
    Browser.ensureOutputDirectory.
  rewrite Hparent, Hctx, Hgoto, Hmk.
  unfold bind, get, console_log, set_page, ret. cbn. rewrite Hopen. cbn.
  match goal with |- context [Refactored.loadSelectorsFromConfig o ?w1] =>
    pose proof (proj1 (load_base o w1)) as HL;
    destruct (Refactored.loadSelectorsFromConfig o w1) as [[e|L] w2] end;
    cbn in HL; [discriminate|].
  injection HL as ->. reflexivity.
Qed.

Lemma index_prepare_ready o d L w :
  truthy (parentSelector o) = None ->
  ready o d ->
  fst (Index.prepare o d L w) = inr L.
Proof.
  intros Hparent (Hctx & (p & Hgoto) & Hmk).
  unfold Index.prepare, Index.withChildren, Browser.open_context, Browser.page_goto,
    Browser.ensureOutputDirectory.
  rewrite Hparent, Hctx, Hgoto, Hmk. reflexivity.
Qed.

(** One pass whose preparation succeeds with list [L]. *)
Lemma refactored_pass o d w L :
  fst (Refactored.prepare o d w) = inr L ->
  let w' := snd (Refactored.processDevice o d w) in
  fst (Refactored.processDevice o d w) = inr tt
  /\ processed w' = processed w ++ L
  /\ device_lines w' = device_lines w ++ [d]
  /\ fatal_errors w' = fatal_errors w
  /\ browserOpen w' = browserOpen w
  /\ settled w' = settled w + length L.
Proof.
  intros Hprep. cbv zeta.
  destruct (refactored_prepare_progress o d w) as [Hprog Hdev].
  unfold Refactored.processDevice.
  destruct (Refactored.prepare o d w) as [[e|L'] w1] eqn:Hp; cbn in Hprep; [discriminate|].
  injection Hprep as ->. cbn [snd] in Hprog, Hdev.
  apply progress_inv in Hprog as (Hproc & Hout & Hfatal & Hopen).
  rewrite (bind_inr _ _ _ _ _ Hp).
  pose proof (refactored_loop o d L w1) as [Hret Hloop]. cbv zeta in Hret, Hloop.
  pose proof (keeps_for_of frame L (fun selector => Refactored.processSelector o selector d)
                (fun sel => keeps_frame_refactored_processSelector o sel d) w1) as Hframe.
  pose proof (settled_loop (fun selector => Refactored.processSelector o selector d) L
                (fun sel w0 => refactored_processSelector_returns o sel d w0)
                (fun sel w0 => settled_step _ _ _ sel
                                 (refactored_processSelector_outcome o sel d w0)) w1)
    as Hsettled.
  destruct (for_of L _ w1) as [[e|[]] w2] eqn:Hfor; cbn in Hret; [discriminate|].
  cbn [snd] in Hloop, Hframe, Hsettled.
  apply frame_inv in Hframe as (Hd2 & Hf2 & Ho2).
  rewrite (bind_inr _ _ _ _ _ Hfor). unfold Browser.context_close, set_page. cbn [fst snd].
  rewrite (settled_outcome _ _ Hout) in Hsettled.
  change (inr tt = inr tt :> Error + unit
          /\ processed w2 = processed w ++ L /\ device_lines w2 = device_lines w ++ [d]
          /\ fatal_errors w2 = fatal_errors w /\ browserOpen w2 = browserOpen w
          /\ settled w2 = settled w + length L).
  repeat split; congruence.
Qed.
End DevicePasses.

Section AllDevices.
Context {E : Env}.

Lemma index_pass o d w L L' :
  fst (Index.prepare o d L w) = inr L' ->
  let w' := snd (Index.devicePass o L d w) in
  fst (Index.devicePass o L d w) = inr L'
  /\ processed w' = processed w ++ L'
  /\ device_lines w' = device_lines w ++ [d]
  /\ fatal_errors w' = fatal_errors w
  /\ browserOpen w' = browserOpen w
  /\ settled w' = settled w + length L'.
Proof.
  intros Hprep. cbv zeta.
  destruct (index_prepare_progress o d L w) as [Hprog Hdev].
  unfold Index.devicePass.
  destruct (Index.prepare o d L w) as [[e|L0] w1] eqn:Hp; cbn in Hprep; [discriminate|].
  injection Hprep as ->. cbn [snd] in Hprog, Hdev.
  apply progress_inv in Hprog as (Hproc & Hout & Hfatal & Hopen).
  rewrite (bind_inr _ _ _ _ _ Hp).
  pose proof (index_loop o d L' w1) as [Hret Hloop].
  pose proof (keeps_for_of frame L' (Index.processSelector o d)
                (keeps_frame_index_processSelector o d) w1) as Hframe.
  pose proof (settled_loop (Index.processSelector o d) L'
                (index_processSelector_returns o d)
                (fun sel w0 => settled_step _ _ _ sel
                                 (index_processSelector_outcome o d sel w0)) w1)
    as Hsettled.
  destruct (for_of L' _ w1) as [[e|[]] w2] eqn:Hfor; cbn in Hret; [discriminate|].
  cbn [snd] in Hloop, Hframe, Hsettled.
  apply frame_inv in Hframe as (Hd2 & Hf2 & Ho2).
  rewrite (bind_inr _ _ _ _ _ Hfor).
  rewrite (bind_inr Browser.context_close _ w2 tt _ eq_refl).
  unfold ret. cbn [fst snd].
  rewrite (settled_outcome _ _ Hout) in Hsettled.
  change (inr L' = inr L' :> Error + list string
          /\ processed w2 = processed w ++ L' /\ device_lines w2 = device_lines w ++ [d]
          /\ fatal_errors w2 = fatal_errors w /\ browserOpen w2 = browserOpen w
          /\ settled w2 = settled w + length L').
  repeat split; congruence.
Qed.

Lemma per_device_cons d ds L : per_device (d :: ds) L = L ++ per_device ds L.
Proof. reflexivity. Qed.

Lemma length_per_device ds L : length (per_device ds L) = length ds * length L.
Proof.
  induction ds as [|d ds IH]; [reflexivity|].
  rewrite per_device_cons, length_app, IH. cbn. lia.
Qed.

Lemma refactored_passes o ds :
  truthy (parentSelector o) = None ->
  Forall (ready o) ds ->
  forall w, browserOpen w = true ->
  let r := for_of ds (Refactored.processDevice o) w in
  fst r = inr tt
  /\ processed (snd r) = processed w ++ per_device ds (base_selectors o)
  /\ device_lines (snd r) = device_lines w ++ ds
  /\ fatal_errors (snd r) = fatal_errors w
  /\ browserOpen (snd r) = true
  /\ settled (snd r) = settled w + length ds * length (base_selectors o).
Proof.
  intros Hparent Hready. induction Hready as [|d ds Hd _ IH]; intros w Hopen; cbv zeta.
  - cbn. rewrite !app_nil_r. repeat split; [exact Hopen | lia].
  - cbn [for_of].
    pose proof (refactored_pass o d w _ (refactored_prepare_ready o d w Hparent Hd Hopen))
      as (Hret & Hproc & Hdev & Hfatal & Hopen' & Hsettled). cbv zeta in *.
    destruct (Refactored.processDevice o d w) as [[e|[]] w1] eqn:Hpass;
      cbn in Hret; [discriminate|]. cbn [snd] in *.
    rewrite (bind_inr _ _ _ _ _ Hpass).
    destruct (IH w1 (eq_trans Hopen' Hopen)) as (H1 & H2 & H3 & H4 & H5 & H6).
    split; [exact H1|]. split; [rewrite H2, Hproc, per_device_cons, app_assoc; reflexivity|].
    split; [rewrite H3, Hdev, <- app_assoc; reflexivity|].
    split; [congruence|]. split; [exact H5|].
    rewrite H6, Hsettled. cbn [length]. lia.
Qed.

Lemma index_passes o ds L :
  truthy (parentSelector o) = None ->
  Forall (ready o) ds ->
  forall w,
  let r := Index.devicePasses o ds L w in
  fst r = inr tt
  /\ processed (snd r) = processed w ++ per_device ds L
  /\ device_lines (snd r) = device_lines w ++ ds
  /\ fatal_errors (snd r) = fatal_errors w
  /\ browserOpen (snd r) = browserOpen w
  /\ settled (snd r) = settled w + length ds * length L.
Proof.
  intros Hparent Hready. induction Hready as [|d ds Hd _ IH]; intros w; cbv zeta.
  - cbn. rewrite !app_nil_r. repeat split. lia.
  - cbn [Index.devicePasses].
    pose proof (index_pass o d w L L (index_prepare_ready o d L w Hparent Hd))
      as (Hret & Hproc & Hdev & Hfatal & Hopen' & Hsettled). cbv zeta in *.
    destruct (Index.devicePass o L d w) as [[e|L0] w1] eqn:Hpass;
      cbn in Hret; [discriminate|]. injection Hret as ->. cbn [snd] in *.
    rewrite (bind_inr _ _ _ _ _ Hpass).
    destruct (IH w1) as (H1 & H2 & H3 & H4 & H5 & H6).
    split; [exact H1|]. split; [rewrite H2, Hproc, per_device_cons, app_assoc; reflexivity|].
    split; [rewrite H3, Hdev, <- app_assoc; reflexivity|].
    split; [congruence|]. split; [congruence|].
    rewrite H6, Hsettled. cbn [length]. lia.
Qed.
End AllDevices.

Section WholeRuns.
Context {E : Env}.

(** Worlds with the same console and files show the same run. *)
Lemma same_console w w' :
  console w' = console w -> files w' = files w ->
  processed w' = processed w /\ device_lines w' = device_lines w
  /\ fatal_errors w' = fatal_errors w /\ settled w' = settled w
  /\ outcome w' = outcome w.
Proof.
  intros Hc Hf.
  unfold processed, device_lines, fatal_errors, settled, outcome, saves, selector_errors.
  rewrite Hc, Hf. repeat split.
Qed.

Lemma cleanup_keeps w :
  console (snd (Refactored.cleanup w)) = console w
  /\ files (snd (Refactored.cleanup w)) = files w.
Proof.
  unfold Refactored.cleanup, bind, get, ret. cbn.
  destruct (browserOpen w); split; reflexivity.
Qed.

Lemma refactored_start_steps o w r w2 :
  for_of (deviceTypes o) (Refactored.processDevice o) (snd (set_browser true w)) = (r, w2) ->
  let w3 := match r with
            | inl e => snd (console_error (ErrorCapturing e) w2)
            | inr _ => w2
            end in
  console (snd (Refactored.start o w)) = console w3
  /\ files (snd (Refactored.start o w)) = files w3.
Proof.
  intros Hfor. cbv zeta. unfold Refactored.start, Refactored.getDeviceTypes.
  rewrite (bind_inr (set_browser true) _ w tt (snd (set_browser true w)) eq_refl).
  unfold try_finally, try_catch. rewrite Hfor.
  destruct r as [e|[]].
  - unfold Refactored.handleError.
    change (console_error (ErrorCapturing e) w2)
      with (inr tt : Error + unit, snd (console_error (ErrorCapturing e) w2)).
    cbv iota beta.
    pose proof (cleanup_keeps (snd (console_error (ErrorCapturing e) w2))) as [Hc Hf].
    destruct (Refactored.cleanup _) as [[e'|[]] w4]; cbn [snd] in *; split; assumption.
  - pose proof (cleanup_keeps w2) as [Hc Hf].
    destruct (Refactored.cleanup w2) as [[e'|[]] w4]; cbn [snd] in *; split; assumption.
Qed.

Lemma index_run_steps o w L w1 r w2 :
  Index.getSelectors o (snd (set_browser true w)) = (inr L, w1) ->
  Index.devicePasses o (deviceTypes o) L w1 = (r, w2) ->
  let w3 := match r with
            | inl e => snd (console_error (ErrorCapturing e) w2)
            | inr _ => w2
            end in
  console (snd (Index.captureScreenshots o w)) = console w3
  /\ files (snd (Index.captureScreenshots o w)) = files w3.
Proof.
  intros Hsel Hpass. cbv zeta. unfold Index.captureScreenshots.
  rewrite (bind_inr (set_browser true) _ w tt (snd (set_browser true w)) eq_refl).
  unfold try_finally, try_catch. cbv zeta.
  rewrite (bind_inr _ _ _ _ _ Hsel), Hpass.
  destruct r as [e|[]]; cbn; split; reflexivity.
Qed.

Lemma refactored_run_all o w :
  truthy (parentSelector o) = None ->
  Forall (ready o) (deviceTypes o) ->
  let w' := snd (Refactored.start o w) in
  processed w' = processed w ++ per_device (deviceTypes o) (base_selectors o)
  /\ device_lines w' = device_lines w ++ deviceTypes o
  /\ fatal_errors w' = fatal_errors w
  /\ settled w' = settled w + length (deviceTypes o) * length (base_selectors o).
Proof.
  intros Hparent Hready. cbv zeta.
  pose proof (refactored_passes o (deviceTypes o) Hparent Hready
                (snd (set_browser true w)) eq_refl)
    as (Hret & Hproc & Hdev & Hfatal & _ & Hsettled). cbv zeta in *.
  destruct (for_of (deviceTypes o) _ _) as [r w2] eqn:Hfor. cbn [fst snd] in *. subst r.
  destruct (refactored_start_steps o w _ _ Hfor) as [Hc Hf]. cbv zeta in Hc, Hf.
  destruct (same_console _ _ Hc Hf) as (-> & -> & -> & -> & _).
  rewrite Hproc, Hdev, Hfatal, Hsettled. repeat split.
Qed.

Lemma index_getSelectors_returns o w :
  exists w1, Index.getSelectors o w = (inr (base_selectors o), w1)
    /\ progress w1 = progress w /\ device_lines w1 = device_lines w.
Proof.
  pose proof (proj2 (load_base o w)) as HL.
  pose proof (keeps_index_getSelectors progress keeps_progress_log o w) as Hp.
  pose proof (keeps_index_getSelectors device_lines device_lines_setup_log o w) as Hd.
  destruct (Index.getSelectors o w) as [[e|L] w1]; cbn in HL; [discriminate|].
  injection HL as ->. exists w1. split; [reflexivity|]. split; assumption.
Qed.

Lemma index_run_all o w :
  truthy (parentSelector o) = None ->
  Forall (ready o) (deviceTypes o) ->
  let w' := snd (Index.captureScreenshots o w) in
  processed w' = processed w ++ per_device (deviceTypes o) (base_selectors o)
  /\ device_lines w' = device_lines w ++ deviceTypes o
  /\ fatal_errors w' = fatal_errors w
  /\ settled w' = settled w + length (deviceTypes o) * length (base_selectors o).
Proof.
  intros Hparent Hready. cbv zeta.
  destruct (index_getSelectors_returns o (snd (set_browser true w)))
    as (w1 & Hsel & Hprog & Hdev1).
  apply progress_inv in Hprog as (Hp1 & Ho1 & Hf1 & _).
  pose proof (index_passes o (deviceTypes o) (base_selectors o) Hparent Hready w1)
    as (Hret & Hproc & Hdev & Hfatal & _ & Hsettled). cbv zeta in *.
  destruct (Index.devicePasses o _ _ w1) as [r w2] eqn:Hpass. cbn [fst snd] in *. subst r.
  destruct (index_run_steps o w _ _ _ _ Hsel Hpass) as [Hc Hf]. cbv zeta in Hc, Hf.
  destruct (same_console _ _ Hc Hf) as (-> & -> & -> & -> & _).
  rewrite Hproc, Hdev, Hfatal, Hsettled, Hp1, Hdev1, Hf1, (settled_outcome _ _ Ho1).
  repeat split.
Qed.
End WholeRuns.

Section Aborts.
Context {E : Env}.

Lemma refactored_prepare_navigation o d w e :
  newContext_error (contextOptions d) = None ->
  goto (contextOptions d) o = inl e ->
  browserOpen w = true ->
  fst (Refactored.prepare o d w) = inl e.
Proof.
  intros Hctx Hgoto Hopen.
  unfold Refactored.prepare, Refactored.createBrowserContext, Refactored.setupPage,
    Browser.open_context, Browser.page_goto.
  rewrite Hctx, Hgoto. unfold bind, get, console_log, set_page, ret, throw. cbn.
  rewrite Hopen. reflexivity.
Qed.

Lemma index_prepare_navigation o d L w e :
  newContext_error (contextOptions d) = None ->
  goto (contextOptions d) o = inl e ->
  fst (Index.prepare o d L w) = inl e.
Proof.
  intros Hctx Hgoto. unfold Index.prepare, Browser.open_context, Browser.page_goto.
  rewrite Hctx, Hgoto. reflexivity.
Qed.

Lemma for_of_app {A} (body : A -> M unit) pre rest w :
  fst (for_of pre body w) = inr tt ->
  for_of (pre ++ rest) body w = for_of rest body (snd (for_of pre body w)).
Proof.
  revert w. induction pre as [|x pre IH]; intros w; [reflexivity|].
  cbn [for_of app]. unfold bind.
  destruct (body x w) as [[e|[]] w1]; cbn; [discriminate|]. apply IH.
Qed.

Lemma refactored_failed_pass o d rest w e :
  fst (Refactored.prepare o d w) = inl e ->
  let r := for_of (d :: rest) (Refactored.processDevice o) w in
  fst r = inl e
  /\ progress (snd r) = progress w
  /\ device_lines (snd r) = device_lines w ++ [d].
Proof.
  intros Hprep. cbv zeta.
  destruct (refactored_prepare_progress o d w) as [Hprog Hdev].
  cbn [for_of]. unfold Refactored.processDevice.
  destruct (Refactored.prepare o d w) as [[e'|L] w1] eqn:Hp; cbn in Hprep; [|discriminate].
  injection Hprep as ->.
  rewrite (bind_inl _ _ _ _ _ (bind_inl _ _ _ _ _ Hp)). cbn [fst snd] in *.
  repeat split; assumption.
Qed.

Lemma fatal_logged e w :
  processed (snd (console_error (ErrorCapturing e) w)) = processed w
  /\ device_lines (snd (console_error (ErrorCapturing e) w)) = device_lines w
  /\ fatal_errors (snd (console_error (ErrorCapturing e) w)) = fatal_errors w ++ [e]
  /\ outcome (snd (console_error (ErrorCapturing e) w)) = outcome w.
Proof.
  unfold processed, device_lines, fatal_errors, outcome, saves, selector_errors,
    console_error, console_log. cbn.
  rewrite !omap_app. cbn. rewrite !app_nil_r. repeat split.
Qed.

Lemma refactored_run_aborts o pre d rest e w :
  deviceTypes o = pre ++ d :: rest ->
  truthy (parentSelector o) = None ->
  Forall (ready o) pre ->
  newContext_error (contextOptions d) = None ->
  goto (contextOptions d) o = inl e ->
  let w' := snd (Refactored.start o w) in
  device_lines w' = device_lines w ++ pre ++ [d]
  /\ processed w' = processed w ++ per_device pre (base_selectors o)
  /\ fatal_errors w' = fatal_errors w ++ [e]
  /\ settled w' = settled w + length pre * length (base_selectors o).
Proof.
  intros Hds Hparent Hready Hctx Hgoto. cbv zeta.
  pose proof (refactored_passes o pre Hparent Hready (snd (set_browser true w)) eq_refl)
    as (Hret & Hproc & Hdev & Hfatal & Hopen & Hsettled). cbv zeta in *.
  pose proof (for_of_app (Refactored.processDevice o) pre (d :: rest) _ Hret) as Happ.
  pose proof (refactored_failed_pass o d rest _ e
                (refactored_prepare_navigation o d _ e Hctx Hgoto Hopen))
    as (Hfail & Hprog & Hdev'). cbv zeta in *.
  rewrite <- Happ, <- Hds in Hfail, Hprog, Hdev'.
  apply progress_inv in Hprog as (Hp2 & Ho2 & Hf2 & _).
  destruct (for_of (deviceTypes o) _ _) as [r w2] eqn:Hfor. cbn [fst snd] in *. subst r.
  destruct (refactored_start_steps o w _ _ Hfor) as [Hc Hf]. cbv zeta in Hc, Hf.
  destruct (same_console _ _ Hc Hf) as (-> & -> & -> & -> & _).
  destruct (fatal_logged e w2) as (-> & -> & -> & Hout).
  rewrite (settled_outcome _ _ Hout), (settled_outcome _ _ Ho2).
  rewrite Hdev', Hdev, Hp2, Hproc, Hf2, Hfatal, Hsettled, <- app_assoc.
  repeat split.
Qed.

Lemma index_passes_app o pre rest L w :
  truthy (parentSelector o) = None ->
  Forall (ready o) pre ->
  Index.devicePasses o (pre ++ rest) L w
  = Index.devicePasses o rest L (snd (Index.devicePasses o pre L w)).
Proof.
  intros Hparent Hready. revert w. induction Hready as [|d pre Hd _ IH]; intros w;
    [reflexivity|].
  cbn [Index.devicePasses app].
  pose proof (index_pass o d w L L (index_prepare_ready o d L w Hparent Hd)) as (Hret & _).
  destruct (Index.devicePass o L d w) as [[e|L0] w1] eqn:Hpass; cbn in Hret; [discriminate|].
  injection Hret as ->. rewrite !(bind_inr _ _ _ _ _ Hpass). apply IH.
Qed.

Lemma index_failed_pass o d rest L w e :
  fst (Index.prepare o d L w) = inl e ->
  let r := Index.devicePasses o (d :: rest) L w in
  fst r = inl e
  /\ progress (snd r) = progress w
  /\ device_lines (snd r) = device_lines w ++ [d].
Proof.
  intros Hprep. cbv zeta.
  destruct (index_prepare_progress o d L w) as [Hprog Hdev].
  cbn [Index.devicePasses]. unfold Index.devicePass.
  destruct (Index.prepare o d L w) as [[e'|L0] w1] eqn:Hp; cbn in Hprep; [|discriminate].
  injection Hprep as ->.
  rewrite (bind_inl _ _ _ _ _ (bind_inl _ _ _ _ _ Hp)). cbn [fst snd] in *.
  repeat split; assumption.
Qed.

Lemma index_run_aborts o pre d rest e w :
  deviceTypes o = pre ++ d :: rest ->
  truthy (parentSelector o) = None ->
  Forall (ready o) pre ->
  newContext_error (contextOptions d) = None ->
  goto (contextOptions d) o = inl e ->
  let w' := snd (Index.captureScreenshots o w) in
  device_lines w' = device_lines w ++ pre ++ [d]
  /\ processed w' = processed w ++ per_device pre (base_selectors o)
  /\ fatal_errors w' = fatal_errors w ++ [e]
  /\ settled w' = settled w + length pre * length (base_selectors o).
Proof.
  intros Hds Hparent Hready Hctx Hgoto. cbv zeta.
  destruct (index_getSelectors_returns o (snd (set_browser true w)))
    as (w1 & Hsel & Hprog1 & Hdev1).
  apply progress_inv in Hprog1 as (Hp1 & Ho1 & Hf1 & _).
  pose proof (index_passes o pre (base_selectors o) Hparent Hready w1)
    as (Hret & Hproc & Hdev & Hfatal & _ & Hsettled). cbv zeta in *.
  pose proof (index_passes_app o pre (d :: rest) (base_selectors o) w1 Hparent Hready)
    as Happ.
  pose proof (index_failed_pass o d rest (base_selectors o)
                (snd (Index.devicePasses o pre (base_selectors o) w1)) e
                (index_prepare_navigation o d _ _ e Hctx Hgoto))
    as (Hfail & Hprog & Hdev'). cbv zeta in *.
  rewrite <- Happ, <- Hds in Hfail, Hprog, Hdev'.
  apply progress_inv in Hprog as (Hp2 & Ho2 & Hf2 & _).
  destruct (Index.devicePasses o (deviceTypes o) _ w1) as [r w2] eqn:Hpass.
  cbn [fst snd] in *. subst r.
  destruct (index_run_steps o w _ _ _ _ Hsel Hpass) as [Hc Hf]. cbv zeta in Hc, Hf.
  destruct (same_console _ _ Hc Hf) as (-> & -> & -> & -> & _).
  destruct (fatal_logged e w2) as (-> & -> & -> & Hout).
  rewrite (settled_outcome _ _ Hout), (settled_outcome _ _ Ho2).
  rewrite Hdev', Hdev, Hp2, Hproc, Hf2, Hfatal, Hsettled, Hdev1, Hp1, Hf1,
    (settled_outcome _ _ Ho1), <- app_assoc.
  repeat split.
Qed.
End Aborts.

Section Files.
Context {E : Env}.

(** The files after a loop: the old ones, and captures of the loop's
    selectors. *)
Lemma loop_files {A} (body : A -> M unit) (path : A -> string) xs :
  (forall x w, fst (body x w) = inr tt) ->
  (forall x w,
      files (snd (body x w)) = files w
      \/ exists img, files (snd (body x w)) = <[path x := img]> (files w)) ->
  forall w,
    dom (files w) ⊆ dom (files (snd (for_of xs body w)))
    /\ (forall p, p ∈ dom (files (snd (for_of xs body w))) ->
          p ∈ dom (files w) \/ exists x, x ∈ xs /\ p = path x).
Proof.
  intros Hret Hb. induction xs as [|x xs IH]; intros w.
  - cbn. split; [reflexivity | auto].
  - cbn [for_of]. unfold bind. specialize (Hret x w). specialize (Hb x w).
    destruct (body x w) as [[e|[]] w1]; cbn in Hret, Hb; [discriminate|].
    destruct (IH w1) as [Hsub Hnew].
    assert (dom (files w) ⊆ dom (files w1)
            /\ forall p, p ∈ dom (files w1) -> p ∈ dom (files w) \/ p = path x)
      as [Hsub1 Hnew1].
    { destruct Hb as [Hb|(img & Hb)]; rewrite Hb; [split; [reflexivity | auto]|].
      rewrite dom_insert_L.
      split; [intros p Hp; apply elem_of_union; right; exact Hp|].
      intros p Hp. apply elem_of_union in Hp as [Hp|Hp]; [|auto].
      apply elem_of_singleton in Hp. auto. }
    split; [etransitivity; eassumption|].
    intros p Hp. destruct (Hnew p Hp) as [Hp1|(y & Hy & ->)].
    + destruct (Hnew1 p Hp1) as [H0| ->]; [auto|].
      right. exists x. split; [left | reflexivity].
    + right. exists y. split; [right; exact Hy | reflexivity].
Qed.

Lemma outcome_files w w' path sel :
  (files w' = <[path := page w']> (files w)
   /\ saves w' = saves w ++ [path]
   /\ selector_errors w' = selector_errors w)
  \/ (exists e,
        files w' = files w /\ saves w' = saves w
        /\ selector_errors w' = selector_errors w ++ [(sel, e)]) ->
  files w' = files w \/ exists img, files w' = <[path := img]> (files w).
Proof. intros [(H & _)|(e & H & _)]; [right; eauto | left; exact H]. Qed.

Lemma refactored_loop_files o d sels w :
  let w' := snd (for_of sels (fun selector => Refactored.processSelector o selector d) w) in
  dom (files w) ⊆ dom (files w')
  /\ (forall p, p ∈ dom (files w') ->
        p ∈ dom (files w) \/ exists sel, sel ∈ sels /\ p = capture_path o d sel).
Proof.
  cbv zeta.
  apply (loop_files (fun selector => Refactored.processSelector o selector d)
           (capture_path o d) sels).
  - intros sel w0. apply refactored_processSelector_returns.
  - intros sel w0. apply (outcome_files _ _ _ sel).
    apply refactored_processSelector_outcome.
Qed.

Lemma index_loop_files o d sels w :
  let w' := snd (for_of sels (Index.processSelector o d) w) in
  dom (files w) ⊆ dom (files w')
  /\ (forall p, p ∈ dom (files w') ->
        p ∈ dom (files w) \/ exists sel, sel ∈ sels /\ p = capture_path o d sel).
Proof.
  cbv zeta.
  apply (loop_files (Index.processSelector o d) (capture_path o d) sels).
  - apply index_processSelector_returns.
  - intros sel w0. apply (outcome_files _ _ _ sel).
    apply index_processSelector_outcome.
Qed.
End Files.

Section PhasesFrame.
Context {E : Env}.
Local Open Scope float_scope.

Lemma centerElement_frame sel w :
  let r := InPage.centerElement sel w in
  fst r = (if css_valid sel then inr tt else inl (InvalidSelector sel))
  /\ nodes (page (snd r)) = nodes (page w)
  /\ pageYOffset (page (snd r)) = pageYOffset (page w)
  /\ innerHeight (page (snd r)) = innerHeight (page w)
  /\ scrollHeight (page (snd r)) = scrollHeight (page w)
  /\ console (snd r) = console w /\ files (snd r) = files w
  /\ entropy (snd r) = entropy w /\ browserOpen (snd r) = browserOpen w.
Proof.
  cbv zeta. unfold InPage.centerElement, Browser.querySelector,
    Browser.getBoundingClientRect, Browser.scrollTo, Browser.update_page, bind,
    set_page, get, ret, throw.
  cbn. destruct (css_valid sel); cbn; [|repeat split].
  destruct (find_index (css_matches sel) (nodes (page w))); cbn; repeat split.
Qed.

Lemma adjustPosition_frame sel w :
  let r := InPage.adjustPosition sel w in
  fst r = (if css_valid sel then inr tt else inl (InvalidSelector sel))
  /\ nodes (page (snd r)) = nodes (page w)
  /\ innerHeight (page (snd r)) = innerHeight (page w)
  /\ scrollHeight (page (snd r)) = scrollHeight (page w)
  /\ console (snd r) = console w /\ files (snd r) = files w
  /\ entropy (snd r) = entropy w /\ browserOpen (snd r) = browserOpen w.
Proof.
  cbv zeta. unfold InPage.adjustPosition, Browser.querySelector,
    Browser.getBoundingClientRect, Browser.scrollBy, Browser.update_page, bind,
    set_page, get, ret, throw.
  cbn. destruct (css_valid sel); cbn; [|repeat split].
  destruct (find_index (css_matches sel) (nodes (page w))); cbn; [|repeat split].
  destruct (InPage.adjustment _ _); cbn; repeat split.
Qed.
End PhasesFrame.

(** ** The two files side by side *)

Section Simulation.
Context {E : Env}.

Lemma sim_ret {A B} (R : A -> B -> Prop) a b : R a b -> sim R (ret a) (ret b).
Proof. intros HR w1 w2 H. split; [exact HR | exact H]. Qed.

Lemma sim_throw {A B} (R : A -> B -> Prop) e1 e2 : sim R (throw e1) (throw e2).
Proof. intros w1 w2 H. split; [exact I | exact H]. Qed.

Lemma sim_bind {A A' B B'} (R : A -> A' -> Prop) (S : B -> B' -> Prop)
    (m1 : M A) (m2 : M A') (k1 : A -> M B) (k2 : A' -> M B') :
  sim R m1 m2 -> (forall a a', R a a' -> sim S (k1 a) (k2 a')) ->
  sim S (bind m1 k1) (bind m2 k2).
Proof.
  intros Hm Hk w1 w2 H. unfold bind. destruct (Hm w1 w2 H) as [Hr Hw].
  destruct (m1 w1) as [[e1|a] v1], (m2 w2) as [[e2|a'] v2]; cbn in Hr, Hw;
    try contradiction.
  - split; [exact I | exact Hw].
  - exact (Hk a a' Hr v1 v2 Hw).
Qed.

Lemma sim_try_catch {A B} (R : A -> B -> Prop) (m1 : M A) (m2 : M B) h1 h2 :
  sim R m1 m2 -> (forall e1 e2, sim R (h1 e1) (h2 e2)) ->
  sim R (try_catch m1 h1) (try_catch m2 h2).
Proof.
  intros Hm Hh w1 w2 H. unfold try_catch. destruct (Hm w1 w2 H) as [Hr Hw].
  destruct (m1 w1) as [[e1|a] v1], (m2 w2) as [[e2|a'] v2]; cbn in Hr, Hw;
    try contradiction.
  - exact (Hh e1 e2 v1 v2 Hw).
  - split; [exact Hr | exact Hw].
Qed.

Lemma sim_rethrow {A B} (R : A -> B -> Prop) (m1 : M A) (m2 : M B) wrap :
  sim R m1 m2 -> sim R (try_catch m1 (fun e => throw (wrap e))) m2.
Proof.
  intros Hm w1 w2 H. unfold try_catch. destruct (Hm w1 w2 H) as [Hr Hw].
  destruct (m1 w1) as [[e1|a] v1], (m2 w2) as [[e2|a'] v2]; cbn in Hr, Hw |- *;
    try contradiction; split; assumption.
Qed.

Lemma sim_for_of {A} (xs : list A) b1 b2 :
  (forall x, sim (@eq unit) (b1 x) (b2 x)) -> sim (@eq unit) (for_of xs b1) (for_of xs b2).
Proof.
  intros Hb. induction xs as [|x xs IH]; [apply sim_ret; reflexivity|].
  cbn [for_of]. apply (sim_bind eq); [apply Hb | intros _ _ _; exact IH].
Qed.

Lemma alike_log l1 l2 w1 w2 :
  visible l1 = visible l2 -> alike w1 w2 ->
  alike (snd (console_log l1 w1)) (snd (console_log l2 w2)).
Proof.
  intros Hl (Hf & Hp & He & Ht & Ho1 & Ho2). unfold alike, transcript, console_log in *.
  cbn. rewrite !omap_app. cbn. rewrite Hl, Ht. repeat split; assumption.
Qed.

Lemma alike_log_l l w1 w2 :
  visible l = None -> alike w1 w2 -> alike (snd (console_log l w1)) w2.
Proof.
  intros Hl (Hf & Hp & He & Ht & Ho1 & Ho2). unfold alike, transcript, console_log in *.
  cbn. rewrite omap_app. cbn. rewrite Hl, app_nil_r. repeat split; assumption.
Qed.

Lemma alike_sym w1 w2 : alike w1 w2 -> alike w2 w1.
Proof. intros (Hf & Hp & He & Ht & Ho1 & Ho2). repeat split; congruence. Qed.

Lemma sim_log l1 l2 : visible l1 = visible l2 -> sim (@eq unit) (console_log l1) (console_log l2).
Proof. intros Hl w1 w2 H. split; [reflexivity | exact (alike_log _ _ _ _ Hl H)]. Qed.

Lemma sim_log_l {A B} (R : A -> B -> Prop) l (m1 : M A) (m2 : M B) :
  visible l = None -> sim R m1 m2 -> sim R (console_log l ;;; m1) m2.
Proof.
  intros Hl Hm w1 w2 H. rewrite (bind_inr (console_log l) _ w1 tt _ eq_refl).
  apply Hm. exact (alike_log_l _ _ _ Hl H).
Qed.

(** Calls on the page, the disk and the clock do the same in alike worlds. *)
Lemma sim_get_page : state_only (get page).
Proof. intros w1 w2 H. split; [apply H | exact H]. Qed.

Lemma sim_update_page g : state_only (Browser.update_page g).
Proof.
  intros w1 w2 (Hf & Hp & He & Ht & Ho1 & Ho2).
  unfold Browser.update_page, set_page, alike, transcript in *. cbn.
  rewrite Hp. repeat split; assumption.
Qed.

Lemma sim_set_page p : state_only (set_page p).
Proof.
  intros w1 w2 (Hf & Hp & He & Ht & Ho1 & Ho2).
  unfold set_page, alike, transcript in *. cbn. repeat split; assumption.
Qed.

Lemma sim_draw : state_only draw.
Proof.
  intros w1 w2 (Hf & Hp & He & Ht & Ho1 & Ho2).
  unfold draw, alike, transcript in *. cbn. rewrite He. repeat split; assumption.
Qed.

Lemma sim_waitForTimeout ms : state_only (Browser.page_waitForTimeout ms).
Proof.
  intros w1 w2 H. pose proof H as (Hf & Hp & He & Ht & Ho1 & Ho2).
  unfold Browser.page_waitForTimeout. rewrite Hp.
  destruct (waitForTimeout ms (page w2)); [split; [exact I | exact H]|].
  apply sim_set_page. exact H.
Qed.

Lemma sim_screenshot path : state_only (Browser.page_screenshot path).
Proof.
  intros w1 w2 H. pose proof H as (Hf & Hp & He & Ht & Ho1 & Ho2).
  unfold Browser.page_screenshot. rewrite Hp.
  destruct (screenshot_error path (page w2)); [split; [exact I | exact H]|].
  unfold write_file, alike, transcript in *. cbn. rewrite Hf.
  repeat split; assumption.
Qed.

Lemma sim_ensureOutputDirectory o : state_only (Browser.ensureOutputDirectory o).
Proof.
  unfold Browser.ensureOutputDirectory.
  destruct (mkdir_error (output o)); [apply sim_throw | apply sim_ret; reflexivity].
Qed.

Lemma sim_open_context d : state_only (Browser.open_context d).
Proof.
  unfold Browser.open_context.
  destruct (newContext_error (contextOptions d)); [apply sim_throw | apply sim_set_page].
Qed.

Lemma sim_page_goto d o : state_only (Browser.page_goto d o).
Proof.
  unfold Browser.page_goto.
  destruct (goto (contextOptions d) o); [apply sim_throw | apply sim_set_page].
Qed.

Lemma sim_querySelector sel : state_only (Browser.querySelector sel).
Proof.
  unfold Browser.querySelector.
  apply (sim_bind eq); [apply sim_update_page | intros _ _ _].
  destruct (css_valid sel); [|apply sim_throw].
  apply (sim_bind eq); [apply sim_get_page | intros p ? <-; apply sim_ret; reflexivity].
Qed.

Lemma sim_getBoundingClientRect el : state_only (Browser.getBoundingClientRect el).
Proof.
  unfold Browser.getBoundingClientRect.
  apply (sim_bind eq); [apply sim_update_page | intros _ _ _].
  apply (sim_bind eq); [apply sim_get_page | intros p ? <-; apply sim_ret; reflexivity].
Qed.

Lemma sim_tag_children index cs : state_only (InPage.tag_children index cs).
Proof.
  revert index. induction cs as [|c cs IH]; intros index; [apply sim_ret; reflexivity|].
  cbn [InPage.tag_children].
  apply (sim_bind eq); [apply sim_update_page | intros _ _ _].
  apply (sim_bind eq); [apply IH | intros t ? <-; apply sim_ret; reflexivity].
Qed.

Lemma sim_childSelectors parent : state_only (InPage.childSelectors parent).
Proof.
  unfold InPage.childSelectors.
  apply (sim_bind eq); [apply sim_querySelector | intros [el|] ? <-];
    [|apply sim_ret; reflexivity].
  apply (sim_bind eq); [|intros cs ? <-; apply sim_tag_children].
  unfold Browser.element_children.
  apply (sim_bind eq); [apply sim_get_page | intros p ? <-; apply sim_ret; reflexivity].
Qed.

Lemma sim_tag_element sel : state_only (InPage.tag_element sel).
Proof.
  unfold InPage.tag_element.
  apply (sim_bind eq); [apply sim_querySelector | intros [el|] ? <-]; [|apply sim_throw].
  apply (sim_bind eq); [apply sim_draw | intros n ? <-].
  apply (sim_bind eq); [apply sim_update_page | intros _ _ _; apply sim_ret; reflexivity].
Qed.

Lemma sim_centerElement sel : state_only (InPage.centerElement sel).
Proof.
  unfold InPage.centerElement.
  apply (sim_bind eq); [apply sim_querySelector | intros [el|] ? <-];
    [|apply sim_ret; reflexivity].
  apply (sim_bind eq); [apply sim_getBoundingClientRect | intros rect ? <-].
  apply (sim_bind eq); [apply sim_get_page | intros p ? <-; apply sim_update_page].
Qed.

Lemma sim_adjustPosition sel : state_only (InPage.adjustPosition sel).
Proof.
  unfold InPage.adjustPosition.
  apply (sim_bind eq); [apply sim_querySelector | intros [el|] ? <-];
    [|apply sim_ret; reflexivity].
  apply (sim_bind eq); [apply sim_getBoundingClientRect | intros rect ? <-].
  apply (sim_bind eq); [apply sim_get_page | intros p ? <-].
  destruct (InPage.adjustment _ _); [apply sim_update_page | apply sim_ret; reflexivity].
Qed.

Lemma sim_triggerAnimation sel :
  sim (@eq unit) (Index.triggerAnimation sel) (Refactored.triggerAnimation sel).
Proof.
  unfold Index.triggerAnimation, InPage.triggerAnimation, Refactored.triggerAnimation,
    Refactored.centerElement, Refactored.adjustPosition.
  apply (sim_bind eq); [apply sim_centerElement | intros _ _ _].
  apply (sim_bind eq); [apply sim_waitForTimeout | intros _ _ _].
  apply (sim_bind eq); [apply sim_adjustPosition | intros _ _ _].
  apply sim_waitForTimeout.
Qed.

Lemma sim_rewriter sel :
  sim (@eq string) (Index.safeSelector sel) (Refactored.makeSelectorSafe sel).
Proof.
  unfold Index.safeSelector, Refactored.makeSelectorSafe. apply sim_rethrow.
  destruct (String.prefix _ _); [apply sim_ret; reflexivity | apply sim_tag_element].
Qed.

Lemma sim_processSelector o d sel :
  sim (@eq unit) (Index.processSelector o d sel) (Refactored.processSelector o sel d).
Proof.
  unfold Index.processSelector, Refactored.processSelector, Index.attempt, Refactored.attempt.
  apply (sim_bind eq); [apply sim_log; reflexivity | intros _ _ _].
  apply sim_try_catch; [|intros e1 e2; apply sim_log; reflexivity].
  apply (sim_bind eq); [apply sim_rewriter | intros safe ? <-].
  apply (sim_bind eq).
  { destruct (animationTrigger o); [|apply sim_ret; reflexivity].
    apply (sim_bind eq); [apply sim_log; reflexivity | intros _ _ _].
    apply sim_triggerAnimation. }
  intros _ _ _. apply (sim_bind eq); [apply sim_log; reflexivity | intros _ _ _].
  apply (sim_bind eq); [apply sim_waitForTimeout | intros _ _ _].
  apply (sim_bind eq); [apply sim_screenshot | intros _ _ _].
  apply sim_log; reflexivity.
Qed.
End Simulation.

Section SideBySide.
Context {E : Env}.

Lemma bind_assoc {A B C} (m : M A) (k : A -> M B) (h : B -> M C) w :
  bind (bind m k) h w = bind m (fun a => bind (k a) h) w.
Proof. unfold bind. destruct (m w) as [[e|a] w1]; reflexivity. Qed.

Lemma sim_ext {A B} (R : A -> B -> Prop) (m1 m1' : M A) (m2 m2' : M B) :
  (forall w, m1 w = m1' w) -> (forall w, m2 w = m2' w) ->
  sim R m1' m2' -> sim R m1 m2.
Proof. intros H1 H2 Hs w1 w2 H. rewrite H1, H2. exact (Hs w1 w2 H). Qed.

Lemma sim_log_r {A B} (R : A -> B -> Prop) l (m1 : M A) (m2 : M B) :
  visible l = None -> sim R m1 m2 -> sim R m1 (console_log l ;;; m2).
Proof.
  intros Hl Hm w1 w2 H. rewrite (bind_inr (console_log l) _ w2 tt _ eq_refl).
  apply Hm. apply alike_sym. apply alike_log_l; [exact Hl | apply alike_sym; exact H].
Qed.

Lemma sim_strengthen {A B} (R : A -> B -> Prop) (P : A -> Prop) (m1 : M A) (m2 : M B) :
  sim R m1 m2 -> (forall w a, fst (m1 w) = inr a -> P a) ->
  sim (fun a b => R a b /\ P a) m1 m2.
Proof.
  intros Hs HP w1 w2 H. destruct (Hs w1 w2 H) as [Hr Hw]. split; [|exact Hw].
  specialize (HP w1). destruct (m1 w1) as [[e|a] v1], (m2 w2) as [[e2|b] v2];
    cbn in *; try contradiction; auto.
Qed.

Lemma sim_weaken {A B} (R S : A -> B -> Prop) (m1 : M A) (m2 : M B) :
  (forall a b, R a b -> S a b) -> sim R m1 m2 -> sim S m1 m2.
Proof.
  intros HRS Hs w1 w2 H. destruct (Hs w1 w2 H) as [Hr Hw]. split; [|exact Hw].
  destruct (m1 w1) as [[e|a] v1], (m2 w2) as [[e2|b] v2]; cbn in *; auto.
Qed.

(** The resolved list, starting from the list both files load. *)
Lemma sim_merge o L :
  sim (@eq (list string))
    match truthy (parentSelector o) with
    | Some parent =>
        console_log (FindingChildren parent) ;;;
        childSelectors <- InPage.childSelectors parent ;;
        console_log (FoundChildren (length childSelectors)) ;;;
        ret (JSSet.to_array (JSSet.of_iterable (L ++ childSelectors)))
    | None => ret L
    end
    match truthy (parentSelector o) with
    | Some parent =>
        console_log (FindingChildren parent) ;;;
        childSelectors <- InPage.childSelectors parent ;;
        ret (JSSet.to_array (JSSet.of_iterable (L ++ childSelectors)))
    | None => ret L
    end.
Proof.
  destruct (truthy (parentSelector o)) as [parent|]; [|apply sim_ret; reflexivity].
  apply (sim_bind eq); [apply sim_log; reflexivity | intros _ _ _].
  apply (sim_bind eq); [apply sim_childSelectors | intros cs ? <-].
  apply sim_log_l; [reflexivity | apply sim_ret; reflexivity].
Qed.

Lemma sim_resolution o :
  sim (@eq (list string)) (Index.withChildren o (base_selectors o))
    (Refactored.getSelectors o).
Proof.
  unfold Index.withChildren, Refactored.getSelectors, Refactored.getChildSelectors,
    Refactored.loadSelectorsFromConfig, base_selectors.
  pose proof (sim_merge o) as Hmerge.
  destruct (truthy (config o)) as [path|].
  - destruct (readConfig path) as [e|e|e|sels].
    1-3: refine (sim_ext _ _ _ _ _ (fun w => eq_refl) _
                   (sim_log_r _ (ErrorReadingConfig e) _ _ eq_refl (Hmerge [])));
      intros w; destruct (truthy (parentSelector o)); reflexivity.
    refine (sim_ext _ _ _ _ _ (fun w => eq_refl) _ (Hmerge (default [] sels))).
    intros w; destruct (truthy (parentSelector o)); reflexivity.
  - refine (sim_ext _ _ _ _ _ (fun w => eq_refl) _ (Hmerge (default [] (selectors o)))).
    intros w; destruct (truthy (parentSelector o)); reflexivity.
Qed.

Lemma sim_createBrowserContext d :
  sim (@eq unit) (Browser.open_context d) (Refactored.createBrowserContext d).
Proof.
  intros w1 w2 H. pose proof H as (_ & _ & _ & _ & _ & Ho2).
  unfold Refactored.createBrowserContext, bind, get. cbn. rewrite Ho2.
  exact (sim_open_context d w1 w2 H).
Qed.

Lemma sim_prepare o d :
  sim (@eq (list string)) (Index.prepare o d (base_selectors o)) (Refactored.prepare o d).
Proof.
  unfold Index.prepare, Refactored.prepare, Refactored.setupPage.
  apply (sim_bind eq); [apply sim_log; reflexivity | intros _ _ _].
  apply (sim_bind eq); [apply sim_createBrowserContext | intros _ _ _].
  eapply sim_ext; [intros w; reflexivity | intros w; apply bind_assoc |].
  apply (sim_bind eq); [apply sim_log; reflexivity | intros _ _ _].
  eapply sim_ext; [intros w; reflexivity | intros w; apply bind_assoc |].
  apply (sim_bind eq); [apply sim_page_goto | intros _ _ _].
  apply (sim_bind eq); [apply sim_log; reflexivity | intros _ _ _].
  apply (sim_bind eq); [apply sim_resolution | intros sels ? <-].
  apply (sim_bind eq); [apply sim_ensureOutputDirectory | intros _ _ _].
  apply sim_ret; reflexivity.
Qed.

Lemma sim_pass o d :
  sim (fun (_ : list string) (_ : unit) => True)
    (Index.devicePass o (base_selectors o) d) (Refactored.processDevice o d).
Proof.
  unfold Index.devicePass, Refactored.processDevice.
  apply (sim_bind eq); [apply sim_prepare | intros sels ? <-].
  apply (sim_bind eq); [apply sim_for_of; intros sel; apply sim_processSelector|].
  intros _ _ _ w1 w2 H. split; [exact I|].
  exact (proj2 (sim_set_page blank w1 w2 H)).
Qed.
End SideBySide.

Section SameRuns.
Context {E : Env}.

Lemma index_pass_keeps_list o d L w L' :
  truthy (parentSelector o) = None ->
  fst (Index.devicePass o L d w) = inr L' -> L' = L.
Proof.
  intros Hparent. rewrite index_pass_outcome.
  unfold Index.prepare, Index.withChildren. rewrite Hparent.
  destruct ((console_log (ProcessingDevice d) ;;; Browser.open_context d ;;;
             console_log (Navigating (url o) (Text (navigationTimeoutText o))) ;;;
             Browser.page_goto d o ;;;
             console_log PageLoaded ;;; selectors <- ret L ;;
             Browser.ensureOutputDirectory o ;;; ret selectors) w)
    as [[e|L0] w1] eqn:Hp; cbn [fst]; [discriminate|].
  intros H. injection H as <-.
  apply bind_inv in Hp as (_ & v1 & _ & Hp). apply bind_inv in Hp as (_ & v2 & _ & Hp).
  apply bind_inv in Hp as (_ & v3 & _ & Hp). apply bind_inv in Hp as (_ & v4 & _ & Hp).
  apply bind_inv in Hp as (_ & v5 & _ & Hp). apply bind_inv in Hp as (L1 & v6 & HL & Hp).
  apply bind_inv in Hp as (_ & v7 & _ & Hp).
  unfold ret in HL, Hp. congruence.
Qed.

Lemma sim_passes_without_parent o ds :
  truthy (parentSelector o) = None ->
  sim (fun (_ _ : unit) => True)
    (Index.devicePasses o ds (base_selectors o)) (for_of ds (Refactored.processDevice o)).
Proof.
  intros Hparent. induction ds as [|d ds IH]; [apply sim_ret; exact I|].
  cbn [Index.devicePasses for_of].
  apply (sim_bind (fun L' (_ : unit) => True /\ L' = base_selectors o)).
  - apply sim_strengthen; [apply sim_pass|].
    intros w a Ha. exact (index_pass_keeps_list o d _ w a Hparent Ha).
  - intros L' _ [_ ->]. exact IH.
Qed.

Lemma sim_passes_single o d :
  sim (fun (_ _ : unit) => True)
    (Index.devicePasses o [d] (base_selectors o)) (for_of [d] (Refactored.processDevice o)).
Proof.
  cbn [Index.devicePasses for_of].
  apply (sim_bind (fun (_ : list string) (_ : unit) => True)); [apply sim_pass|].
  intros _ _ _. apply sim_ret. exact I.
Qed.

Lemma sim_try_blocks o :
  truthy (parentSelector o) = None \/ (exists d, deviceTypes o = [d]) ->
  sim (fun (_ _ : unit) => True)
    (selectors <- Index.getSelectors o ;;
     Index.devicePasses o (deviceTypes o) selectors)
    (for_of (Refactored.getDeviceTypes o) (Refactored.processDevice o)).
Proof.
  intros Hcase. unfold Refactored.getDeviceTypes.
  assert (sim (fun (_ _ : unit) => True)
            (Index.devicePasses o (deviceTypes o) (base_selectors o))
            (for_of (deviceTypes o) (Refactored.processDevice o))) as Hpasses.
  { destruct Hcase as [Hparent|(d & ->)];
      [apply sim_passes_without_parent, Hparent | apply sim_passes_single]. }
  revert Hpasses. unfold Index.getSelectors, base_selectors.
  destruct (truthy (config o)) as [path|]; [|intros H; exact H].
  destruct (readConfig path) as [e|e|e|sels]; intros H; try exact H;
    refine (sim_ext _ _ _ _ _ (fun w => eq_refl) (fun w => eq_refl)
              (sim_log_l _ (ErrorReadingConfig e) _ _ eq_refl H)).
Qed.

(** With an output directory given, [parseCommandLineOptions] hands the
    options on as they are. *)
Lemma parseCommandLineOptions_given o :
  output o <> ""%string -> Refactored.parseCommandLineOptions o = o.
Proof.
  intros Hout. apply String.eqb_neq in Hout.
  destruct o. unfold Refactored.parseCommandLineOptions. cbn in *.
  rewrite Hout, orb_false_r. reflexivity.
Qed.

Lemma runs_agree o w :
  truthy (parentSelector o) = None \/ (exists d, deviceTypes o = [d]) ->
  let w1 := snd (Index.captureScreenshots o w) in
  let w2 := snd (Refactored.start o w) in
  files w1 = files w2 /\ transcript w1 = transcript w2
  /\ page w1 = page w2 /\ entropy w1 = entropy w2.
Proof.
  intros Hcase. cbv zeta. unfold Index.captureScreenshots, Refactored.start.
  rewrite !(bind_inr (set_browser true) _ w tt (snd (set_browser true w)) eq_refl).
  assert (alike (snd (set_browser true w)) (snd (set_browser true w))) as H0
    by (repeat split).
  pose proof (sim_try_catch _ _ _
                (fun error => console_error (ErrorCapturing error)) Refactored.handleError
                (sim_try_blocks o Hcase)
                (fun e1 e2 => sim_weaken eq _ _ _ (fun _ _ _ => I)
                                (sim_log (ErrorCapturing e1) (ErrorCapturing e2) eq_refl))
                _ _ H0) as [_ Hw].
  unfold try_finally. cbv zeta in Hw |- *.
  destruct (try_catch _ _ (snd (set_browser true w))) as [r1 v1].
  destruct (try_catch _ Refactored.handleError (snd (set_browser true w))) as [r2 v2].
  cbn [snd] in Hw. destruct Hw as (Hf & Hp & He & Ht & Ho1 & Ho2).
  unfold Refactored.cleanup, bind, get, ret, set_browser. cbn. rewrite Ho2. cbn.
  repeat split; assumption.
Qed.
End SameRuns.

Section RewriterCases.
Context {E : Env}.

Lemma rewriter_miss sel w :
  authored sel ->
  css_valid sel = true ->
  find_index (css_matches sel) (nodes (page w)) = None ->
  (exists w',
      Refactored.makeSelectorSafe sel w = (inl (ElementNotFound sel), w')
      /\ nodes (page w') = nodes (page w) /\ entropy w' = entropy w
      /\ console w' = console w /\ files w' = files w)
  /\ (exists w',
        Index.safeSelector sel w
        = (inl (FailedToProcess sel (ElementNotFound sel)), w')
        /\ nodes (page w') = nodes (page w) /\ entropy w' = entropy w
        /\ console w' = console w /\ files w' = files w).
Proof.
  intros Hauth Hv Hnone. unfold authored in Hauth.
  destruct (tag_element_miss sel w Hv Hnone) as (w' & Hrun & Hn & Hc & Hf & He).
  unfold Refactored.makeSelectorSafe, Index.safeSelector, try_catch. rewrite Hauth, Hrun.
  split; exists w'; split; try reflexivity; repeat split; assumption.
Qed.

Lemma rewriter_hit sel w el :
  authored sel ->
  css_valid sel = true ->
  find_index (css_matches sel) (nodes (page w)) = Some el ->
  let safeId := ("screenshot-" +:+ Date_now (entropy w) +:+ "-"
                 +:+ Math_random_36 (entropy w))%string in
  (exists x, nodes (page w) !! el = Some x /\ css_matches sel x = true)
  /\ (forall j y, j < el -> nodes (page w) !! j = Some y -> css_matches sel y = false)
  /\ exists w',
      Refactored.makeSelectorSafe sel w = (inr (locator safeId), w')
      /\ Index.safeSelector sel w = (inr (locator safeId), w')
      /\ nodes (page w') = alter (Browser.set_data_screenshot safeId) el (nodes (page w))
      /\ entropy w' = S (entropy w)
      /\ console w' = console w /\ files w' = files w.
Proof.
  intros Hauth Hv Hfind. cbv zeta. unfold authored in Hauth.
  destruct (find_index_first _ _ _ Hfind) as [Hel Hfirst].
  split; [exact Hel|]. split; [exact Hfirst|].
  destruct (tag_element_hit sel w el Hv Hfind) as (w' & Hrun & Hn & He & Hc & Hf).
  cbv zeta in *.
  unfold Refactored.makeSelectorSafe, Index.safeSelector, try_catch. rewrite Hauth, Hrun.
  exists w'. repeat split; assumption.
Qed.

Lemma resolution_with_children o parent L w :
  truthy (parentSelector o) = Some parent ->
  css_valid parent = true ->
  NoDup L -> Forall authored L ->
  let resolved := L ++ targets 0 (length (children_of parent (page w))) in
  fst (Index.withChildren o L w) = inr resolved
  /\ (forall w1, Refactored.loadSelectorsFromConfig o w = (inr L, w1) ->
        fst (Refactored.getSelectors o w) = inr resolved)
  /\ NoDup resolved
  /\ length resolved = length L + length (children_of parent (page w)).
Proof.
  intros Hp Hv Hnd Hauth. cbv zeta.
  pose proof (index_withChildren_carried o parent L 0 w Hp Hv Hnd Hauth) as HI.
  change (targets 0 0) with (@nil string) in HI. rewrite app_nil_r in HI. cbn [Nat.max] in HI.
  split; [exact HI|].
  split; [intros w1 HL; exact (refactored_getSelectors_children o parent L w w1 Hp Hv HL Hnd Hauth)|].
  split.
  - apply NoDup_app. split; [exact Hnd|]. split; [|apply NoDup_targets].
    intros x Hx Ht. apply elem_of_targets in Ht as (k & _ & ->).
    exact (authored_not_target L k Hauth Hx).
  - rewrite length_app. unfold targets. rewrite length_map, length_seq. reflexivity.
Qed.

Lemma expander_result parent w el n :
  css_valid parent = true ->
  find_index (css_matches parent) (nodes (page w)) = Some el ->
  nodes (page w) !! el = Some n ->
  NoDup (children n) ->
  let after := nodes (page (snd (InPage.childSelectors parent w))) in
  fst (InPage.childSelectors parent w) = inr (targets 0 (length (children n)))
  /\ NoDup (targets 0 (length (children n)))
  /\ length after = length (nodes (page w))
  /\ (forall i, i ∉ children n -> after !! i = nodes (page w) !! i)
  /\ (forall k c, children n !! k = Some c ->
        after !! c = Browser.set_data_screenshot (token k) <$> nodes (page w) !! c).
Proof.
  intros Hv Hfind Hn Hnd. cbv zeta.
  destruct (childSelectors_found parent w Hv) as (w' & Hrun & _).
  unfold children_of in Hrun. rewrite Hfind, Hn in Hrun.
  split; [rewrite Hrun; reflexivity|]. split; [apply NoDup_targets|].
  exact (childSelectors_marks parent w el n Hv Hfind Hn Hnd).
Qed.
End RewriterCases.

(** ** Resolution and the list the expander returned *)

Section ResolutionTied.
Context {E : Env}.






End ResolutionTied.




(** ** Failures of one selector *)



(** ** Further properties of the code *)

(** X1: whatever the selector, the part of the file name before the device
    suffix consists of lower-case letters, digits and underscores only, has no
    two underscores in a row, and neither starts nor ends with an
    underscore. *)
Theorem X1_filename_stem_shape (selector : string) :
  let stem := cleanSelector selector in
  forallb filename_char stem = true
  /\ FilenameSpec.no_double stem
  /\ (forall c rest, stem = c :: rest -> JS.is_underscore c = false)
  /\ (forall pre c, stem = pre ++ [c] -> JS.is_underscore c = false).
Proof. exact (stem_shape selector). Qed.

(** X2: the letters and digits of the selector are all in the file name, in
    their order and lower-cased, and they are its only characters besides
    underscores. *)
Theorem X2_filename_keeps_letters_and_digits (selector : string) :
  List.filter not_underscore (cleanSelector selector) = map JS.lower (alnums selector).
Proof. exact (stem_letters selector). Qed.

(** X3: the part before the suffix is empty exactly when the selector has no
    letter and no digit; every such selector ([*], [> *], [#], ...) is saved as
    [__<device>.png]. *)
Theorem X3_filename_stem_empty_iff (selector : string) :
  (cleanSelector selector = [] <-> alnums selector = [])
  /\ (alnums selector = [] ->
      forall d, generateFilename selector d = ("__" +:+ device_name d +:+ ".png")%string).
Proof.
  split; [exact (stem_empty_iff selector)|].
  intros H d. apply stem_empty_iff in H. unfold generateFilename. rewrite H. reflexivity.
Qed.

Lemma X3_symbols_witness :
  alnums "> *" = []
  /\ generateFilename "> *" desktop = "__desktop.png"%string.
Proof.
  split; [reflexivity|].
  exact (proj2 (X3_filename_stem_empty_iff "> *") eq_refl desktop).
Defined.

(** X4: two captures get the same file name exactly when they are for the
    same device and their selectors clean to the same characters; captures
    for different devices never share a name. *)
Theorem X4_filename_equal_iff (s s' : string) (d d' : DeviceType) :
  generateFilename s d = generateFilename s' d'
  <-> d = d' /\ cleanSelector s = cleanSelector s'.
Proof. exact (filename_equal_iff s s' d d'). Qed.

(** X5: cleaning is idempotent: the cleaned name of a cleaned name is itself. *)
Theorem X5_filename_stem_idempotent (selector : string) :
  cleanSelector (string_of_list_ascii (cleanSelector selector)) = cleanSelector selector.
Proof. exact (stem_idempotent selector). Qed.

(** X6: when the parent selector finds an element, the expander returns one
    locator per child, [screenshot-target-0], [-1], ... in document order, all
    different; each child then carries the token of its index as its
    [data-screenshot] attribute, and every other node of the page is as it
    was. *)
Theorem X6_expander_tags_children {E : Env} (parent : string) (w : World)
    (el : nat) (n : Node) :
  css_valid parent = true ->
  find_index (css_matches parent) (nodes (page w)) = Some el ->
  nodes (page w) !! el = Some n ->
  NoDup (children n) ->
  let after := nodes (page (snd (InPage.childSelectors parent w))) in
  fst (InPage.childSelectors parent w) = inr (targets 0 (length (children n)))
  /\ NoDup (targets 0 (length (children n)))
  /\ length after = length (nodes (page w))
  /\ (forall i, i ∉ children n -> after !! i = nodes (page w) !! i)
  /\ (forall k c, children n !! k = Some c ->
        after !! c = Browser.set_data_screenshot (token k) <$> nodes (page w) !! c).
Proof. exact (expander_result parent w el n). Qed.

Lemma X6_expander_witness :
  let w := Demo.loaded desktop (Demo.cards both) in
  fst (@InPage.childSelectors Demo.E "#cards" w) = inr [target 0; target 1]
  /\ nodes (page (snd (@InPage.childSelectors Demo.E "#cards" w))) !! 6
     = Some (Browser.set_data_screenshot (token 1) (Demo.element ".card" [] 2000 400)).
Proof.
  cbv zeta.
  assert (NoDup [5; 6]) as Hnd.
  { apply NoDup_cons. split; [intros H; apply list_elem_of_singleton in H; discriminate|].
    apply NoDup_singleton. }
  pose proof (@X6_expander_tags_children Demo.E "#cards"
                (Demo.loaded desktop (Demo.cards both)) 4
                (Demo.element "#cards" [5; 6] 1600 800) eq_refl eq_refl eq_refl Hnd)
    as (Hrun & _ & _ & _ & Hmark).
  split; [exact Hrun|]. exact (Hmark 1 6 eq_refl).
Defined.

(** X7: with a parent selector the page accepts, a base list without repeats
    and without synthetic locators is resolved, in both files, to itself
    followed by the locators of the parent's children: [|base| + N] selectors,
    all different. *)
Theorem X7_resolution_appends_children {E : Env} (o : Options) (parent : string)
    (L : list string) (w : World) :
  truthy (parentSelector o) = Some parent ->
  css_valid parent = true ->
  NoDup L -> Forall authored L ->
  let resolved := L ++ targets 0 (length (children_of parent (page w))) in
  fst (Index.withChildren o L w) = inr resolved
  /\ (forall w1, Refactored.loadSelectorsFromConfig o w = (inr L, w1) ->
        fst (Refactored.getSelectors o w) = inr resolved)
  /\ NoDup resolved
  /\ length resolved = length L + length (children_of parent (page w)).
Proof. exact (resolution_with_children o parent L w). Qed.

Lemma X7_resolution_witness :
  let o := Demo.cards both in
  let w := Demo.loaded desktop o in
  fst (@Index.withChildren Demo.E o [".present"%string] w)
  = inr [".present"%string; target 0; target 1]
  /\ fst (@Refactored.getSelectors Demo.E o w)
     = inr [".present"%string; target 0; target 1].
Proof.
  cbv zeta.
  assert (NoDup [".present"%string]) as Hnd by apply NoDup_singleton.
  assert (Forall authored [".present"%string]) as Hauth
    by (apply Forall_singleton; reflexivity).
  pose proof (@X7_resolution_appends_children Demo.E (Demo.cards both) "#cards"
                [".present"%string] (Demo.loaded desktop (Demo.cards both))
                eq_refl eq_refl Hnd Hauth) as (HI & HR & _).
  split; [exact HI|]. exact (HR _ eq_refl).
Defined.



(** X9: for a selector that is not a synthetic locator and matches no element,
    the rewriter throws the element-not-found error, bare in the class variant
    and wrapped in [Failed to process selector] in [src/index.ts]; it changes
    no node, draws no token and writes nothing. *)
Theorem X9_rewriter_missing_element {E : Env} (sel : string) (w : World) :
  authored sel ->
  css_valid sel = true ->
  find_index (css_matches sel) (nodes (page w)) = None ->
  (exists w',
      Refactored.makeSelectorSafe sel w = (inl (ElementNotFound sel), w')
      /\ nodes (page w') = nodes (page w) /\ entropy w' = entropy w
      /\ console w' = console w /\ files w' = files w)
  /\ (exists w',
        Index.safeSelector sel w
        = (inl (FailedToProcess sel (ElementNotFound sel)), w')
        /\ nodes (page w') = nodes (page w) /\ entropy w' = entropy w
        /\ console w' = console w /\ files w' = files w).
Proof. exact (rewriter_miss sel w). Qed.

Lemma X9_rewriter_missing_witness :
  let w := Demo.loaded desktop (Demo.missing_present both) in
  fst (@Refactored.makeSelectorSafe Demo.E ".missing" w) = inl (ElementNotFound ".missing")
  /\ fst (@Index.safeSelector Demo.E ".missing" w)
     = inl (FailedToProcess ".missing" (ElementNotFound ".missing")).
Proof.
  cbv zeta.
  destruct (@X9_rewriter_missing_element Demo.E ".missing"
              (Demo.loaded desktop (Demo.missing_present both)) eq_refl eq_refl eq_refl)
    as ((w1 & H1 & _) & (w2 & H2 & _)).
  rewrite H1, H2. split; reflexivity.
Defined.

(** X10: for a selector that is not a synthetic locator and matches, the
    rewriter tags the first matching element in document order, and only it,
    with the token [screenshot-<time>-<random>] made of the clock and the
    random value it draws in that call, in place of whatever
    [data-screenshot] value the element had; it returns the locator of that
    token and uses up one draw of time and randomness. *)
Theorem X10_rewriter_tags_first_match {E : Env} (sel : string) (w : World) (el : nat) :
  authored sel ->
  css_valid sel = true ->
  find_index (css_matches sel) (nodes (page w)) = Some el ->
  let safeId := ("screenshot-" +:+ Date_now (entropy w) +:+ "-"
                 +:+ Math_random_36 (entropy w))%string in
  (exists x, nodes (page w) !! el = Some x /\ css_matches sel x = true)
  /\ (forall j y, j < el -> nodes (page w) !! j = Some y -> css_matches sel y = false)
  /\ exists w',
      Refactored.makeSelectorSafe sel w = (inr (locator safeId), w')
      /\ Index.safeSelector sel w = (inr (locator safeId), w')
      /\ nodes (page w') = alter (Browser.set_data_screenshot safeId) el (nodes (page w))
      /\ (exists x, nodes (page w') !! el = Some x /\ data_screenshot x = Some safeId)
      /\ entropy w' = S (entropy w)
      /\ console w' = console w /\ files w' = files w.
Proof.
  intros Hauth Hvalid Hfind.
  destruct (rewriter_hit sel w el Hauth Hvalid Hfind)
    as (Hx & Hfirst & w' & HR & HI & Hnodes & Hent & Hcon & Hfiles).
  split; [exact Hx|]. split; [exact Hfirst|].
  exists w'. split; [exact HR|]. split; [exact HI|]. split; [exact Hnodes|].
  split; [|auto]. destruct Hx as (x & Hx & _).
  exists (Browser.set_data_screenshot
            ("screenshot-" +:+ Date_now (entropy w) +:+ "-" +:+ Math_random_36 (entropy w)) x).
  split; [|reflexivity]. rewrite Hnodes, list_lookup_alter_eq, Hx. reflexivity.
Qed.

Lemma X10_rewriter_witness :
  let w := Demo.loaded desktop (Demo.missing_present both) in
  fst (@Refactored.makeSelectorSafe Demo.E ".hero" w)
  = inr (locator "screenshot-170000000000-k3f0").
Proof.
  cbv zeta.
  destruct (@X10_rewriter_tags_first_match Demo.E ".hero"
              (Demo.loaded desktop (Demo.missing_present both)) 2 eq_refl eq_refl eq_refl)
    as (_ & _ & w' & H & _).
  rewrite H. reflexivity.
Defined.

(** X11: a run of either file returns normally and leaves the browser closed,
    whatever the page, the timers, the disk and the config file do. *)
Theorem X11_run_returns_and_closes_browser {E : Env} (o : Options) (w : World) :
  (fst (Index.captureScreenshots o w) = inr tt
   /\ browserOpen (snd (Index.captureScreenshots o w)) = false)
  /\ (fst (Refactored.start o w) = inr tt
      /\ browserOpen (snd (Refactored.start o w)) = false).
Proof. split; [apply index_run_ends | apply refactored_run_ends]. Qed.

(** X12: processing one selector ends in exactly one of two ways, in both
    files: the page as it then is has been saved under the path derived from
    the original selector and the device, and the save is announced; or no
    file has changed and one failure is reported for that selector. *)
Theorem X12_selector_saved_or_reported {E : Env} (o : Options) (d : DeviceType)
    (sel : string) (w : World) :
  let path := path_join (output o) (generateFilename sel d) in
  (let w' := snd (Index.processSelector o d sel w) in
   (files w' = <[path := page w']> (files w)
    /\ saves w' = saves w ++ [path]
    /\ selector_errors w' = selector_errors w)
   \/ (exists e,
         files w' = files w /\ saves w' = saves w
         /\ selector_errors w' = selector_errors w ++ [(sel, e)]))
  /\ (let w' := snd (Refactored.processSelector o sel d w) in
      (files w' = <[path := page w']> (files w)
       /\ saves w' = saves w ++ [path]
       /\ selector_errors w' = selector_errors w)
      \/ (exists e,
            files w' = files w /\ saves w' = saves w
            /\ selector_errors w' = selector_errors w ++ [(sel, e)])).
Proof.
  cbv zeta. split;
    [apply index_processSelector_outcome | apply refactored_processSelector_outcome].
Qed.

(** X13: a selector loop removes no file, adds files only under the paths
    derived from its own selectors, and ends each of its selectors as one
    announced save or one reported failure. *)
Theorem X13_loop_files_and_count {E : Env} (o : Options) (d : DeviceType)
    (sels : list string) (w : World) :
  (let w' := snd (for_of sels (Index.processSelector o d) w) in
   dom (files w) ⊆ dom (files w')
   /\ (forall p, p ∈ dom (files w') ->
         p ∈ dom (files w) \/ exists sel, sel ∈ sels /\ p = capture_path o d sel)
   /\ settled w' = settled w + length sels)
  /\ (let w' := snd (for_of sels
                       (fun selector => Refactored.processSelector o selector d) w) in
      dom (files w) ⊆ dom (files w')
      /\ (forall p, p ∈ dom (files w') ->
            p ∈ dom (files w) \/ exists sel, sel ∈ sels /\ p = capture_path o d sel)
      /\ settled w' = settled w + length sels).
Proof.
  cbv zeta. split.
  - destruct (index_loop_files o d sels w) as [H1 H2]. split; [exact H1|].
    split; [exact H2|].
    apply (settled_loop (Index.processSelector o d) sels
             (index_processSelector_returns o d)
             (fun sel w0 => settled_step _ _ _ sel
                              (index_processSelector_outcome o d sel w0))).
  - destruct (refactored_loop_files o d sels w) as [H1 H2]. split; [exact H1|].
    split; [exact H2|].
    apply (settled_loop (fun selector => Refactored.processSelector o selector d) sels
             (fun sel w0 => refactored_processSelector_returns o sel d w0)
             (fun sel w0 => settled_step _ _ _ sel
                              (refactored_processSelector_outcome o sel d w0))).
Qed.

(** X14: when the selectors come from the command line (no config file is
    named) and no parent selector is given, and every requested device gets
    its context, its page and the output directory, a run of either file
    starts the devices in their order, starts on every selector of the command
    line once per device, device by device, ends each as one save or one
    reported failure, and reports no fatal error. *)
Theorem X14_run_attempts_every_selector_per_device {E : Env} (o : Options) (w : World) :
  truthy (config o) = None ->
  truthy (parentSelector o) = None ->
  Forall (ready o) (deviceTypes o) ->
  let L := default [] (selectors o) in
  (let w' := snd (Index.captureScreenshots o w) in
   processed w' = processed w ++ per_device (deviceTypes o) L
   /\ device_lines w' = device_lines w ++ deviceTypes o
   /\ fatal_errors w' = fatal_errors w
   /\ settled w' = settled w + length (deviceTypes o) * length L)
  /\ (let w' := snd (Refactored.start o w) in
      processed w' = processed w ++ per_device (deviceTypes o) L
      /\ device_lines w' = device_lines w ++ deviceTypes o
      /\ fatal_errors w' = fatal_errors w
      /\ settled w' = settled w + length (deviceTypes o) * length L).
Proof.
  intros Hconfig Hparent Hready. cbv zeta.
  assert (base_selectors o = default [] (selectors o)) as <-
    by (unfold base_selectors; rewrite Hconfig; reflexivity).
  split;
    [exact (index_run_all o w Hparent Hready) | exact (refactored_run_all o w Hparent Hready)].
Qed.

Lemma X14_run_witness :
  let o := Demo.missing_present both in
  processed (snd (@Index.captureScreenshots Demo.E o initial))
  = [".missing"; ".present"; ".missing"; ".present"]%string
  /\ device_lines (snd (@Refactored.start Demo.E o initial)) = [desktop; mobile].
Proof.
  cbv zeta.
  assert (Forall (@ready Demo.E (Demo.missing_present both)) [desktop; mobile]) as Hready.
  { repeat constructor; eexists; reflexivity. }
  destruct (@X14_run_attempts_every_selector_per_device Demo.E (Demo.missing_present both)
              initial eq_refl eq_refl Hready) as ((H1 & _) & (_ & H2 & _)).
  split; [exact H1 | exact H2].
Defined.

(** X15: when navigation fails for a device after the devices before it went
    through (no parent selector), the run of either file stops there: the
    selectors of the earlier devices have been processed, the failing device
    is started but none of its selectors, no later device is started, and the
    error is reported once as fatal. *)
Theorem X15_navigation_failure_aborts_run {E : Env} (o : Options)
    (pre : list DeviceType) (d : DeviceType) (rest : list DeviceType) (e : Error)
    (w : World) :
  deviceTypes o = pre ++ d :: rest ->
  truthy (parentSelector o) = None ->
  Forall (ready o) pre ->
  newContext_error (contextOptions d) = None ->
  goto (contextOptions d) o = inl e ->
  (let w' := snd (Index.captureScreenshots o w) in
   device_lines w' = device_lines w ++ pre ++ [d]
   /\ processed w' = processed w ++ per_device pre (base_selectors o)
   /\ fatal_errors w' = fatal_errors w ++ [e]
   /\ settled w' = settled w + length pre * length (base_selectors o))
  /\ (let w' := snd (Refactored.start o w) in
      device_lines w' = device_lines w ++ pre ++ [d]
      /\ processed w' = processed w ++ per_device pre (base_selectors o)
      /\ fatal_errors w' = fatal_errors w ++ [e]
      /\ settled w' = settled w + length pre * length (base_selectors o)).
Proof.
  intros Hds Hparent Hready Hctx Hgoto. split;
    [exact (index_run_aborts o pre d rest e w Hds Hparent Hready Hctx Hgoto)
    | exact (refactored_run_aborts o pre d rest e w Hds Hparent Hready Hctx Hgoto)].
Qed.

Lemma X15_outage_witness :
  let o := Demo.missing_present both in
  fatal_errors (snd (@Refactored.start Outage.E o initial)) = [Outage.refused]
  /\ processed (snd (@Refactored.start Outage.E o initial)) = [".missing"; ".present"]%string
  /\ device_lines (snd (@Index.captureScreenshots Outage.E o initial)) = [desktop; mobile].
Proof.
  cbv zeta.
  assert (Forall (@ready Outage.E (Demo.missing_present both)) [desktop]) as Hready.
  { repeat constructor; eexists; reflexivity. }
  destruct (@X15_navigation_failure_aborts_run Outage.E (Demo.missing_present both)
              [desktop] mobile [] Outage.refused initial eq_refl eq_refl Hready
              eq_refl eq_refl) as ((H1 & _) & (_ & H2 & H3 & _)).
  split; [exact H3|]. split; [exact H2 | exact H1].
Defined.

(** X16: the two phases of the centering heuristic read the page and scroll
    it, nothing else: they throw only for a selector the page rejects, they
    leave every node, the viewport height and the document height as they
    were, write nothing to the console or the disk, and Phase A does not move
    the scroll offset itself. *)
Theorem X16_centering_leaves_dom_alone {E : Env} (sel : string) (w : World) :
  (let r := InPage.centerElement sel w in
   fst r = (if css_valid sel then inr tt else inl (InvalidSelector sel))
   /\ nodes (page (snd r)) = nodes (page w)
   /\ pageYOffset (page (snd r)) = pageYOffset (page w)
   /\ innerHeight (page (snd r)) = innerHeight (page w)
   /\ scrollHeight (page (snd r)) = scrollHeight (page w)
   /\ console (snd r) = console w /\ files (snd r) = files w
   /\ entropy (snd r) = entropy w /\ browserOpen (snd r) = browserOpen w)
  /\ (let r := InPage.adjustPosition sel w in
      fst r = (if css_valid sel then inr tt else inl (InvalidSelector sel))
      /\ nodes (page (snd r)) = nodes (page w)
      /\ innerHeight (page (snd r)) = innerHeight (page w)
      /\ scrollHeight (page (snd r)) = scrollHeight (page w)
      /\ console (snd r) = console w /\ files (snd r) = files w
      /\ entropy (snd r) = entropy w /\ browserOpen (snd r) = browserOpen w).
Proof. split; [apply centerElement_frame | apply adjustPosition_frame]. Qed.

(** X17: for the same options of the command line, with an output directory
    that is not the empty string, and with no parent selector or with a
    single device, [captureScreenshots] of [src/index.ts] and [main] of the
    class variant, run from the same state, leave the same files with the
    same contents, the same page, and the same console lines in the same
    order, apart from the timeout printed in the navigation line, the text
    of the reported errors, and the [Found N children] and config-error
    lines. *)
Theorem X17_variants_agree {E : Env} (o : Options) (w : World) :
  output o <> ""%string ->
  truthy (parentSelector o) = None \/ (exists d, deviceTypes o = [d]) ->
  let w1 := snd (Index.captureScreenshots o w) in
  let w2 := snd (Refactored.main o w) in
  files w1 = files w2 /\ transcript w1 = transcript w2
  /\ page w1 = page w2 /\ entropy w1 = entropy w2.
Proof.
  intros Hout Hcase. cbv zeta. unfold Refactored.main.
  rewrite (parseCommandLineOptions_given o Hout). exact (runs_agree o w Hcase).
Qed.

Lemma X17_variants_witness :
  let o := Demo.cards (only desktop) in
  files (snd (@Index.captureScreenshots Demo.E o initial))
  = files (snd (@Refactored.main Demo.E o initial)).
Proof.
  cbv zeta.
  assert (output (Demo.cards (only desktop)) <> ""%string) as Hout by discriminate.
  exact (proj1 (@X17_variants_agree Demo.E (Demo.cards (only desktop)) initial Hout
                  (or_intror (ex_intro _ desktop eq_refl)))).
Defined.
